(** * TinyCompiled: lexer, parser and NASM generator

    A shallow embedding of the TinyCompiled compiler core
    ([src/lexer], [src/parser], [src/generator], [src/compiler]) and the
    verification of its specification.

    Characters are Rocq [ascii] values, read as the code points 0..255 of
    the Python source string; the character classes below follow Python's
    [str.isspace], [str.isdigit], [str.isalpha] and [str.isalnum] on that
    range. *)

From Stdlib Require Import String Ascii ZArith List Bool Lia.
From Stdlib Require Import Numbers.DecimalString.
From Stdlib Require Import Btauto.
From Stdlib Require Import Sorting.Permutation Numbers.DecimalNat.
Import ListNotations.

Open Scope string_scope.
Open Scope list_scope.

(** String concatenation ([+] on Python [str]). *)
Infix "+++" := String.append (at level 60, right associativity).

(** ** Python exceptions the pipeline can raise *)

Inductive py_error : Type :=
| ValueError                 (** [int(...)] on a malformed literal *)
| TypeError                  (** [None in "xX"] *)
| SyntaxError (line : nat)   (** raised by the parser *)
| FuelExhausted.             (** never raised: the loops are given enough fuel *)

Inductive outcome (A : Type) : Type :=
| Ok (a : A)
| Raise (e : py_error).
Arguments Ok {A} a.
Arguments Raise {A} e.

Definition bind {A B} (m : outcome A) (k : A -> outcome B) : outcome B :=
  match m with
  | Ok a => k a
  | Raise e => Raise e
  end.

Notation "'let*' x := m 'in' k" := (bind m (fun x => k))
  (at level 200, x pattern, m at level 100, k at level 200).

(** ** [src/lexer/token.py] *)

Inductive TokenType : Type :=
| VAR | LOAD | SET | MOVE | ADD | SUB | MUL | DIV | INC | DEC | AND | OR
| XOR | NOT | SHL | SHR | CMP | JMP | JE | JNE | JG | JL | JGE | JLE
| FUNC | ENDFUNC | CALL | RET | LOOP | ENDLOOP | WHILE | ENDWHILE | FOR
| ENDFOR | FROM | TO | STEP | REPEAT | UNTIL | IF | ELSE | ENDIF | PUSH
| POP | PRINT | INPUT | HALT | NOP
| REGISTER | IDENTIFIER | NUMBER | LABEL
| EQ | NEQ | GT | LT | GTE | LTE
| COMMA | COLON | NEWLINE | EOF.

Scheme Equality for TokenType.

(** A token's [value]: a string, an int, or [None]. *)
Inductive tval : Type :=
| TVStr (s : string)
| TVInt (z : Z)
| TVNone.

Record token : Type := Token {
  ttype : TokenType;
  tvalue : tval;
  tline : nat;
  tcolumn : nat
}.

(** ** [src/lexer/keyword.py] *)

Definition KEYWORD_DICT : list (string * TokenType) :=
  [ ("VAR", VAR); ("LOAD", LOAD); ("SET", SET); ("MOVE", MOVE);
    ("ADD", ADD); ("SUB", SUB); ("MUL", MUL); ("DIV", DIV);
    ("AND", AND); ("OR", OR); ("XOR", XOR);
    ("INC", INC); ("DEC", DEC); ("NOT", NOT);
    ("SHL", SHL); ("SHR", SHR);
    ("FUNC", FUNC); ("ENDFUNC", ENDFUNC); ("CALL", CALL); ("RET", RET);
    (* LOOP, ENDLOOP, WHILE, ENDWHILE, FOR, ENDFOR, FROM, TO, STEP,
       REPEAT, UNTIL are commented out in the source *)
    ("IF", IF); ("ELSE", ELSE); ("ENDIF", ENDIF);
    (* PUSH, POP are commented out in the source *)
    ("PRINT", PRINT); ("INPUT", INPUT); ("HALT", HALT); ("NOP", NOP) ].

Fixpoint dict_get (k : string) (d : list (string * TokenType)) : option TokenType :=
  match d with
  | [] => None
  | (k', v) :: d' => if String.eqb k k' then Some v else dict_get k d'
  end.

(** ** Character classes (Python semantics on code points 0..255) *)

Definition code (c : ascii) : nat := nat_of_ascii c.

Definition in_range (lo hi : nat) (c : ascii) : bool :=
  (lo <=? code c)%nat && (code c <=? hi)%nat.

Definition isspace (c : ascii) : bool :=
  in_range 9 13 c || in_range 28 32 c || (code c =? 133)%nat || (code c =? 160)%nat.

Definition is_ascii_digit (c : ascii) : bool := in_range 48 57 c.

(** [str.isdigit]: ASCII digits and the superscripts two, three and one. *)
Definition isdigit (c : ascii) : bool :=
  is_ascii_digit c || (code c =? 178)%nat || (code c =? 179)%nat || (code c =? 185)%nat.

Definition isalpha (c : ascii) : bool :=
  in_range 65 90 c || in_range 97 122 c || (code c =? 170)%nat || (code c =? 181)%nat
  || (code c =? 186)%nat || in_range 192 214 c || in_range 216 246 c
  || in_range 248 255 c.

(** [str.isalnum]: letters, digits and the vulgar fractions 188..190. *)
Definition isalnum (c : ascii) : bool :=
  isalpha c || isdigit c || in_range 188 190 c.

Definition char_in (c : ascii) (s : string) : bool :=
  existsb (fun d => Ascii.eqb c d) (list_ascii_of_string s).

(** [str.upper], restricted to what the keyword lookup can observe: the
    keywords are ASCII and no character of 128..255 upper-cases into a
    string that contains a keyword, so the other characters are kept. *)
Definition upper_char (c : ascii) : ascii :=
  if in_range 97 122 c then ascii_of_nat (code c - 32) else c.

Fixpoint upper (s : string) : string :=
  match s with
  | EmptyString => EmptyString
  | String c s' => String (upper_char c) (upper s')
  end.

(** ** [src/lexer/lexer.py] *)

(** The lexer's cursor: the unread suffix of the source ([source[pos:]]),
    the current line and the current column. *)
Record lexst : Type := LexSt {
  rest : string;
  line : nat;
  column : nat
}.

Definition current_char (st : lexst) : option ascii :=
  match rest st with
  | EmptyString => None
  | String c _ => Some c
  end.

Definition peek_char (st : lexst) : option ascii :=
  match rest st with
  | String _ (String c _) => Some c
  | _ => None
  end.

Definition step_pos (c : ascii) (ln co : nat) : nat * nat :=
  if Ascii.eqb c "010"%char then (S ln, 1%nat) else (ln, S co).

Definition advance (st : lexst) : lexst :=
  match rest st with
  | EmptyString => st
  | String c s =>
      let (ln, co) := step_pos c (line st) (column st) in LexSt s ln co
  end.

(** [while current_char() satisfies p: take it; advance()] *)
Fixpoint scan_while (p : ascii -> bool) (s : string) (ln co : nat) {struct s}
  : string * lexst :=
  match s with
  | EmptyString => (EmptyString, LexSt s ln co)
  | String c s' =>
      if p c then
        let (ln', co') := step_pos c ln co in
        let (taken, st') := scan_while p s' ln' co' in
        (String c taken, st')
      else (EmptyString, LexSt s ln co)
  end.

Definition scan (p : ascii -> bool) (st : lexst) : string * lexst :=
  scan_while p (rest st) (line st) (column st).

Definition skip_whitespace (st : lexst) : lexst :=
  snd (scan (fun c => isspace c && negb (Ascii.eqb c "010"%char)) st).

Definition skip_comment (st : lexst) : lexst :=
  match current_char st with
  | Some ";"%char => snd (scan (fun c => negb (Ascii.eqb c "010"%char)) st)
  | _ => st
  end.

(** Digit values accepted by Python's [int(s, base)] for the characters
    [read_number] can collect. *)
Definition digit_value (c : ascii) : option Z :=
  if in_range 48 57 c then Some (Z.of_nat (code c - 48))
  else if in_range 97 102 c then Some (Z.of_nat (code c - 87))
  else if in_range 65 70 c then Some (Z.of_nat (code c - 55))
  else None.

Fixpoint digits_value (base acc : Z) (s : string) : option Z :=
  match s with
  | EmptyString => Some acc
  | String c s' =>
      match digit_value c with
      | Some d => if (d <? base)%Z then digits_value base (acc * base + d)%Z s' else None
      | None => None
      end
  end.

(** [int(num_str, base)] on [num_str] = an optional [-] and the collected
    characters; an empty digit run or a non-digit raises [ValueError]. *)
Definition py_int (base : Z) (num_str : string) : outcome Z :=
  let (neg, ds) :=
    match num_str with
    | String "-"%char ds => (true, ds)
    | _ => (false, num_str)
    end in
  match ds with
  | EmptyString => Raise ValueError
  | _ =>
      match digits_value base 0 ds with
      | Some v => Ok (if neg then (- v)%Z else v)
      | None => Raise ValueError
      end
  end.

Definition is_hex_char (c : ascii) : bool := char_in c "0123456789abcdefABCDEF".
Definition is_bin_char (c : ascii) : bool := char_in c "01".

Definition read_number (st : lexst) : outcome (Z * lexst) :=
  let '(sign, st) :=
    match current_char st with
    | Some "-"%char => ("-", advance st)
    | _ => ("", st)
    end in
  match current_char st with
  | Some "0"%char =>
      match peek_char st with
      | None => Raise TypeError                     (* None in "xX" *)
      | Some p =>
          if char_in p "xX" then
            let (ds, st') := scan is_hex_char (advance (advance st)) in
            let num_str := sign +++ ds in
            match num_str with
            | EmptyString => Ok (0%Z, st')
            | _ => let* v := py_int 16 num_str in Ok (v, st')
            end
          else if char_in p "bB" then
            let (ds, st') := scan is_bin_char (advance (advance st)) in
            let num_str := sign +++ ds in
            match num_str with
            | EmptyString => Ok (0%Z, st')
            | _ => let* v := py_int 2 num_str in Ok (v, st')
            end
          else
            let (ds, st') := scan isdigit st in
            let* v := py_int 10 (sign +++ ds) in Ok (v, st')
      end
  | _ =>
      let (ds, st') := scan isdigit st in
      let* v := py_int 10 (sign +++ ds) in Ok (v, st')
  end.

Definition read_identifier (st : lexst) : string * lexst :=
  scan (fun c => isalnum c || Ascii.eqb c "_"%char) st.

Definition REGISTER_NAMES : list string :=
  ["R1"; "R2"; "R3"; "R4"; "R5"; "R6"; "R7"; "R8"].

Definition in_strings (s : string) (l : list string) : bool :=
  existsb (String.eqb s) l.

Definition mk (ty : TokenType) (v : tval) (st : lexst) : token :=
  Token ty v (line st) (column st).

(** [_tokenize_operators] is [...] in the source: it does nothing. *)
Definition _tokenize_operators (st : lexst) : lexst := st.

(** One iteration of the [while self.pos < self.s_len] loop of [tokenize],
    on a cursor with unread input: [None] for [break], otherwise the tokens
    appended by the iteration and the new cursor. *)
Definition tokenize_step (st : lexst) : outcome (option (list token * lexst)) :=
  let st := skip_whitespace st in
  match current_char st with
  | None => Ok None
  | Some c =>
      if Ascii.eqb c ";"%char then Ok (Some ([], skip_comment st))
      else if Ascii.eqb c ","%char then
        Ok (Some ([mk COMMA (TVStr ",") st], advance st))
      else if Ascii.eqb c "010"%char then
        Ok (Some ([mk NEWLINE (TVStr (String "010"%char EmptyString)) st], advance st))
      else if isdigit c
              || (Ascii.eqb c "-"%char
                  && match peek_char st with Some d => isdigit d | None => false end) then
        let* (num, st') := read_number st in
        Ok (Some ([mk NUMBER (TVInt num) st'], st'))
      else
        let st := _tokenize_operators st in
        if isalpha c || Ascii.eqb c "_"%char then
          let (ident, st') := read_identifier st in
          if match current_char st' with Some ":"%char => true | _ => false end then
            Ok (Some ([mk LABEL (TVStr ident) st'], advance st'))
          else if in_strings ident REGISTER_NAMES then
            Ok (Some ([mk REGISTER (TVStr ident) st'], st'))
          else match dict_get (upper ident) KEYWORD_DICT with
               | Some ty => Ok (Some ([mk ty (TVStr ident) st'], st'))
               | None => Ok (Some ([mk IDENTIFIER (TVStr ident) st'], st'))
               end
        else Ok (Some ([], advance st))
  end.

(** The loop; [fuel] bounds the iterations (each one consumes input). *)
Fixpoint tokenize_loop (fuel : nat) (st : lexst) (acc : list token)
  : outcome (list token * lexst) :=
  match rest st with
  | EmptyString => Ok (acc, st)
  | String _ _ =>
      match fuel with
      | O => Raise FuelExhausted
      | S fuel' =>
          let* r := tokenize_step st in
          match r with
          | None => Ok (acc, st)
          | Some (ts, st') => tokenize_loop fuel' st' (acc ++ ts)
          end
      end
  end.

Definition tokenize (source : string) : outcome (list token) :=
  let* (toks, st) := tokenize_loop (S (String.length source)) (LexSt source 1 1) [] in
  Ok (toks ++ [mk EOF TVNone st]).

Definition token_types (ts : list token) : list TokenType := map ttype ts.

(** ** [src/ast/node.py] *)

(** A [Union[str, int]] field. *)
Inductive value : Type :=
| VStr (s : string)
| VInt (z : Z).

Record Condition : Type := MkCondition {
  cond_left : value;
  cond_op : string;
  cond_right : value
}.

Scheme All for list.
Scheme All for option.

(** The statement classes ([Set] is [Set_] here, [Set] being a Rocq sort).
    [Compare] and [Jump] are built by [parse_compare] and [parse_jump]. *)
Inductive stmt : Type :=
| VarDecl (name : string) (val : option Z)
| Load (dest : string) (src : value)
| Set_ (dest : string) (src : value)
| Move (dest : string) (src : value)
| BinaryOp (op dest left_ : string) (right_ : value)
| UnaryOp (op operand : string)
| ShiftOp (op dest src : string) (count : Z)
| Compare (left_ : string) (right_ : value)
| Jump (op label : string)
| Label (name : string)
| Function (name : string) (body : list stmt)
| Call (name : string)
| Return (val : option string)
| Loop (var : string) (limit : Z) (body : list stmt)
| While (condition : Condition) (body : list stmt)
| For (var : string) (start end_ step : Z) (body : list stmt)
| Repeat (body : list stmt) (condition : Condition)
| If (condition : Condition) (then_body : list stmt) (else_body : option (list stmt))
| Push (register : string)
| Pop (register : string)
| Print (val : value)
| Input (dest : string)
| Halt
| Nop.

Record Program : Type := MkProgram { statements : list stmt }.

(** ** [src/parser/parser.py] *)

(** [token.value] read at a position whose token kind carries a string
    (registers, identifiers, labels, keywords) or an int (numbers). *)
Definition as_str (v : tval) : string :=
  match v with TVStr s => s | _ => "" end.
Definition as_int (v : tval) : Z :=
  match v with TVInt z => z | _ => 0%Z end.
Definition as_value (v : tval) : value :=
  match v with TVStr s => VStr s | TVInt z => VInt z | TVNone => VStr "" end.

Definition in_types (t : TokenType) (l : list TokenType) : bool :=
  existsb (TokenType_beq t) l.

Definition opt_cons {A} (o : option A) (l : list A) : list A :=
  match o with Some a => a :: l | None => l end.

Section Parser.

(** [self.tokens[-1]], returned by [current_token] past the end. *)
Variable last_tok : token.

(** The parser's cursor is the unread suffix [tokens[pos:]]. *)
Definition current_token (ts : list token) : token :=
  match ts with t :: _ => t | [] => last_tok end.

Definition padvance (ts : list token) : list token := tl ts.

Definition cur_type (ts : list token) : TokenType := ttype (current_token ts).

Definition syntax_error {A} (ts : list token) : outcome A :=
  Raise (SyntaxError (tline (current_token ts))).

Definition expect (expected : TokenType) (ts : list token) : outcome (token * list token) :=
  let t := current_token ts in
  if TokenType_beq (ttype t) expected then Ok (t, padvance ts)
  else Raise (SyntaxError (tline t)).

Fixpoint skip_newlines (ts : list token) : list token :=
  match ts with
  | t :: ts' => if TokenType_beq (ttype t) NEWLINE then skip_newlines ts' else ts
  | [] => if TokenType_beq (ttype last_tok) NEWLINE then [] else []
  end.

(** The [if token.type == K1: x = expect(K1).value elif ...] chains. *)
Definition take_value (kinds : list TokenType) (ts : list token) : outcome (value * list token) :=
  let t := current_token ts in
  if in_types (ttype t) kinds then Ok (as_value (tvalue t), padvance ts)
  else Raise (SyntaxError (tline t)).

Definition take_str (k : TokenType) (ts : list token) : outcome (string * list token) :=
  let* (t, ts) := expect k ts in Ok (as_str (tvalue t), ts).

Definition take_int (k : TokenType) (ts : list token) : outcome (Z * list token) :=
  let* (t, ts) := expect k ts in Ok (as_int (tvalue t), ts).

Definition parse_var_decl (ts : list token) : outcome (stmt * list token) :=
  let* (_, ts) := expect VAR ts in
  let* (name, ts) := take_str IDENTIFIER ts in
  if TokenType_beq (cur_type ts) COMMA then
    let* (v, ts) := take_int NUMBER (padvance ts) in Ok (VarDecl name (Some v), ts)
  else Ok (VarDecl name None, ts).

Definition parse_load (ts : list token) : outcome (stmt * list token) :=
  let* (_, ts) := expect LOAD ts in
  let* (dest, ts) := take_str REGISTER ts in
  let* (_, ts) := expect COMMA ts in
  let* (src, ts) := take_value [REGISTER; IDENTIFIER; NUMBER] ts in
  Ok (Load dest src, ts).

Definition parse_set (ts : list token) : outcome (stmt * list token) :=
  let* (_, ts) := expect SET ts in
  let* (dest, ts) := take_str IDENTIFIER ts in
  let* (_, ts) := expect COMMA ts in
  let* (src, ts) := take_value [REGISTER; NUMBER] ts in
  Ok (Set_ dest src, ts).

Definition parse_move (ts : list token) : outcome (stmt * list token) :=
  let* (_, ts) := expect MOVE ts in
  let* (dest, ts) := take_str REGISTER ts in
  let* (_, ts) := expect COMMA ts in
  let* (src, ts) := take_str REGISTER ts in
  Ok (Move dest (VStr src), ts).

Definition parse_binary_op (ts : list token) : outcome (stmt * list token) :=
  let op := upper (as_str (tvalue (current_token ts))) in
  let ts := padvance ts in
  let* (dest, ts) := take_str REGISTER ts in
  let* (_, ts) := expect COMMA ts in
  let* (left_, ts) := take_str REGISTER ts in
  let* (_, ts) := expect COMMA ts in
  let* (right_, ts) := take_value [REGISTER; NUMBER] ts in
  Ok (BinaryOp op dest left_ right_, ts).

Definition parse_unary_op (ts : list token) : outcome (stmt * list token) :=
  let op := upper (as_str (tvalue (current_token ts))) in
  let ts := padvance ts in
  let t := current_token ts in
  if in_types (ttype t) [REGISTER; IDENTIFIER] then
    Ok (UnaryOp op (as_str (tvalue t)), padvance ts)
  else Raise (SyntaxError (tline t)).

Definition parse_not (ts : list token) : outcome (stmt * list token) :=
  let* (_, ts) := expect NOT ts in
  let* (dest, ts) := take_str REGISTER ts in
  let* (_, ts) := expect COMMA ts in
  let* (src, ts) := take_str REGISTER ts in
  (* NOT is special - it has dest and src *)
  Ok (BinaryOp "NOT" dest src (VInt 0), ts).

Definition parse_shift (ts : list token) : outcome (stmt * list token) :=
  let op := upper (as_str (tvalue (current_token ts))) in
  let ts := padvance ts in
  let* (dest, ts) := take_str REGISTER ts in
  let* (_, ts) := expect COMMA ts in
  let* (src, ts) := take_str REGISTER ts in
  let* (_, ts) := expect COMMA ts in
  let* (count, ts) := take_int NUMBER ts in
  Ok (ShiftOp op dest src count, ts).

Definition parse_compare (ts : list token) : outcome (stmt * list token) :=
  let* (_, ts) := expect CMP ts in
  let t := current_token ts in
  if in_types (ttype t) [REGISTER; IDENTIFIER] then
    let left_ := as_str (tvalue t) in
    let ts := padvance ts in
    let* (_, ts) := expect COMMA ts in
    let* (right_, ts) := take_value [REGISTER; NUMBER] ts in
    Ok (Compare left_ right_, ts)
  else Raise (SyntaxError (tline t)).

Definition parse_jump (ts : list token) : outcome (stmt * list token) :=
  let op := upper (as_str (tvalue (current_token ts))) in
  let ts := padvance ts in
  let* (label, ts) := take_str IDENTIFIER ts in
  Ok (Jump op label, ts).

Definition parse_label (ts : list token) : outcome (stmt * list token) :=
  let* (label, ts) := take_str LABEL ts in
  Ok (Label label, ts).

Definition parse_call (ts : list token) : outcome (stmt * list token) :=
  let* (_, ts) := expect CALL ts in
  let* (name, ts) := take_str IDENTIFIER ts in
  Ok (Call name, ts).

Definition parse_return (ts : list token) : outcome (stmt * list token) :=
  let* (_, ts) := expect RET ts in
  if TokenType_beq (cur_type ts) REGISTER then
    let* (v, ts) := take_str REGISTER ts in Ok (Return (Some v), ts)
  else Ok (Return None, ts).

Definition parse_condition (ts : list token) : outcome (Condition * list token) :=
  let* (left_, ts) := take_value [REGISTER; IDENTIFIER; NUMBER] ts in
  let op_token := current_token ts in
  if in_types (ttype op_token) [EQ; NEQ; GT; LT; GTE; LTE] then
    let op := as_str (tvalue op_token) in
    let ts := padvance ts in
    let* (right_, ts) := take_value [REGISTER; IDENTIFIER; NUMBER] ts in
    Ok (MkCondition left_ op right_, ts)
  else Raise (SyntaxError (tline op_token)).

Definition parse_push (ts : list token) : outcome (stmt * list token) :=
  let* (_, ts) := expect PUSH ts in
  let* (r, ts) := take_str REGISTER ts in Ok (Push r, ts).

Definition parse_pop (ts : list token) : outcome (stmt * list token) :=
  let* (_, ts) := expect POP ts in
  let* (r, ts) := take_str REGISTER ts in Ok (Pop r, ts).

Definition parse_print (ts : list token) : outcome (stmt * list token) :=
  let* (_, ts) := expect PRINT ts in
  let* (v, ts) := take_value [REGISTER; IDENTIFIER; NUMBER] ts in Ok (Print v, ts).

Definition parse_input (ts : list token) : outcome (stmt * list token) :=
  let* (_, ts) := expect INPUT ts in
  let t := current_token ts in
  if in_types (ttype t) [REGISTER; IDENTIFIER] then
    Ok (Input (as_str (tvalue t)), padvance ts)
  else Raise (SyntaxError (tline t)).

(** The block loops ([while current_token().type not in stops]) are given
    by [block]; the statements with bodies take it as a parameter. *)
Definition block_parser : Type :=
  list TokenType -> list token -> outcome (list stmt * list token).

Definition parse_function (block : block_parser) (ts : list token) : outcome (stmt * list token) :=
  let* (_, ts) := expect FUNC ts in
  let* (name, ts) := take_str IDENTIFIER ts in
  let* (body, ts) := block [ENDFUNC] (skip_newlines ts) in
  let* (_, ts) := expect ENDFUNC ts in
  Ok (Function name body, ts).

Definition parse_loop (block : block_parser) (ts : list token) : outcome (stmt * list token) :=
  let* (_, ts) := expect LOOP ts in
  let* (var, ts) := take_str IDENTIFIER ts in
  let* (_, ts) := expect COMMA ts in
  let* (limit, ts) := take_int NUMBER ts in
  let* (body, ts) := block [ENDLOOP] (skip_newlines ts) in
  let* (_, ts) := expect ENDLOOP ts in
  Ok (Loop var limit body, ts).

Definition parse_while (block : block_parser) (ts : list token) : outcome (stmt * list token) :=
  let* (_, ts) := expect WHILE ts in
  let* (c, ts) := parse_condition ts in
  let* (body, ts) := block [ENDWHILE] (skip_newlines ts) in
  let* (_, ts) := expect ENDWHILE ts in
  Ok (While c body, ts).

Definition parse_for (block : block_parser) (ts : list token) : outcome (stmt * list token) :=
  let* (_, ts) := expect FOR ts in
  let* (var, ts) := take_str IDENTIFIER ts in
  let* (_, ts) := expect FROM ts in
  let* (start, ts) := take_int NUMBER ts in
  let* (_, ts) := expect TO ts in
  let* (end_, ts) := take_int NUMBER ts in
  let* (step, ts) :=
    if TokenType_beq (cur_type ts) STEP then take_int NUMBER (padvance ts)
    else Ok (1%Z, ts) in
  let* (body, ts) := block [ENDFOR] (skip_newlines ts) in
  let* (_, ts) := expect ENDFOR ts in
  Ok (For var start end_ step body, ts).

Definition parse_repeat (block : block_parser) (ts : list token) : outcome (stmt * list token) :=
  let* (_, ts) := expect REPEAT ts in
  let* (body, ts) := block [UNTIL] (skip_newlines ts) in
  let* (_, ts) := expect UNTIL ts in
  let* (c, ts) := parse_condition ts in
  Ok (Repeat body c, ts).

Definition parse_if (block : block_parser) (ts : list token) : outcome (stmt * list token) :=
  let* (_, ts) := expect IF ts in
  let* (c, ts) := parse_condition ts in
  let* (then_body, ts) := block [ELSE; ENDIF] (skip_newlines ts) in
  let* (else_body, ts) :=
    if TokenType_beq (cur_type ts) ELSE then
      let* (eb, ts) := block [ENDIF] (skip_newlines (padvance ts)) in Ok (Some eb, ts)
    else Ok (None, ts) in
  let* (_, ts) := expect ENDIF ts in
  Ok (If c then_body else_body, ts).

Definition some_stmt (r : outcome (stmt * list token)) : outcome (option stmt * list token) :=
  let* (s, ts) := r in Ok (Some s, ts).

(** [parse_statement] and the block loop; [fuel] bounds the recursion
    depth (each statement consumes at least one token). *)
Fixpoint parse_statement (fuel : nat) (ts : list token) {struct fuel}
  : outcome (option stmt * list token) :=
  match fuel with
  | O => Raise FuelExhausted
  | S fuel' =>
      let ts := skip_newlines ts in
      let t := current_token ts in
      match ttype t with
      | VAR => some_stmt (parse_var_decl ts)
      | LOAD => some_stmt (parse_load ts)
      | SET => some_stmt (parse_set ts)
      | MOVE => some_stmt (parse_move ts)
      | ADD | SUB | MUL | DIV | AND | OR | XOR => some_stmt (parse_binary_op ts)
      | INC | DEC => some_stmt (parse_unary_op ts)
      | NOT => some_stmt (parse_not ts)
      | SHL | SHR => some_stmt (parse_shift ts)
      | CMP => some_stmt (parse_compare ts)
      | JMP | JE | JNE | JG | JL | JGE | JLE => some_stmt (parse_jump ts)
      | LABEL => some_stmt (parse_label ts)
      | FUNC => some_stmt (parse_function (parse_block fuel') ts)
      | CALL => some_stmt (parse_call ts)
      | RET => some_stmt (parse_return ts)
      | LOOP => some_stmt (parse_loop (parse_block fuel') ts)
      | WHILE => some_stmt (parse_while (parse_block fuel') ts)
      | FOR => some_stmt (parse_for (parse_block fuel') ts)
      | REPEAT => some_stmt (parse_repeat (parse_block fuel') ts)
      | IF => some_stmt (parse_if (parse_block fuel') ts)
      | PUSH => some_stmt (parse_push ts)
      | POP => some_stmt (parse_pop ts)
      | PRINT => some_stmt (parse_print ts)
      | INPUT => some_stmt (parse_input ts)
      | HALT => Ok (Some Halt, padvance ts)
      | NOP => Ok (Some Nop, padvance ts)
      | NEWLINE => Ok (None, padvance ts)
      | _ => Raise (SyntaxError (tline t))
      end
  end
with parse_block (fuel : nat) (stops : list TokenType) (ts : list token) {struct fuel}
  : outcome (list stmt * list token) :=
  match fuel with
  | O => Raise FuelExhausted
  | S fuel' =>
      if in_types (cur_type ts) stops then Ok ([], ts)
      else
        let* (o, ts) := parse_statement fuel' ts in
        let* (body, ts) := parse_block fuel' stops (skip_newlines ts) in
        Ok (opt_cons o body, ts)
  end.

End Parser.

Definition last_token (ts : list token) : token :=
  last ts (Token EOF TVNone 0 0).

(** [Parser(tokens).parse()]: the top-level loop is the block loop
    stopping at [EOF]. *)
Definition parse (tokens : list token) : outcome Program :=
  let* (ss, _) := parse_block (last_token tokens) (2 * length tokens + 2) [EOF] tokens in
  Ok (MkProgram ss).

(** ** [src/generator/nasm_generator.py] *)

(** [f"{n}"] on ints. *)
Definition show_Z (z : Z) : string := NilZero.string_of_int (Z.to_int z).
Definition show_nat (n : nat) : string := NilZero.string_of_uint (Nat.to_uint n).

Definition SYS_READ : Z := 0.
Definition SYS_WRITE : Z := 1.
Definition SYS_EXIT : Z := 60.
Definition STDIN : Z := 0.
Definition STDOUT : Z := 1.
Definition DIGIT_BUFFER_SIZE : Z := 20.
Definition INPUT_BUFFER_SIZE : Z := 32.

Definition REGISTER_MAP : list (string * string) :=
  [ ("R1", "rax"); ("R2", "rbx"); ("R3", "rcx"); ("R4", "rdx");
    ("R5", "rsi"); ("R6", "rdi"); ("R7", "r8"); ("R8", "r9") ].

Fixpoint map_get (k : string) (m : list (string * string)) : option string :=
  match m with
  | [] => None
  | (k', v) :: m' => if String.eqb k k' then Some v else map_get k m'
  end.

Definition get_register (reg : string) : string :=
  match map_get reg REGISTER_MAP with Some r => r | None => reg end.

Definition is_register (operand : string) : bool :=
  match map_get operand REGISTER_MAP with Some _ => true | None => false end.

(** [is_register] on a [Union[str, int]] value: an int is no key. *)
Definition is_register_v (v : value) : bool :=
  match v with VStr s => is_register s | VInt _ => false end.

(** The generator object. *)
Record gstate : Type := GState {
  data_section : list string;
  bss_section : list string;
  text_section : list string;
  label_counter : nat;
  variables : list string;
  needs_print_int : bool;
  needs_read_int : bool;
  functions : list (string * list stmt)
}.

Definition init_gstate : gstate := GState [] [] [] 0 [] false false [].

Definition set_data d st := GState d (bss_section st) (text_section st) (label_counter st)
  (variables st) (needs_print_int st) (needs_read_int st) (functions st).
Definition set_bss b st := GState (data_section st) b (text_section st) (label_counter st)
  (variables st) (needs_print_int st) (needs_read_int st) (functions st).
Definition set_text t st := GState (data_section st) (bss_section st) t (label_counter st)
  (variables st) (needs_print_int st) (needs_read_int st) (functions st).
Definition set_counter n st := GState (data_section st) (bss_section st) (text_section st) n
  (variables st) (needs_print_int st) (needs_read_int st) (functions st).
Definition set_variables v st := GState (data_section st) (bss_section st) (text_section st)
  (label_counter st) v (needs_print_int st) (needs_read_int st) (functions st).
Definition set_needs_print b st := GState (data_section st) (bss_section st) (text_section st)
  (label_counter st) (variables st) b (needs_read_int st) (functions st).
Definition set_needs_read b st := GState (data_section st) (bss_section st) (text_section st)
  (label_counter st) (variables st) (needs_print_int st) b (functions st).
Definition set_functions f st := GState (data_section st) (bss_section st) (text_section st)
  (label_counter st) (variables st) (needs_print_int st) (needs_read_int st) f.

Definition emit_data (l : string) (st : gstate) : gstate :=
  set_data (data_section st ++ ["    " +++ l]) st.
Definition emit_bss (l : string) (st : gstate) : gstate :=
  set_bss (bss_section st ++ ["    " +++ l]) st.
Definition emit (instruction : string) (st : gstate) : gstate :=
  set_text (text_section st ++ ["    " +++ instruction]) st.
Definition emit_label (label : string) (st : gstate) : gstate :=
  set_text (text_section st ++ [label +++ ":"]) st.
(** [self.text_section.append(l)] *)
Definition append_text (l : string) (st : gstate) : gstate :=
  set_text (text_section st ++ [l]) st.

Definition when (b : bool) (f : gstate -> gstate) (st : gstate) : gstate :=
  if b then f st else st.

Definition generate_unary_op (op operand : string) (st : gstate) : gstate :=
  let operand := get_register operand in
  if String.eqb op "INC" then emit ("inc " +++ operand) st
  else if String.eqb op "DEC" then emit ("dec " +++ operand) st
  else if String.eqb op "NOT" then emit ("not " +++ operand) st
  else st.

Definition generate_shift (op dest src : string) (count : Z) (st : gstate) : gstate :=
  let dest := get_register dest in
  let src := get_register src in
  let st := when (negb (String.eqb dest src)) (emit ("mov " +++ dest +++ ", " +++ src)) st in
  if String.eqb op "SHL" then emit ("shl " +++ dest +++ ", " +++ show_Z count) st
  else if String.eqb op "SHR" then emit ("shr " +++ dest +++ ", " +++ show_Z count) st
  else st.

Definition right_operand_of (right_ : value) : string :=
  match right_ with
  | VInt z => show_Z z
  | VStr s => if is_register s then get_register s else "[" +++ s +++ "]"
  end.

Definition generate_binary_op (op dest left_ : string) (right_ : value) (st : gstate) : gstate :=
  let dest := get_register dest in
  let left_ := get_register left_ in
  let right_operand := right_operand_of right_ in
  if String.eqb op "DIV" then
    let st := when (negb (String.eqb dest "rdx")) (emit "push rdx") st in
    let save_rax := negb (String.eqb dest "rax") in
    let st := when save_rax (emit "push rax") st in
    let st := when (negb (String.eqb left_ "rax")) (emit ("mov rax, " +++ left_)) st in
    let st := emit "xor rdx, rdx" st in
    let st :=
      match right_ with
      | VInt z =>
          let st := emit "push r10" st in
          let st := emit ("mov r10, " +++ show_Z z) st in
          let st := emit "div r10" st in
          emit "pop r10" st
      | VStr _ => emit ("div " +++ right_operand) st
      end in
    let st := when (negb (String.eqb dest "rax")) (emit ("mov " +++ dest +++ ", rax")) st in
    let st := when save_rax (emit "pop rax") st in
    when (negb (String.eqb dest "rdx")) (emit "pop rdx") st
  else
    let st := when (negb (String.eqb dest left_)) (emit ("mov " +++ dest +++ ", " +++ left_)) st in
    let ins m := emit (m +++ " " +++ dest +++ ", " +++ right_operand) st in
    if String.eqb op "ADD" then ins "add"
    else if String.eqb op "SUB" then ins "sub"
    else if String.eqb op "MUL" then ins "imul"
    else if String.eqb op "AND" then ins "and"
    else if String.eqb op "OR" then ins "or"
    else if String.eqb op "XOR" then ins "xor"
    else st.

Definition generate_var_decl (name : string) (val : option Z) (st : gstate) : gstate :=
  let st := if in_strings name (variables st) then st
            else set_variables (variables st ++ [name]) st in
  match val with
  | Some v => emit_data (name +++ " dq " +++ show_Z v) st
  | None => emit_bss (name +++ " resq 1") st
  end.

Definition generate_load (dest : string) (src : value) (st : gstate) : gstate :=
  let dest := get_register dest in
  match src with
  | VInt z => emit ("mov " +++ dest +++ ", " +++ show_Z z) st
  | VStr s =>
      if is_register s then emit ("mov " +++ dest +++ ", " +++ get_register s) st
      else emit ("mov " +++ dest +++ ", [" +++ s +++ "]") st
  end.

Definition generate_set (dest : string) (src : value) (st : gstate) : gstate :=
  match src with
  | VInt z => emit ("mov qword [" +++ dest +++ "], " +++ show_Z z) st
  | VStr s => emit ("mov qword [" +++ dest +++ "], " +++ get_register s) st
  end.

Definition generate_move (dest : string) (src : value) (st : gstate) : gstate :=
  let dest := get_register dest in
  match src with
  | VStr s =>
      if is_register s then emit ("mov " +++ dest +++ ", " +++ get_register s) st
      else emit ("mov " +++ dest +++ ", r10") (emit ("mov r10, [" +++ s +++ "]") st)
  | VInt z => emit ("mov " +++ dest +++ ", r10") (emit ("mov r10, " +++ show_Z z) st)
  end.

(** [_load_value_to_r15] *)
Definition load_value_to_r15 (v : value) (st : gstate) : gstate :=
  match v with
  | VInt z => emit ("mov r15, " +++ show_Z z) st
  | VStr s =>
      if is_register s then emit ("mov r15, " +++ get_register s) st
      else emit ("mov r15, [" +++ s +++ "]") st
  end.

Definition generate_print (v : value) (st : gstate) : gstate :=
  let st := set_needs_print true st in
  emit "call print_int" (load_value_to_r15 v st).

Definition generate_input (dest : string) (st : gstate) : gstate :=
  let st := set_needs_read true st in
  let st := emit "call read_int" st in
  if is_register dest then emit ("mov " +++ get_register dest +++ ", r15") st
  else emit ("mov [" +++ dest +++ "], r15") st.

Definition generate_halt (st : gstate) : gstate :=
  emit "syscall" (emit "mov rdi, 0" (emit ("mov rax, " +++ show_Z SYS_EXIT) st)).

Definition generate_call (name : string) (st : gstate) : gstate :=
  emit ("call " +++ name) st.

Definition generate_return (val : option string) (st : gstate) : gstate :=
  let st :=
    match val with
    | Some v =>
        (* if stmt.value: (a non-empty string) *)
        if String.eqb v "" then st
        else when (is_register v) (emit ("mov rax, " +++ get_register v)) st
    | None => st
    end in
  emit "ret" st.

(** Loading a condition operand into a scratch register. *)
Definition load_operand (r : string) (v : value) (st : gstate) : gstate :=
  match v with
  | VInt z => emit ("mov " +++ r +++ ", " +++ show_Z z) st
  | VStr s =>
      if is_register s then emit ("mov " +++ r +++ ", " +++ get_register s) st
      else emit ("mov " +++ r +++ ", [" +++ s +++ "]") st
  end.

Definition generate_condition (cond : Condition) (false_label : string) (st : gstate) : gstate :=
  let st := load_operand "r10" (cond_left cond) st in
  let st := load_operand "r11" (cond_right cond) st in
  let st := emit "cmp r10, r11" st in
  let op := cond_op cond in
  if String.eqb op "==" then emit ("jne " +++ false_label) st
  else if String.eqb op "!=" then emit ("je " +++ false_label) st
  else if String.eqb op ">" then emit ("jle " +++ false_label) st
  else if String.eqb op "<" then emit ("jge " +++ false_label) st
  else if String.eqb op ">=" then emit ("jl " +++ false_label) st
  else if String.eqb op "<=" then emit ("jg " +++ false_label) st
  else st.

(** [generate_statement], with the [for s in body: generate_statement(s)]
    loops of the statements with bodies. *)
Fixpoint generate_statement (s : stmt) (st : gstate) {struct s} : gstate :=
  let fix gen_body (l : list stmt) (st : gstate) : gstate :=
    match l with
    | [] => st
    | s' :: l' => gen_body l' (generate_statement s' st)
    end in
  match s with
  | Function name body => set_functions (functions st ++ [(name, body)]) st
  | VarDecl name val => generate_var_decl name val st
  | Load dest src => generate_load dest src st
  | Set_ dest src => generate_set dest src st
  | Move dest src => generate_move dest src st
  | Print v => generate_print v st
  | Input dest => generate_input dest st
  | BinaryOp op dest left_ right_ => generate_binary_op op dest left_ right_ st
  | UnaryOp op operand => generate_unary_op op operand st
  | ShiftOp op dest src count => generate_shift op dest src count st
  | Halt => generate_halt st
  | Nop => append_text "    nop" st
  | Call name => generate_call name st
  | Return val => generate_return val st
  | If c then_body else_body =>
      let n := label_counter st in
      let else_label := "else_" +++ show_nat n in
      let endif_label := "endif_" +++ show_nat n in
      let st := set_counter (S n) st in
      let st := generate_condition c else_label st in
      let st := gen_body then_body st in
      match else_body with
      | Some ((_ :: _) as eb) =>
          let st := emit ("jmp " +++ endif_label) st in
          let st := emit_label else_label st in
          let st := gen_body eb st in
          emit_label endif_label st
      | _ => emit_label else_label st
      end
  | Loop var limit body =>
      let n := label_counter st in
      let start_label := "loop_start_" +++ show_nat n in
      let end_label := "loop_end_" +++ show_nat n in
      let st := set_counter (S n) st in
      let st := emit ("mov qword [" +++ var +++ "], 0") st in
      let st := emit_label start_label st in
      let st := emit ("mov r10, [" +++ var +++ "]") st in
      let st := emit ("mov r11, " +++ show_Z limit) st in
      let st := emit "cmp r10, r11" st in
      let st := emit ("jge " +++ end_label) st in
      let st := gen_body body st in
      let st := emit ("inc qword [" +++ var +++ "]") st in
      let st := emit ("jmp " +++ start_label) st in
      emit_label end_label st
  | While c body =>
      let n := label_counter st in
      let start_label := "while_start_" +++ show_nat n in
      let end_label := "while_end_" +++ show_nat n in
      let st := set_counter (S n) st in
      let st := emit_label start_label st in
      let st := generate_condition c end_label st in
      let st := gen_body body st in
      let st := emit ("jmp " +++ start_label) st in
      emit_label end_label st
  | For var start end_ step body =>
      let st :=
        if in_strings var (variables st) then st
        else emit_bss (var +++ " resq 1") (set_variables (variables st ++ [var]) st) in
      let n := label_counter st in
      let start_label := "for_start_" +++ show_nat n in
      let end_label := "for_end_" +++ show_nat n in
      let st := set_counter (S n) st in
      let st := emit ("mov qword [" +++ var +++ "], " +++ show_Z start) st in
      let st := emit_label start_label st in
      let st := emit ("mov r10, [" +++ var +++ "]") st in
      let st := emit ("mov r11, " +++ show_Z end_) st in
      let st := emit "cmp r10, r11" st in
      let st := emit ("jg " +++ end_label) st in
      let st := gen_body body st in
      let st := if Z.eqb step 1 then emit ("inc qword [" +++ var +++ "]") st
                else emit ("add qword [" +++ var +++ "], " +++ show_Z step) st in
      let st := emit ("jmp " +++ start_label) st in
      emit_label end_label st
  | Repeat body c =>
      let n := label_counter st in
      let start_label := "repeat_start_" +++ show_nat n in
      let st := set_counter (S n) st in
      let st := emit_label start_label st in
      let st := gen_body body st in
      generate_condition c start_label st
  | Label _ | Push _ | Pop _ | Compare _ _ | Jump _ _ => st
  end.

Fixpoint generate_body (l : list stmt) (st : gstate) : gstate :=
  match l with
  | [] => st
  | s :: l' => generate_body l' (generate_statement s st)
  end.

Definition generate_function (name : string) (body : list stmt) (st : gstate) : gstate :=
  generate_body body (emit_label name st).

(** The number of [Function] nodes of a statement list, nested ones
    included: it bounds the length of the function queue. *)
Fixpoint count_functions (s : stmt) : nat :=
  let fix count_body (l : list stmt) : nat :=
    match l with [] => 0 | s' :: l' => count_functions s' + count_body l' end in
  match s with
  | Function _ body => S (count_body body)
  | Loop _ _ body | While _ body | For _ _ _ _ body | Repeat body _ => count_body body
  | If _ tb eb => count_body tb + match eb with Some b => count_body b | None => 0 end
  | _ => 0
  end.

Fixpoint count_body (l : list stmt) : nat :=
  match l with [] => 0 | s :: l' => count_functions s + count_body l' end.

(** [for func in self.functions: self.generate_function(func)]: Python's
    list iterator also visits the functions appended during the loop.
    [i] is the iterator's index; [fuel] bounds the iterations. *)
Fixpoint run_functions (fuel i : nat) (st : gstate) : gstate :=
  match fuel with
  | O => st
  | S fuel' =>
      match nth_error (functions st) i with
      | None => st
      | Some (name, body) => run_functions fuel' (S i) (generate_function name body st)
      end
  end.

Definition _initialize_sections (st : gstate) : gstate :=
  let st := set_data (data_section st ++ ["section .data"]) st in
  let st := set_bss (bss_section st ++ ["section .bss"]) st in
  let st := append_text "section .text" st in
  let st := emit "global _start" st in
  let st := append_text "" st in
  let st := emit_label "_start" st in
  emit "jmp main_code" st.

Definition _generate_program_body (ast : Program) (st : gstate) : gstate :=
  let st := emit_label "main_code" st in
  let st := generate_body (statements ast) st in
  run_functions (count_body (statements ast)) 0 st.

Definition _add_io_buffers (st : gstate) : gstate :=
  let st := when (needs_print_int st)
              (fun st => emit_data ("digit_buffer times " +++ show_Z DIGIT_BUFFER_SIZE +++ " db 0")
                           (emit_data "newline db 10" st)) st in
  when (needs_read_int st)
    (emit_data ("input_buffer times " +++ show_Z INPUT_BUFFER_SIZE +++ " db 0")) st.

Definition _add_exit_code (st : gstate) : gstate :=
  emit "syscall" (emit "mov rdi, 0" (emit ("mov rax, " +++ show_Z SYS_EXIT) st)).

(** The lines [_add_print_int_function] appends to the text section. *)
Definition I (ins : string) : string := "    " +++ ins.
Definition L (label : string) : string := label +++ ":".

Definition print_int_lines : list string :=
  [ ""; L "print_int";
    I "push rax"; I "push rbx"; I "push rcx"; I "push rdx"; I "push rsi";
    I "push rdi"; I "push r11"; "";
    I "mov r10, r15"; "";
    I "mov r11, 10";
    I ("lea r12, [digit_buffer + " +++ show_Z (DIGIT_BUFFER_SIZE - 1) +++ "]");
    I "mov byte [r12], 0"; I "dec r12"; I "xor r13, r13  ; sign flag"; "";
    I "test r10, r10"; I "jns .positive"; I "neg r10"; I "mov r13, 1"; "";
    L ".positive";
    I "mov rax, r10"; I "xor rdx, rdx"; I "div r11";
    I "mov r10, rax  ; quotient back to r10"; I "add dl, '0'"; I "mov [r12], dl";
    I "dec r12"; I "test r10, r10"; I "jnz .positive"; "";
    I "test r13, r13"; I "jz .print"; I "mov byte [r12], '-'"; I "dec r12"; "";
    L ".print";
    I "inc r12  ; r12 = start of string";
    I ("mov rdx, digit_buffer + " +++ show_Z (DIGIT_BUFFER_SIZE - 1));
    I "sub rdx, r12  ; rdx = length"; I "mov rsi, r12  ; rsi = buffer pointer";
    I ("mov rax, " +++ show_Z SYS_WRITE); I ("mov rdi, " +++ show_Z STDOUT);
    I "syscall"; "";
    I ("mov rax, " +++ show_Z SYS_WRITE); I ("mov rdi, " +++ show_Z STDOUT);
    I "lea rsi, [newline]"; I "mov rdx, 1"; I "syscall"; "";
    I "pop r11"; I "pop rdi"; I "pop rsi"; I "pop rdx"; I "pop rcx"; I "pop rbx";
    I "pop rax"; "";
    I "ret" ].

(** The lines [_add_read_int_function] appends to the text section. *)
Definition read_int_lines : list string :=
  [ ""; L "read_int";
    I ("mov rax, " +++ show_Z SYS_READ); I ("mov rdi, " +++ show_Z STDIN);
    I "lea rsi, [input_buffer]"; I ("mov rdx, " +++ show_Z INPUT_BUFFER_SIZE);
    I "syscall"; "";
    I "lea r12, [input_buffer]"; I "xor r10, r10  ; result = 0";
    I "xor r13, r13  ; sign flag = 0"; I "mov r11, 10"; "";
    I "movzx r14, byte [r12]"; I "cmp r14b, '-'"; I "jne .parse_loop";
    I "mov r13, 1  ; set sign flag"; I "inc r12"; "";
    L ".parse_loop";
    I "movzx r14, byte [r12]"; I "cmp r14b, '0'"; I "jb .done"; I "cmp r14b, '9'";
    I "ja .done"; I "sub r14b, '0'"; I "imul r10, r11  ; result *= 10";
    I "add r10, r14   ; result += digit"; I "inc r12"; I "jmp .parse_loop"; "";
    L ".done";
    I "mov r15, r10"; I "test r13, r13"; I "jz .return"; I "neg r15"; "";
    L ".return";
    I "ret" ].

Definition _add_helper_functions (st : gstate) : gstate :=
  let st := when (needs_print_int st) (fun st => set_text (text_section st ++ print_int_lines) st) st in
  when (needs_read_int st) (fun st => set_text (text_section st ++ read_int_lines) st) st.

Definition _finalize_program (st : gstate) : gstate :=
  _add_helper_functions (_add_exit_code (_add_io_buffers st)).

(** [_build_output], before the ["\n".join(output)]. *)
Definition _build_output_lines (st : gstate) : list string :=
  (if (1 <? length (data_section st))%nat then data_section st ++ [""] else [])
  ++ (if (1 <? length (bss_section st))%nat then bss_section st ++ [""] else [])
  ++ text_section st.

Definition newline : string := String "010"%char EmptyString.

(** The lines of [NasmGenerator().generate(ast)]. *)
Definition generate_lines (ast : Program) : list string :=
  _build_output_lines (_finalize_program (_generate_program_body ast (_initialize_sections init_gstate))).

Definition generate (ast : Program) : string :=
  String.concat newline (generate_lines ast).

(** ** [src/compiler/compiler.py] *)

Definition lower_char (c : ascii) : ascii :=
  if in_range 65 90 c then ascii_of_nat (code c + 32) else c.

Fixpoint lower (s : string) : string :=
  match s with
  | EmptyString => EmptyString
  | String c s' => String (lower_char c) (lower s')
  end.

(** What the [DEBUG] branches print: the token list, then the tree. *)
Inductive diag : Type :=
| DTokens (ts : list token)
| DAst (p : Program).

(** [compile_tc_to_nasm(source_code)] with the environment's [DEBUG]
    value ([None] when unset). [debug_kw] is a [debug=...] keyword
    argument as [cli.py] passes it: the function has no such parameter,
    so the call raises [TypeError] before the body runs. The first
    component is what is printed to the diagnostic sink. *)
Definition compile_tc_to_nasm (DEBUG : option string) (debug_kw : option bool)
    (source_code : string) : list diag * outcome string :=
  match debug_kw with
  | Some _ => ([], Raise TypeError)
  | None =>
      let debug := in_strings (lower (match DEBUG with Some v => v | None => "" end))
                     ["true"; "1"; "yes"] in
      match tokenize source_code with
      | Raise e => ([], Raise e)
      | Ok tokens =>
          let log1 := if debug then [DTokens tokens] else [] in
          match parse tokens with
          | Raise e => (log1, Raise e)
          | Ok ast =>
              let log2 := if debug then [DAst ast] else [] in
              (log1 ++ log2, Ok (generate ast))
          end
      end
  end.

(** The compiler as called without [DEBUG] and without keyword. *)
Definition compile (source_code : string) : outcome string :=
  snd (compile_tc_to_nasm None None source_code).

Definition compile_lines (source_code : string) : outcome (list string) :=
  let* tokens := tokenize source_code in
  let* ast := parse tokens in
  Ok (generate_lines ast).

(** ** Definitions used by the proofs *)

(** The token kinds [tokenize] can emit. *)
Definition lexer_kinds : list TokenType :=
  [COMMA; NEWLINE; NUMBER; LABEL; REGISTER; IDENTIFIER; EOF]
  ++ map snd KEYWORD_DICT.

(** Scanning a run of characters that satisfy [p], up to one that does not. *)
Fixpoint all_chars (p : ascii -> bool) (s : string) : bool :=
  match s with
  | EmptyString => true
  | String c s' => p c && all_chars p s'
  end.

Definition starts_without (p : ascii -> bool) (s : string) : Prop :=
  match s with
  | EmptyString => True
  | String c _ => p c = false
  end.


(** The characters [read_identifier] takes. *)
Definition ident_char (c : ascii) : bool := isalnum c || Ascii.eqb c "_"%char.

(** A character that ends a word and is not the [:] of a label. *)
Definition word_stop (c : ascii) : bool := ident_char c || Ascii.eqb c ":"%char.

(** The kinds [KEYWORD_DICT] leaves out. *)
Definition missing_keywords : list TokenType :=
  [LOOP; ENDLOOP; WHILE; ENDWHILE; FOR; ENDFOR; FROM; TO; STEP; REPEAT; UNTIL; PUSH; POP].

Definition comparison_kinds : list TokenType := [EQ; NEQ; GT; LT; GTE; LTE].

(** The kinds of the tokens of a source, when it lexes. *)
Definition lex_kinds (src : string) : option (list TokenType) :=
  match tokenize src with Ok ts => Some (token_types ts) | Raise _ => None end.

(** The [div] sequence as the specification lists it, over physical
    registers: [dest] and [left_] are already mapped. *)
Definition div_protocol_spec (dest left_ : string) (right_ : value) : list string :=
  (if String.eqb dest "rdx" then [] else ["push rdx"]) ++
  (if String.eqb dest "rax" then [] else ["push rax"]) ++
  (if String.eqb left_ "rax" then [] else ["mov rax, " +++ left_]) ++
  ["xor rdx, rdx"] ++
  match right_ with
  | VInt z => ["mov r10, " +++ show_Z z; "div r10"]
  | VStr _ => ["div " +++ right_operand_of right_]
  end ++
  (if String.eqb dest "rax" then [] else ["mov " +++ dest +++ ", rax"]) ++
  (if String.eqb dest "rax" then [] else ["pop rax"]) ++
  (if String.eqb dest "rdx" then [] else ["pop rdx"]).

(** The same sequence with [r10] saved around an immediate divisor. *)
Definition div_protocol_amended (dest left_ : string) (right_ : value) : list string :=
  (if String.eqb dest "rdx" then [] else ["push rdx"]) ++
  (if String.eqb dest "rax" then [] else ["push rax"]) ++
  (if String.eqb left_ "rax" then [] else ["mov rax, " +++ left_]) ++
  ["xor rdx, rdx"] ++
  match right_ with
  | VInt z => ["push r10"; "mov r10, " +++ show_Z z; "div r10"; "pop r10"]
  | VStr _ => ["div " +++ right_operand_of right_]
  end ++
  (if String.eqb dest "rax" then [] else ["mov " +++ dest +++ ", rax"]) ++
  (if String.eqb dest "rax" then [] else ["pop rax"]) ++
  (if String.eqb dest "rdx" then [] else ["pop rdx"]).

(** An instruction line as [emit] writes it. *)
Definition indent (instr : string) : string := "    " +++ instr.

Fixpoint prefixb (p s : string) : bool :=
  match p, s with
  | EmptyString, _ => true
  | String c p', String d s' => Ascii.eqb c d && prefixb p' s'
  | _, _ => false
  end.

Fixpoint infixb (p s : string) : bool :=
  prefixb p s || match s with EmptyString => false | String _ s' => infixb p s' end.

(** The lines only [_initialize_sections] and the helpers write:
    [_start:] and [global _start], a line of [print_int] and a line of
    [read_int]. *)
Definition reserved : list string :=
  ["_start:"; "    global _start"; "    push rbx"; "    movzx r14, byte [r12]"].

(** A line that is none of [reserved], except possibly [_start:] when
    [guard] is off. *)
Definition line_ok (guard : bool) (l : string) : Prop :=
  ~ In l (if guard then reserved else tl reserved).

(** A queued function whose label line [name:] is allowed: with [guard]
    on, no function in it or its body is named [_start]. *)
Fixpoint start_free (s : stmt) : bool :=
  match s with
  | Function name body => negb (String.eqb name "_start") && forallb start_free body
  | Loop _ _ b | While _ b | For _ _ _ _ b | Repeat b _ => forallb start_free b
  | If _ tb eb =>
      forallb start_free tb && match eb with Some b => forallb start_free b | None => true end
  | _ => true
  end.

Definition fn_ok (guard : bool) (f : string * list stmt) : Prop :=
  guard = true -> String.eqb (fst f) "_start" = false /\ forallb start_free (snd f) = true.

(** [st'] is [st] with lines satisfying [line_ok guard] appended to each
    section and functions satisfying [fn_ok guard] appended to the queue;
    the other fields may change. *)
Definition extends (guard : bool) (st st' : gstate) : Prop :=
  (exists d, data_section st' = data_section st ++ d /\ Forall (line_ok guard) d) /\
  (exists d, bss_section st' = bss_section st ++ d /\ Forall (line_ok guard) d) /\
  (exists d, text_section st' = text_section st ++ d /\ Forall (line_ok guard) d) /\
  (exists fs, functions st' = functions st ++ fs /\ Forall (fn_ok guard) fs).

(** The state before [_add_helper_functions]. *)
Definition before_helpers (ast : Program) : gstate :=
  _add_exit_code (_add_io_buffers (_generate_program_body ast (_initialize_sections init_gstate))).

Definition is_leaf (s : stmt) : bool :=
  match s with
  | Function _ _ | Loop _ _ _ | While _ _ | For _ _ _ _ _ | Repeat _ _ | If _ _ _ => false
  | _ => true
  end.

(** [body_drop l l']: [l'] is [l] with some [Label] statements removed, at
    any depth; an else body that had statements keeps at least one. *)
Inductive stmt_drop : stmt -> stmt -> Prop :=
| sd_leaf : forall s, is_leaf s = true -> stmt_drop s s
| sd_function : forall n b b', body_drop b b' -> stmt_drop (Function n b) (Function n b')
| sd_loop : forall v k b b', body_drop b b' -> stmt_drop (Loop v k b) (Loop v k b')
| sd_while : forall c b b', body_drop b b' -> stmt_drop (While c b) (While c b')
| sd_for : forall v a e k b b', body_drop b b' -> stmt_drop (For v a e k b) (For v a e k b')
| sd_repeat : forall b b' c, body_drop b b' -> stmt_drop (Repeat b c) (Repeat b' c)
| sd_if_none : forall c tb tb', body_drop tb tb' -> stmt_drop (If c tb None) (If c tb' None)
| sd_if_some : forall c tb tb' eb eb', body_drop tb tb' -> body_drop eb eb' ->
    (eb' = [] -> eb = []) -> stmt_drop (If c tb (Some eb)) (If c tb' (Some eb'))
with body_drop : list stmt -> list stmt -> Prop :=
| bd_nil : body_drop [] []
| bd_label : forall n l l', body_drop l l' -> body_drop (Label n :: l) l'
| bd_cons : forall s s' l l', stmt_drop s s' -> body_drop l l' -> body_drop (s :: l) (s' :: l').

Scheme stmt_drop_ind' := Induction for stmt_drop Sort Prop
with body_drop_ind' := Induction for body_drop Sort Prop.
Combined Scheme drop_mutind from stmt_drop_ind', body_drop_ind'.

Definition fn_drop (f f' : string * list stmt) : Prop :=
  fst f = fst f' /\ body_drop (snd f) (snd f').

(** Two generator states that differ only in their function queues, the
    second queue being the first with labels removed. *)
Definition sim (st st' : gstate) : Prop :=
  exists fs, st' = set_functions fs st /\ Forall2 fn_drop (functions st) fs.

Definition is_print (s : stmt) : bool := match s with Print _ => true | _ => false end.
Definition is_input (s : stmt) : bool := match s with Input _ => true | _ => false end.

(** [p] holds at a node of [s], function bodies included. *)
Fixpoint contains (p : stmt -> bool) (s : stmt) : bool :=
  p s ||
  match s with
  | Function _ b | Loop _ _ b | While _ b | For _ _ _ _ b | Repeat b _ => existsb (contains p) b
  | If _ tb eb =>
      existsb (contains p) tb || match eb with Some b => existsb (contains p) b | None => false end
  | _ => false
  end.

(** [p] holds at a node of [s] that [generate_statement] visits: function
    bodies excluded. *)
Fixpoint shallow (p : stmt -> bool) (s : stmt) : bool :=
  p s ||
  match s with
  | Loop _ _ b | While _ b | For _ _ _ _ b | Repeat b _ => existsb (shallow p) b
  | If _ tb eb =>
      existsb (shallow p) tb || match eb with Some b => existsb (shallow p) b | None => false end
  | _ => false
  end.

(** The functions [generate_statement] appends to the queue, in order. *)
Fixpoint queued (s : stmt) : list (string * list stmt) :=
  match s with
  | Function n b => [(n, b)]
  | Loop _ _ b | While _ b | For _ _ _ _ b | Repeat b _ => flat_map queued b
  | If _ tb eb => flat_map queued tb ++ match eb with Some b => flat_map queued b | None => [] end
  | _ => []
  end.

Definition eff (bp br : bool) (q : list (string * list stmt)) (st st' : gstate) : Prop :=
  needs_print_int st' = needs_print_int st || bp /\
  needs_read_int st' = needs_read_int st || br /\
  functions st' = functions st ++ q.

Definition deepf (p : stmt -> bool) (f : string * list stmt) : bool := existsb (contains p) (snd f).

(** Each queued function counts for itself and its nested functions. *)
Fixpoint pot (fs : list (string * list stmt)) : nat :=
  match fs with [] => 0 | f :: fs' => S (count_body (snd f)) + pot fs' end.

(** ** Definitions of the further properties *)

(** *** Positions and lines of the lexer *)

(** Number of newline characters of a string. *)
Fixpoint count_nl (s : string) : nat :=
  match s with
  | EmptyString => 0
  | String c s' => (if Ascii.eqb c "010"%char then 1 else 0) + count_nl s'
  end.

(** Number of [NEWLINE] tokens of a token list. *)
Definition nl_tokens (ts : list token) : nat :=
  count_occ TokenType_eq_dec (token_types ts) NEWLINE.

Definition moved (st st' : lexst) (consumed : string) : Prop :=
  rest st = consumed +++ rest st' /\ line st' = line st + count_nl consumed.

(** [sorted_from lo l]: [l] is nondecreasing and starts at [lo] or above. *)
Fixpoint sorted_from (lo : nat) (l : list nat) : bool :=
  match l with
  | [] => true
  | x :: l' => Nat.leb lo x && sorted_from x l'
  end.

Definition rn_post (sign : string) (st : lexst) (r : outcome (Z * lexst)) : Prop :=
  match r with
  | Ok (_, st') => exists c, moved st st' c /\ count_nl c = 0 /\ (sign = "" -> c <> "")
  | Raise e => e = ValueError \/ e = TypeError
  end.

Definition step_post (st : lexst) (r : outcome (option (list token * lexst))) : Prop :=
  match r with
  | Ok (Some (ts, st')) =>
      exists c, moved st st' c /\ c <> "" /\ nl_tokens ts = count_nl c /\
        length ts <= 1 /\
        Forall (fun t => line st <= tline t <= line st' /\ ttype t <> EOF) ts
  | Ok None => count_nl (rest st) = 0
  | Raise e => e = ValueError \/ e = TypeError
  end.

Definition loop_post (st : lexst) (acc : list token) (r : outcome (list token * lexst)) : Prop :=
  match r with
  | Ok (toks, stf) =>
      exists ts, toks = acc ++ ts /\ line stf = line st + count_nl (rest st) /\
        nl_tokens ts = count_nl (rest st) /\
        sorted_from (line st) (map tline ts) = true /\
        Forall (fun t => line st <= tline t <= line stf /\ ttype t <> EOF) ts
  | Raise e => e = ValueError \/ e = TypeError
  end.

(** Sample sources. *)
Definition lex_src : string := "LOAD R1, 5" ++ newline ++ newline ++ "loop: INC R1 ; count".

(** *** Parser errors *)

Definition suffix (ts' ts : list token) : Prop := exists p, ts = p ++ ts'.

Definition err_in (lt : token) (ts : list token) (e : py_error) : Prop :=
  exists t, In t (ts ++ [lt]) /\ e = SyntaxError (tline t).

Definition within {A} (lt : token) (ts : list token) (r : outcome (A * list token)) : Prop :=
  match r with Ok (_, ts') => suffix ts' ts | Raise e => err_in lt ts e end.

Definition within1 {A} (lt : token) (ts : list token) (r : outcome (A * list token)) : Prop :=
  match r with
  | Ok (_, ts') => suffix ts' ts /\ length ts' < length ts
  | Raise e => err_in lt ts e
  end.

(** *** What the parser builds from lexed source *)

Definition tok_ok (t : token) : Prop :=
  In (ttype t) lexer_kinds /\
  (In (ttype t) (map snd KEYWORD_DICT) ->
   dict_get (upper (as_str (tvalue t))) KEYWORD_DICT = Some (ttype t)).

(** The statement kinds the parser can build from lexed source. *)
Fixpoint from_source (s : stmt) : bool :=
  match s with
  | VarDecl _ _ | Load _ _ | Set_ _ _ | Move _ _ | Label _ | Call _ | Return _
  | Print _ | Input _ | Halt | Nop => true
  | BinaryOp op _ _ _ => in_strings op ["ADD"; "SUB"; "MUL"; "DIV"; "AND"; "OR"; "XOR"; "NOT"]
  | UnaryOp op _ => in_strings op ["INC"; "DEC"]
  | ShiftOp op _ _ _ => in_strings op ["SHL"; "SHR"]
  | Function _ body => forallb from_source body
  | Compare _ _ | Jump _ _ | Loop _ _ _ | While _ _ | For _ _ _ _ _ | Repeat _ _
  | If _ _ _ | Push _ | Pop _ => false
  end.

Definition fn_src : string :=
  "FUNC f" ++ newline ++ "  add R1, R1, 2" ++ newline ++ "  RET" ++ newline ++ "ENDFUNC" ++ newline ++
  "CALL f".

(** *** Generator layout and lowering *)

(** The lines [_add_exit_code] appends. *)
Definition exit_lines : list string :=
  ["    mov rax, " +++ show_Z SYS_EXIT; "    mov rdi, 0"; "    syscall"].

(** *** Control-flow labels *)

(** The label prefixes of the control statements of [generate_statement]. *)
Definition ctl_prefixes : list string :=
  ["else_"; "endif_"; "loop_start_"; "loop_end_"; "while_start_"; "while_end_";
   "for_start_"; "for_end_"; "repeat_start_"].

(** The label line [prefix<k>:]. *)
Definition lab (p : string) (k : nat) : string := (p +++ show_nat k) +++ ":".

(** A text line that is not indented: a label line. *)
Definition is_label_line (l : string) : bool := negb (prefixb " " l).

Definition label_lines (ls : list string) : list string := filter is_label_line ls.

(** A control-flow label line whose number lies in [lo, hi). *)
Definition ctl_label (lo hi : nat) (x : string) : Prop :=
  exists p k, In p ctl_prefixes /\ x = lab p k /\ lo <= k < hi.

(** [st'] extends the text of [st]; the label lines added are distinct
    control-flow labels numbered from the counter range [st] to [st']. *)
Definition fresh_labels (st st' : gstate) : Prop :=
  label_counter st <= label_counter st' /\
  exists d, text_section st' = text_section st ++ d /\ NoDup (label_lines d) /\
            Forall (ctl_label (label_counter st) (label_counter st')) (label_lines d).

(** [st'] extends the text of [st] by lines whose label lines are [ls];
    the label counter is unchanged. *)
Definition adds (ls : list string) (st st' : gstate) : Prop :=
  label_counter st' = label_counter st /\
  exists d, text_section st' = text_section st ++ d /\ label_lines d = ls.

(** A control-flow label line numbered [n]. *)
Definition own (n : nat) (x : string) : Prop := exists p, In p ctl_prefixes /\ x = lab p n.

Example lex_demo :
  option_map token_types
    (match tokenize "LOAD R1, 0x1A" with Ok ts => Some ts | Raise _ => None end)
  = Some [LOAD; REGISTER; COMMA; NUMBER; EOF].
Proof. vm_compute. reflexivity. Qed.

(** * Lexer properties *)


Ltac single_kind :=
  apply Forall_cons; [simpl; tauto | apply Forall_nil].

Lemma dict_get_in : forall k d ty,
  dict_get k d = Some ty -> In ty (map snd d).
Proof.
  intros k d ty. induction d as [|[k' v] d IH]; simpl; [discriminate|].
  destruct (String.eqb k k'); [intros [= ->]; left; reflexivity|].
  intros H. right. apply IH; exact H.
Qed.

Lemma tokenize_step_kinds : forall st r,
  tokenize_step st = Ok (Some r) ->
  Forall (fun t => In (ttype t) lexer_kinds) (fst r).
Proof.
  intros st [ts st'] H. unfold tokenize_step in H.
  destruct (current_char (skip_whitespace st)) as [c|] eqn:Hc; [|discriminate].
  repeat match type of H with
  | context [if ?b then _ else _] => destruct b
  end;
  try (injection H as <- <-; simpl; first [apply Forall_nil | single_kind]).
  all: try (destruct (read_number _) as [[num st2]|e]; simpl in H;
            [injection H as <- <-; single_kind | discriminate]).
  all: destruct (read_identifier _) as [ident st2]; simpl in H;
    repeat match type of H with
    | context [if ?b then _ else _] => destruct b
    end;
    try (injection H as <- <-; single_kind).
  all: destruct (dict_get (upper ident) KEYWORD_DICT) as [ty|] eqn:Hd;
      injection H as <- <-; [|single_kind].
  all: apply Forall_cons; [|apply Forall_nil]; simpl.
  all: do 7 right; exact (dict_get_in _ _ _ Hd).
Qed.

Lemma tokenize_loop_kinds : forall fuel st acc toks st',
  Forall (fun t => In (ttype t) lexer_kinds) acc ->
  tokenize_loop fuel st acc = Ok (toks, st') ->
  Forall (fun t => In (ttype t) lexer_kinds) toks.
Proof.
  induction fuel as [|fuel IH]; intros st acc toks st' Hacc H; simpl in H;
    destruct (rest st); try (injection H as <- _; exact Hacc); try discriminate.
  destruct (tokenize_step st) as [[[ts st2]|]|e] eqn:Hs; simpl in H; try discriminate.
  - eapply IH; [|exact H]. apply Forall_app; split; [exact Hacc|].
    apply (tokenize_step_kinds _ _ Hs).
  - injection H as <- _. exact Hacc.
Qed.

Lemma tokenize_kinds : forall src toks,
  tokenize src = Ok toks -> Forall (fun t => In (ttype t) lexer_kinds) toks.
Proof.
  intros src toks H. unfold tokenize in H.
  destruct (tokenize_loop _ _ _) as [[ts st]|e] eqn:Hl; simpl in H; [|discriminate].
  injection H as <-. apply Forall_app; split.
  - eapply tokenize_loop_kinds; [constructor|exact Hl].
  - single_kind.
Qed.



Lemma scan_while_run : forall p ds tl ln co,
  all_chars p ds = true -> starts_without p tl ->
  exists st', scan_while p (ds +++ tl) ln co = (ds, st') /\ rest st' = tl.
Proof.
  intros p ds. induction ds as [|c ds IH]; intros tl ln co Hds Htl; simpl in *.
  - destruct tl as [|c tl']; simpl.
    + exists (LexSt "" ln co); split; reflexivity.
    + simpl in Htl. rewrite Htl. eexists; split; reflexivity.
  - apply andb_prop in Hds as [Hc Hds]. rewrite Hc.
    destruct (step_pos c ln co) as [ln' co'].
    destruct (IH tl ln' co' Hds Htl) as [st' [E R]]. rewrite E.
    exists st'; split; [reflexivity|exact R].
Qed.




Ltac all_ascii c :=
  destruct c as [[] [] [] [] [] [] [] []].













(** [tokenize_step] at a letter, unfolded to the identifier branch. *)
Lemma tokenize_step_alpha : forall c s ln co,
  isalpha c = true ->
  tokenize_step (LexSt (String c s) ln co) =
  let (ident, st') := read_identifier (LexSt (String c s) ln co) in
  if match current_char st' with Some ":"%char => true | _ => false end then
    Ok (Some ([mk LABEL (TVStr ident) st'], advance st'))
  else if in_strings ident REGISTER_NAMES then
    Ok (Some ([mk REGISTER (TVStr ident) st'], st'))
  else match dict_get (upper ident) KEYWORD_DICT with
       | Some ty => Ok (Some ([mk ty (TVStr ident) st'], st'))
       | None => Ok (Some ([mk IDENTIFIER (TVStr ident) st'], st'))
       end.
Proof. intros c s ln co H; all_ascii c; try discriminate; reflexivity. Qed.

Lemma not_colon_head : forall tl,
  starts_without word_stop tl ->
  match (match tl with EmptyString => None | String c _ => Some c end) with
  | Some ":"%char => true | _ => false end = false.
Proof.
  intros [|c tl] H; [reflexivity|]. simpl in H. unfold word_stop in H.
  apply orb_false_iff in H as [_ H]. all_ascii c; try discriminate; reflexivity.
Qed.

Lemma keyword_not_register : forall w ty,
  dict_get (upper w) KEYWORD_DICT = Some ty -> in_strings w REGISTER_NAMES = false.
Proof.
  intros w ty H. destruct (in_strings w REGISTER_NAMES) eqn:E; [|reflexivity].
  unfold in_strings in E. apply existsb_exists in E as [r [Hr Heq]].
  apply String.eqb_eq in Heq; subst r.
  simpl in Hr; repeat destruct Hr as [<-|Hr]; try contradiction; discriminate H.
Qed.

(** At the start of a word whose upper-cased spelling is a key of
    [KEYWORD_DICT], one iteration emits that keyword's token. *)
Lemma tokenize_step_keyword : forall c w' tl ln co ty,
  isalpha c = true ->
  all_chars ident_char (String c w') = true ->
  starts_without word_stop tl ->
  dict_get (upper (String c w')) KEYWORD_DICT = Some ty ->
  exists st', tokenize_step (LexSt (String c w' +++ tl) ln co)
              = Ok (Some ([mk ty (TVStr (String c w')) st'], st'))
    /\ rest st' = tl.
Proof.
  intros c w' tl ln co ty Ha Hw Htl Hd.
  change (String c w' +++ tl) with (String c (w' +++ tl)).
  rewrite (tokenize_step_alpha _ _ _ _ Ha).
  assert (Htl' : starts_without ident_char tl).
  { destruct tl as [|d tl]; [exact Logic.I|]. cbn in Htl |- *.
    unfold word_stop in Htl. apply orb_false_iff in Htl as [H _]; exact H. }
  destruct (scan_while_run ident_char (String c w') tl ln co Hw Htl') as [st' [E R]].
  unfold read_identifier, scan. simpl rest; simpl line; simpl column.
  change (String c (w' +++ tl)) with (String c w' +++ tl).
  fold ident_char. rewrite E.
  exists st'; split; [|exact R].
  unfold current_char. rewrite R, (not_colon_head _ Htl).
  rewrite (keyword_not_register _ _ Hd), Hd. reflexivity.
Qed.



Lemma lexer_kinds_disjoint : forall k l,
  (l = missing_keywords \/ l = comparison_kinds) ->
  In k lexer_kinds -> ~ In k l.
Proof.
  intros k l Hl H1 H2. destruct Hl as [->| ->];
  simpl in H1, H2; repeat destruct H1 as [<-|H1]; try contradiction;
  repeat destruct H2 as [H2|H2]; try discriminate; contradiction.
Qed.




(** * Claims *)

(** C1 (counterexample): the word [LOOP] lexes as an [IDENTIFIER], not as
    a [LOOP] keyword token. *)
Lemma C1_LOOP_is_identifier : lex_kinds "LOOP" = Some [IDENTIFIER; EOF].
Proof. vm_compute. reflexivity. Qed.

(** C1 (amended): a word whose upper-cased spelling is a key of
    [KEYWORD_DICT] is emitted as that keyword's token, with the original
    spelling as value, in any letter case; the keys left out of the
    dictionary (LOOP, ENDLOOP, WHILE, ENDWHILE, FOR, ENDFOR, FROM, TO, STEP,
    REPEAT, UNTIL, PUSH, POP) are never emitted, and those words lex as
    identifiers. *)
Theorem C1_keyword_tokens :
  (forall c w' tl ln co ty,
     isalpha c = true ->
     all_chars ident_char (String c w') = true ->
     starts_without word_stop tl ->
     dict_get (upper (String c w')) KEYWORD_DICT = Some ty ->
     exists st', tokenize_step (LexSt (String c w' +++ tl) ln co)
                 = Ok (Some ([mk ty (TVStr (String c w')) st'], st'))
       /\ rest st' = tl) /\
  (forall src toks, tokenize src = Ok toks ->
     Forall (fun t => ~ In (ttype t) missing_keywords) toks) /\
  Forall (fun w => lex_kinds w = Some [IDENTIFIER; EOF])
    ["LOOP"; "ENDLOOP"; "WHILE"; "ENDWHILE"; "FOR"; "ENDFOR"; "FROM"; "TO";
     "STEP"; "REPEAT"; "UNTIL"; "PUSH"; "POP"; "loop"; "Push"].
Proof.
  split; [exact tokenize_step_keyword|split].
  - intros src toks H. eapply Forall_impl; [|exact (tokenize_kinds _ _ H)].
    intros t Ht. apply (lexer_kinds_disjoint _ _ (or_introl eq_refl) Ht).
  - repeat apply Forall_cons; try apply Forall_nil; vm_compute; reflexivity.
Qed.

(** C2 (counterexample): [R1 == 10] lexes as a register and a number; no
    [EQ] token is emitted for [==]. *)
Lemma C2_no_EQ_token : lex_kinds "R1 == 10" = Some [REGISTER; NUMBER; EOF].
Proof. vm_compute. reflexivity. Qed.

(** C2 (code bug): the lexer emits no comparison token (EQ, NEQ, GT, LT,
    GTE, LTE) for any source, because [_tokenize_operators] is an empty
    stub; the characters of [==], [!=], [<], [>], [<=], [>=] are skipped,
    so a condition written with them, which [parse_condition] requires,
    does not parse. *)
Theorem C2_comparisons_skipped :
  (forall src toks, tokenize src = Ok toks ->
     Forall (fun t => ~ In (ttype t) comparison_kinds) toks) /\
  Forall (fun op => lex_kinds ("R1 " +++ op +++ " R2") = Some [REGISTER; REGISTER; EOF])
    ["=="; "!="; "<"; ">"; "<="; ">="] /\
  compile ("IF R1 == 10" +++ newline +++ "NOP" +++ newline +++ "ENDIF")
    = Raise (SyntaxError 1).
Proof.
  split; [|split].
  - intros src toks H. eapply Forall_impl; [|exact (tokenize_kinds _ _ H)].
    intros t Ht. apply (lexer_kinds_disjoint _ _ (or_intror eq_refl) Ht).
  - repeat apply Forall_cons; try apply Forall_nil; vm_compute; reflexivity.
  - vm_compute. reflexivity.
Qed.

(** C4: [tokenize] raises on malformed numbers: [-0x] and [-0b] with no
    digits raise [ValueError] (from [int("-", base)]), and a [0] that ends
    the input raises [TypeError] (from [None in "xX"]). *)
Theorem C4_tokenize_raises :
  tokenize "-0x" = Raise ValueError /\
  tokenize "-0b" = Raise ValueError /\
  tokenize "0" = Raise TypeError /\
  tokenize "LOAD R1, 0" = Raise TypeError.
Proof. vm_compute. repeat split. Qed.





(** C6 (counterexample): [DIV R2, R1, 3] saves and restores [r10] around
    the immediate divisor, which the listed protocol does not do. *)
Lemma C6_div_immediate_saves_r10 :
  text_section (generate_binary_op "DIV" "R2" "R1" (VInt 3) init_gstate)
    = map indent ["push rdx"; "push rax"; "xor rdx, rdx"; "push r10"; "mov r10, 3";
                  "div r10"; "pop r10"; "mov rbx, rax"; "pop rax"; "pop rdx"] /\
  text_section (generate_binary_op "DIV" "R2" "R1" (VInt 3) init_gstate)
    <> map indent (div_protocol_spec "rbx" "rax" (VInt 3)).
Proof. split; vm_compute; [reflexivity | discriminate]. Qed.

(** C6 (amended): for every DIV statement the text section grows by
    exactly the protocol's steps over the mapped registers (push rdx unless
    the destination is rdx; push rax unless it is rax; mov rax, left unless
    left is rax; xor rdx, rdx; for an immediate divisor push r10, mov r10,
    div r10, pop r10, else div of the operand; mov the quotient into the
    destination unless it is rax; pop rax and pop rdx when saved), and the
    other sections are unchanged. *)
Theorem C6_div_protocol : forall st dest left_ right_,
  let st' := generate_binary_op "DIV" dest left_ right_ st in
  text_section st'
    = text_section st ++ map indent
        (div_protocol_amended (get_register dest) (get_register left_) right_) /\
  data_section st' = data_section st /\ bss_section st' = bss_section st /\
  functions st' = functions st.
Proof.
  intros st dest left_ right_. unfold generate_binary_op, div_protocol_amended.
  change (String.eqb "DIV" "DIV") with true. cbv beta iota zeta.
  destruct (String.eqb (get_register dest) "rdx"), (String.eqb (get_register dest) "rax"),
    (String.eqb (get_register left_) "rax"), right_;
  cbn [negb when emit set_text text_section data_section bss_section functions
       map app indent];
  repeat rewrite <- app_assoc; repeat split.
Qed.

Lemma TokenType_beq_false : forall x y, x <> y -> TokenType_beq x y = false.
Proof.
  intros x y H. destruct (TokenType_beq x y) eqn:E; [|reflexivity].
  apply internal_TokenType_dec_bl in E. contradiction.
Qed.

(** C3 (counterexample): the line [NOT R1] is a syntax error on line 1. *)
Lemma C3_NOT_one_operand_rejected : compile "NOT R1" = Raise (SyntaxError 1).
Proof. vm_compute. reflexivity. Qed.

(** C3 (amended): NOT takes two register operands, [NOT dest, src], and
    parses to [BinaryOp "NOT" dest src 0]; after [NOT reg] any token other
    than a comma is a syntax error at that token's line. *)
Theorem C3_not_two_operands :
  (forall last fuel tn td tc tsrc rest,
     ttype tn = NOT -> ttype td = REGISTER -> ttype tc = COMMA -> ttype tsrc = REGISTER ->
     parse_statement last (S fuel) (tn :: td :: tc :: tsrc :: rest)
       = Ok (Some (BinaryOp "NOT" (as_str (tvalue td)) (as_str (tvalue tsrc)) (VInt 0)), rest)) /\
  (forall last fuel tn td t rest,
     ttype tn = NOT -> ttype td = REGISTER -> ttype t <> COMMA ->
     parse_statement last (S fuel) (tn :: td :: t :: rest) = Raise (SyntaxError (tline t))).
Proof.
  split.
  - intros last fuel [ty1 v1 l1 c1] [ty2 v2 l2 c2] [ty3 v3 l3 c3] [ty4 v4 l4 c4] rest;
      simpl; intros -> -> -> ->. reflexivity.
  - intros last fuel [ty1 v1 l1 c1] [ty2 v2 l2 c2] t rest; simpl; intros -> -> Ht.
    cbn. unfold parse_not, expect, take_str, expect, current_token, padvance. cbn.
    rewrite (TokenType_beq_false _ _ Ht). reflexivity.
Qed.

(** C9 (code bug): the string [compile_tc_to_nasm] returns (or the
    exception it raises) depends on the source text only: it is the same
    for every value of [DEBUG], which only adds diagnostics, and it is the
    composition of [tokenize], [parse] and [generate]. The debug flag,
    however, is not a parameter: a [debug=...] keyword, as [cli.py]
    passes one, makes the call raise [TypeError] whatever the source. *)
Theorem C9_output_independent_of_debug : forall DEBUG1 DEBUG2 source_code,
  snd (compile_tc_to_nasm DEBUG1 None source_code)
    = snd (compile_tc_to_nasm DEBUG2 None source_code) /\
  snd (compile_tc_to_nasm DEBUG1 None source_code)
    = (let* tokens := tokenize source_code in
       let* ast := parse tokens in
       Ok (generate ast)) /\
  (forall b, snd (compile_tc_to_nasm DEBUG1 (Some b) source_code) = Raise TypeError).
Proof.
  intros DEBUG1 DEBUG2 src. unfold compile_tc_to_nasm.
  repeat split.
  all: destruct (tokenize src) as [toks|e]; simpl; [|reflexivity].
  all: destruct (parse toks) as [ast|e]; simpl; reflexivity.
Qed.

(** ** The lines the generator can emit *)



Lemma prefixb_app : forall p b, prefixb p (p +++ b) = true.
Proof.
  induction p as [|c p IH]; intros b; simpl; [reflexivity|].
  rewrite Ascii.eqb_refl. apply IH.
Qed.

Lemma not_infix : forall p s a b, infixb p s = false -> a +++ p +++ b <> s.
Proof.
  intros p s a. revert s. induction a as [|c a IH]; intros s b H E; simpl in E; subst s.
  - destruct p as [|c p]; [destruct b; simpl in H; discriminate H|].
    simpl in H. rewrite Ascii.eqb_refl, prefixb_app in H. discriminate H.
  - simpl in H. apply orb_false_iff in H as [_ H]. exact (IH _ b H eq_refl).
Qed.

Lemma append_empty : forall s, s +++ "" = s.
Proof. induction s as [|c s IH]; simpl; [reflexivity|rewrite IH; reflexivity]. Qed.

Lemma append_colon_inj : forall a b, a +++ ":" = b +++ ":" -> a = b.
Proof.
  induction a as [|c a IH]; intros [|d b] E; simpl in E; try reflexivity.
  - injection E as _ E. destruct b; simpl in E; discriminate E.
  - injection E as _ E. destruct a; simpl in E; discriminate E.
  - injection E as -> E. rewrite (IH b E). reflexivity.
Qed.






Lemma extends_refl : forall g st, extends g st st.
Proof. intros g st; repeat split; exists []; rewrite app_nil_r; auto. Qed.

Lemma extends_trans : forall g st1 st2 st3,
  extends g st1 st2 -> extends g st2 st3 -> extends g st1 st3.
Proof.
  intros g st1 st2 st3 [[d1 [E1 F1]] [[b1 [G1 H1]] [[t1 [T1 U1]] [f1 [Q1 R1]]]]]
    [[d2 [E2 F2]] [[b2 [G2 H2]] [[t2 [T2 U2]] [f2 [Q2 R2]]]]].
  repeat split.
  - exists (d1 ++ d2); rewrite E2, E1, app_assoc; split; [reflexivity|apply Forall_app; auto].
  - exists (b1 ++ b2); rewrite G2, G1, app_assoc; split; [reflexivity|apply Forall_app; auto].
  - exists (t1 ++ t2); rewrite T2, T1, app_assoc; split; [reflexivity|apply Forall_app; auto].
  - exists (f1 ++ f2); rewrite Q2, Q1, app_assoc; split; [reflexivity|apply Forall_app; auto].
Qed.

Lemma not_reserved_ok : forall g l, ~ In l reserved -> line_ok g l.
Proof.
  intros [|] l H; unfold line_ok; [exact H|]. intros H'; apply H; right; exact H'.
Qed.

Lemma extends_text : forall g st l, line_ok g l ->
  extends g st (set_text (text_section st ++ [l]) st).
Proof.
  intros g st l H. repeat split; simpl.
  1,2,4: exists []; rewrite app_nil_r; auto.
  exists [l]; auto.
Qed.

Lemma extends_data : forall g st l, line_ok g l ->
  extends g st (set_data (data_section st ++ [l]) st).
Proof.
  intros g st l H. repeat split; simpl.
  2,3,4: exists []; rewrite app_nil_r; auto.
  exists [l]; auto.
Qed.

Lemma extends_bss : forall g st l, line_ok g l ->
  extends g st (set_bss (bss_section st ++ [l]) st).
Proof.
  intros g st l H. repeat split; simpl.
  1,3,4: exists []; rewrite app_nil_r; auto.
  exists [l]; auto.
Qed.

Lemma extends_counter : forall g st n, extends g st (set_counter n st).
Proof. intros; repeat split; exists []; simpl; rewrite app_nil_r; auto. Qed.

Lemma extends_variables : forall g st v, extends g st (set_variables v st).
Proof. intros; repeat split; exists []; simpl; rewrite app_nil_r; auto. Qed.

Lemma extends_print_flag : forall g st b, extends g st (set_needs_print b st).
Proof. intros; repeat split; exists []; simpl; rewrite app_nil_r; auto. Qed.

Lemma extends_read_flag : forall g st b, extends g st (set_needs_read b st).
Proof. intros; repeat split; exists []; simpl; rewrite app_nil_r; auto. Qed.

Lemma extends_queue : forall g st f, fn_ok g f ->
  extends g st (set_functions (functions st ++ [f]) st).
Proof.
  intros g st f H. repeat split; simpl.
  1,2,3: exists []; rewrite app_nil_r; auto.
  exists [f]; auto.
Qed.

Ltac not_reserved :=
  apply not_reserved_ok; unfold reserved; simpl In;
  let H := fresh "Hin" in intros H;
  repeat (destruct H as [H|H]; [cbn [String.append] in H; discriminate H|]); exact H.

Lemma spaces_inj : forall x y, "    " +++ x = "    " +++ y -> x = y.
Proof. intros x y E. simpl in E. injection E as E. exact E. Qed.

(** A data or bss line [    a<p>b] whose fixed part [p] occurs in no
    reserved line. *)
Lemma infix_line_ok : forall g a p b,
  infixb p "global _start" = false -> infixb p "push rbx" = false ->
  infixb p "movzx r14, byte [r12]" = false ->
  line_ok g ("    " +++ (a +++ p +++ b)).
Proof.
  intros g a p b H1 H2 H3. apply not_reserved_ok. unfold reserved; simpl In.
  intros [H|[H|[H|[H|[]]]]].
  - discriminate H.
  - apply (not_infix p "global _start" a b H1). apply spaces_inj. exact (eq_sym H).
  - apply (not_infix p "push rbx" a b H2). apply spaces_inj. exact (eq_sym H).
  - apply (not_infix p "movzx r14, byte [r12]" a b H3). apply spaces_inj. exact (eq_sym H).
Qed.

Lemma name_label_ok : forall g name,
  (g = true -> String.eqb name "_start" = false) -> line_ok g (name +++ ":").
Proof.
  intros g name Hg. unfold line_ok.
  assert (Hfix : forall t, In t (tl reserved) -> name +++ ":" <> t).
  { intros t Ht E. rewrite <- (append_empty ":") in E.
    simpl in Ht; destruct Ht as [<-|[<-|[<-|[]]]];
      refine (not_infix ":" _ name "" _ E); reflexivity. }
  destruct g; simpl.
  - intros [E|H]; [|exact (Hfix _ H eq_refl)].
    specialize (Hg eq_refl). apply String.eqb_neq in Hg. apply Hg.
    apply append_colon_inj. exact (eq_sym E).
  - intros H; exact (Hfix _ H eq_refl).
Qed.


Lemma infix_line_ok' : forall g a p,
  infixb p "global _start" = false -> infixb p "push rbx" = false ->
  infixb p "movzx r14, byte [r12]" = false ->
  line_ok g ("    " +++ (a +++ p)).
Proof.
  intros g a p H1 H2 H3. rewrite <- (append_empty p). apply infix_line_ok; assumption.
Qed.

Ltac ext_chain :=
  match goal with
  | |- extends ?g ?st ?st => apply extends_refl
  | |- extends ?g ?st (emit ?i ?x) =>
      apply (extends_trans g st x); [ext_chain | unfold emit; apply extends_text; not_reserved]
  | |- extends ?g ?st (append_text ?i ?x) =>
      apply (extends_trans g st x); [ext_chain | unfold append_text; apply extends_text; not_reserved]
  | |- extends ?g ?st (emit_label ?l ?x) =>
      apply (extends_trans g st x); [ext_chain | unfold emit_label; apply extends_text;
        first [not_reserved | apply name_label_ok; assumption]]
  | |- extends ?g ?st (emit_data ?l ?x) =>
      apply (extends_trans g st x); [ext_chain | unfold emit_data; apply extends_data;
        first [not_reserved | apply infix_line_ok; reflexivity
              | apply infix_line_ok'; reflexivity]]
  | |- extends ?g ?st (emit_bss ?l ?x) =>
      apply (extends_trans g st x); [ext_chain | unfold emit_bss; apply extends_bss;
        first [not_reserved | apply infix_line_ok'; reflexivity
              | apply infix_line_ok; reflexivity]]
  | |- extends ?g ?st (set_counter ?n ?x) =>
      apply (extends_trans g st x); [ext_chain | apply extends_counter]
  | |- extends ?g ?st (set_variables ?n ?x) =>
      apply (extends_trans g st x); [ext_chain | apply extends_variables]
  | |- extends ?g ?st (set_needs_print ?n ?x) =>
      apply (extends_trans g st x); [ext_chain | apply extends_print_flag]
  | |- extends ?g ?st (set_needs_read ?n ?x) =>
      apply (extends_trans g st x); [ext_chain | apply extends_read_flag]
  | |- extends ?g ?st (when ?b ?f ?x) =>
      destruct b; unfold when at 1; ext_chain
  | |- extends ?g ?st (if ?b then _ else _) => destruct b; ext_chain
  | |- extends ?g ?st (generate_condition ?c ?l ?x) =>
      apply (extends_trans g st x); [ext_chain | auto]
  | |- extends ?g ?st (generate_body ?l ?x) =>
      apply (extends_trans g st x); [ext_chain | auto]
  end.

Ltac split_ifs :=
  repeat match goal with
  | |- context [if ?b then _ else _] => destruct b
  end.

Lemma extends_load_operand : forall g r v st, extends g st (load_operand r v st).
Proof. intros g r [s|z] st; unfold load_operand; split_ifs; ext_chain. Qed.

Lemma extends_condition : forall g c l st, extends g st (generate_condition c l st).
Proof.
  intros g c l st. unfold generate_condition.
  apply (extends_trans g st (emit "cmp r10, r11"
           (load_operand "r11" (cond_right c) (load_operand "r10" (cond_left c) st)))).
  - apply (extends_trans g st (load_operand "r10" (cond_left c) st));
      [apply extends_load_operand|].
    apply (extends_trans _ _ (load_operand "r11" (cond_right c) (load_operand "r10" (cond_left c) st)));
      [apply extends_load_operand|].
    ext_chain.
  - split_ifs; ext_chain.
Qed.

Lemma extends_helpers : forall g st,
  (forall op operand, extends g st (generate_unary_op op operand st)) /\
  (forall op dest src count, extends g st (generate_shift op dest src count st)) /\
  (forall op dest l r, extends g st (generate_binary_op op dest l r st)) /\
  (forall name val, extends g st (generate_var_decl name val st)) /\
  (forall dest src, extends g st (generate_load dest src st)) /\
  (forall dest src, extends g st (generate_set dest src st)) /\
  (forall dest src, extends g st (generate_move dest src st)) /\
  (forall v, extends g st (generate_print v st)) /\
  (forall dest, extends g st (generate_input dest st)) /\
  extends g st (generate_halt st) /\
  (forall name, extends g st (generate_call name st)) /\
  (forall val, extends g st (generate_return val st)).
Proof.
  intros g st.
  refine (conj _ (conj _ (conj _ (conj _ (conj _ (conj _ (conj _ (conj _ (conj _
    (conj _ (conj _ _))))))))))); intros.
  - unfold generate_unary_op; split_ifs; ext_chain.
  - unfold generate_shift; cbv zeta; split_ifs; ext_chain.
  - unfold generate_binary_op; cbv zeta; destruct r; split_ifs; ext_chain.
  - unfold generate_var_decl; destruct val; split_ifs; ext_chain.
  - unfold generate_load; destruct src; split_ifs; ext_chain.
  - unfold generate_set; destruct src; ext_chain.
  - unfold generate_move; destruct src; split_ifs; ext_chain.
  - unfold generate_print, load_value_to_r15; destruct v; split_ifs; ext_chain.
  - unfold generate_input; split_ifs; ext_chain.
  - unfold generate_halt; ext_chain.
  - unfold generate_call; ext_chain.
  - unfold generate_return; destruct val; split_ifs; ext_chain.
Qed.

Lemma extends_body_all : forall g l,
  list_all@{Prop ; Set Set} stmt (fun s => forall st, (g = true -> start_free s = true) ->
                                extends g st (generate_statement s st)) l ->
  forall st, (g = true -> forallb start_free l = true) -> extends g st (generate_body l st).
Proof.
  intros g l X. induction X as [|s IHs l X IH]; intros st H; simpl.
  - apply extends_refl.
  - apply (extends_trans g st (generate_statement s st)).
    + apply IHs. intros Hg. specialize (H Hg). apply andb_prop in H as [H _]. exact H.
    + apply IH. intros Hg. specialize (H Hg). apply andb_prop in H as [_ H]. exact H.
Qed.

Lemma extends_statement : forall g s st,
  (g = true -> start_free s = true) -> extends g st (generate_statement s st).
Proof.
  intros g s. induction s using stmt_ind; intros st Hs;
    pose proof (extends_condition g) as Hc;
    pose proof (extends_helpers g st) as
      [H1 [H2 [H3 [H4 [H5 [H6 [H7 [H8 [H9 [H10 [H11 H12]]]]]]]]]]];
    cbn [generate_statement]; fold generate_body;
    try solve [apply extends_refl | auto].
  - (* Function *)
    apply extends_queue. intros Hg. simpl.
    specialize (Hs Hg). simpl in Hs. apply andb_prop in Hs as [Hn Hb].
    apply negb_true_iff in Hn. auto.
  - (* Loop *)
    pose proof (fun st => extends_body_all g body H st Hs) as Hb. cbv zeta. ext_chain.
  - (* While *)
    pose proof (fun st => extends_body_all g body H st Hs) as Hb. cbv zeta. ext_chain.
  - (* For *)
    pose proof (fun st => extends_body_all g body H st Hs) as Hb. cbv zeta.
    split_ifs; ext_chain.
  - (* Repeat *)
    pose proof (fun st => extends_body_all g body H st Hs) as Hb. cbv zeta. ext_chain.
  - (* If *)
    assert (Ht : g = true -> forallb start_free then_body = true).
    { intros Hg; specialize (Hs Hg); simpl in Hs; apply andb_prop in Hs as [Hs _]; exact Hs. }
    pose proof (fun st => extends_body_all g then_body H st Ht) as Hb. cbv zeta.
    destruct else_body as [eb|]; [destruct eb as [|s0 eb]|]; try ext_chain.
    assert (He : g = true -> forallb start_free (s0 :: eb) = true).
    { intros Hg; specialize (Hs Hg); simpl in Hs |- *.
      apply andb_prop in Hs as [_ Hs]; exact Hs. }
    match goal with Ho : option_all _ _ (Some _) |- _ => inversion Ho as [a Xe|]; subst end.
    pose proof (fun st => extends_body_all g (s0 :: eb) Xe st He) as Hb'. ext_chain.
  - (* Nop *)
    ext_chain.
Qed.

Lemma extends_body : forall g l st,
  (g = true -> forallb start_free l = true) -> extends g st (generate_body l st).
Proof.
  intros g l. induction l as [|s l IH]; intros st H; simpl; [apply extends_refl|].
  apply (extends_trans g st (generate_statement s st)).
  - apply extends_statement. intros Hg. specialize (H Hg). apply andb_prop in H as [H _]. exact H.
  - apply IH. intros Hg. specialize (H Hg). apply andb_prop in H as [_ H]. exact H.
Qed.

Lemma extends_functions : forall g st st',
  extends g st st' -> Forall (fn_ok g) (functions st) -> Forall (fn_ok g) (functions st').
Proof.
  intros g st st' [_ [_ [_ [fs [E F]]]]] H. rewrite E. apply Forall_app; auto.
Qed.

Lemma extends_run : forall g fuel i st,
  Forall (fn_ok g) (functions st) -> extends g st (run_functions fuel i st).
Proof.
  intros g fuel. induction fuel as [|fuel IH]; intros i st H; simpl; [apply extends_refl|].
  destruct (nth_error (functions st) i) as [[name body]|] eqn:E; [|apply extends_refl].
  assert (Hf : fn_ok g (name, body)).
  { eapply Forall_forall; [exact H|]. eapply nth_error_In; exact E. }
  assert (Hs : extends g st (generate_function name body st)).
  { unfold generate_function.
    apply (extends_trans g st (emit_label name st)).
    - unfold emit_label. apply extends_text. apply name_label_ok.
      intros Hg; exact (proj1 (Hf Hg)).
    - apply extends_body. intros Hg; exact (proj2 (Hf Hg)). }
  apply (extends_trans g st (generate_function name body st)); [exact Hs|].
  apply IH. exact (extends_functions g _ _ Hs H).
Qed.


Lemma extends_before_helpers : forall g ast,
  (g = true -> forallb start_free (statements ast) = true) ->
  extends g (_initialize_sections init_gstate) (before_helpers ast).
Proof.
  intros g ast H. unfold before_helpers, _add_exit_code, _add_io_buffers.
  set (st1 := _generate_program_body ast (_initialize_sections init_gstate)).
  assert (E1 : extends g (_initialize_sections init_gstate) st1).
  { unfold st1, _generate_program_body.
    set (st0 := _initialize_sections init_gstate).
    apply (extends_trans g st0 (emit_label "main_code" st0)); [ext_chain|].
    apply (extends_trans g _ (generate_body (statements ast) (emit_label "main_code" st0))).
    - apply extends_body; exact H.
    - apply extends_run. apply (extends_functions g st0).
      + apply (extends_trans g st0 (emit_label "main_code" st0)); [ext_chain|].
        apply extends_body; exact H.
      + unfold st0; simpl; constructor. }
  apply (extends_trans g _ st1); [exact E1|].
  clearbody st1. ext_chain.
Qed.

Lemma generate_lines_split : forall ast,
  let st := before_helpers ast in
  generate_lines ast =
    (if (1 <? length (data_section st))%nat then data_section st ++ [""] else [])
    ++ (if (1 <? length (bss_section st))%nat then bss_section st ++ [""] else [])
    ++ text_section st
    ++ (if needs_print_int st then print_int_lines else [])
    ++ (if needs_read_int st then read_int_lines else []).
Proof.
  intros ast st.
  change (generate_lines ast) with (_build_output_lines (_add_helper_functions st)).
  clearbody st. destruct st as [d b t c v np nr fs].
  unfold _build_output_lines, _add_helper_functions, when.
  destruct np, nr; cbn [data_section bss_section text_section set_text needs_print_int needs_read_int];
    rewrite ?app_nil_r, <- ?app_assoc; reflexivity.
Qed.

Lemma count_line_ok : forall g l t,
  Forall (line_ok g) l -> In t (if g then reserved else tl reserved) ->
  count_occ string_dec l t = 0.
Proof.
  intros g l t F Ht. induction F as [|x l Hx F IH]; [reflexivity|].
  simpl. destruct (string_dec x t) as [->|]; [contradiction|exact IH].
Qed.

Lemma start_lines_once : forall g ast t,
  (g = true -> forallb start_free (statements ast) = true) ->
  In t (if g then ["_start:"; "    global _start"] else ["    global _start"]) ->
  count_occ string_dec (generate_lines ast) t = 1.
Proof.
  intros g ast t Hs Ht. rewrite generate_lines_split.
  destruct (extends_before_helpers g ast Hs) as [[d [Ed Fd]] [[b [Eb Fb]] [[x [Ex Fx]] _]]].
  rewrite Ed, Eb, Ex.
  assert (Hr : In t (if g then reserved else tl reserved)).
  { destruct g; simpl in Ht |- *; intuition. }
  cbn [_initialize_sections init_gstate set_data set_bss set_text emit data_section bss_section
       text_section app].
  destruct (Nat.ltb _ _), (Nat.ltb _ _); rewrite ?count_occ_app;
  rewrite ?(count_line_ok g d t Fd Hr), ?(count_line_ok g b t Fb Hr), ?(count_line_ok g x t Fx Hr);
  destruct (needs_print_int _), (needs_read_int _);
  destruct g; simpl in Ht; repeat destruct Ht as [<-|Ht]; try contradiction;
  vm_compute; reflexivity.
Qed.

(** C8 (counterexample): a source that defines a function named [_start]
    compiles, and its output has two [_start:] label lines: the one of
    [_initialize_sections] and the one [generate_function] emits. *)
Lemma C8_FUNC_start_twice :
  compile_lines ("FUNC _start" +++ newline +++ "NOP" +++ newline +++ "ENDFUNC") =
    Ok ["section .text"; "    global _start"; ""; "_start:"; "    jmp main_code";
        "main_code:"; "_start:"; "    nop"; "    mov rax, 60"; "    mov rdi, 0"; "    syscall"] /\
  match compile_lines ("FUNC _start" +++ newline +++ "NOP" +++ newline +++ "ENDFUNC") with
  | Ok ls => count_occ string_dec ls "_start:"
  | Raise _ => 0
  end = 2.
Proof. split; vm_compute; reflexivity. Qed.

(** C8: when a source tokenizes and parses to [ast], it compiles to
    [generate_lines ast]; that output has the line [    global _start] exactly
    once, and, when no [Function] statement at any depth of [ast] is named
    [_start], the line [_start:] exactly once. Variables named [_start] do not
    matter: their lines are indented. *)
Theorem C8_start_lines : forall src ast,
  (let* toks := tokenize src in parse toks) = Ok ast ->
  compile_lines src = Ok (generate_lines ast) /\
  count_occ string_dec (generate_lines ast) "    global _start" = 1 /\
  (forallb start_free (statements ast) = true ->
   count_occ string_dec (generate_lines ast) "_start:" = 1).
Proof.
  intros src ast H. split; [|split].
  - unfold compile_lines. destruct (tokenize src) as [toks|e]; simpl in H |- *; [|discriminate].
    rewrite H. reflexivity.
  - apply (start_lines_once false); [discriminate|simpl; auto].
  - intros Hs. apply (start_lines_once true); [intros _; exact Hs|simpl; auto].
Qed.

Lemma C8_start_lines_witness :
  (let* toks := tokenize ("VAR _start" +++ newline +++ "PRINT _start") in parse toks) =
    Ok {| statements := [VarDecl "_start" None; Print (VStr "_start")] |} /\
  compile_lines ("VAR _start" +++ newline +++ "PRINT _start") =
    Ok (generate_lines {| statements := [VarDecl "_start" None; Print (VStr "_start")] |}) /\
  count_occ string_dec (generate_lines {| statements := [VarDecl "_start" None; Print (VStr "_start")] |})
    "    global _start" = 1 /\
  (forallb start_free [VarDecl "_start" None; Print (VStr "_start")] = true ->
   count_occ string_dec (generate_lines {| statements := [VarDecl "_start" None; Print (VStr "_start")] |})
     "_start:" = 1).
Proof.
  assert (H : (let* toks := tokenize ("VAR _start" +++ newline +++ "PRINT _start") in parse toks) =
    Ok {| statements := [VarDecl "_start" None; Print (VStr "_start")] |}) by (vm_compute; reflexivity).
  split; [exact H|].
  exact (C8_start_lines ("VAR _start" +++ newline +++ "PRINT _start") _ H).
Defined.

(** ** Removing [Label] statements *)






Lemma setf_fields : forall fs s,
  data_section (set_functions fs s) = data_section s /\
  bss_section (set_functions fs s) = bss_section s /\
  text_section (set_functions fs s) = text_section s /\
  label_counter (set_functions fs s) = label_counter s /\
  variables (set_functions fs s) = variables s /\
  needs_print_int (set_functions fs s) = needs_print_int s /\
  needs_read_int (set_functions fs s) = needs_read_int s /\
  functions (set_functions fs s) = fs.
Proof. repeat split. Qed.

(** Rewrites [field (set_functions fs s)] to [field s]. *)
Ltac setf_rewrite :=
  repeat match goal with
  | |- context [?p (set_functions ?fs ?s)] =>
      let E := fresh "E" in
      pose proof (setf_fields fs s) as E;
      match p with
      | data_section => rewrite (proj1 E)
      | bss_section => rewrite (proj1 (proj2 E))
      | text_section => rewrite (proj1 (proj2 (proj2 E)))
      | label_counter => rewrite (proj1 (proj2 (proj2 (proj2 E))))
      | variables => rewrite (proj1 (proj2 (proj2 (proj2 (proj2 E)))))
      | needs_print_int => rewrite (proj1 (proj2 (proj2 (proj2 (proj2 (proj2 E))))))
      | needs_read_int => rewrite (proj1 (proj2 (proj2 (proj2 (proj2 (proj2 (proj2 E)))))))
      end; clear E
  end.

Ltac commute_tac :=
  unfold when; setf_rewrite; split_ifs; setf_rewrite; reflexivity.

Lemma commute_helpers : forall fs st,
  (forall op operand, generate_unary_op op operand (set_functions fs st) =
     set_functions fs (generate_unary_op op operand st)) /\
  (forall op dest src count, generate_shift op dest src count (set_functions fs st) =
     set_functions fs (generate_shift op dest src count st)) /\
  (forall op dest l r, generate_binary_op op dest l r (set_functions fs st) =
     set_functions fs (generate_binary_op op dest l r st)) /\
  (forall name val, generate_var_decl name val (set_functions fs st) =
     set_functions fs (generate_var_decl name val st)) /\
  (forall dest src, generate_load dest src (set_functions fs st) =
     set_functions fs (generate_load dest src st)) /\
  (forall dest src, generate_set dest src (set_functions fs st) =
     set_functions fs (generate_set dest src st)) /\
  (forall dest src, generate_move dest src (set_functions fs st) =
     set_functions fs (generate_move dest src st)) /\
  (forall v, generate_print v (set_functions fs st) = set_functions fs (generate_print v st)) /\
  (forall dest, generate_input dest (set_functions fs st) = set_functions fs (generate_input dest st)) /\
  generate_halt (set_functions fs st) = set_functions fs (generate_halt st) /\
  (forall name, generate_call name (set_functions fs st) = set_functions fs (generate_call name st)) /\
  (forall val, generate_return val (set_functions fs st) = set_functions fs (generate_return val st)) /\
  (forall c l, generate_condition c l (set_functions fs st) =
     set_functions fs (generate_condition c l st)).
Proof.
  intros fs st.
  refine (conj _ (conj _ (conj _ (conj _ (conj _ (conj _ (conj _ (conj _ (conj _
    (conj _ (conj _ (conj _ _)))))))))))); intros.
  - unfold generate_unary_op; commute_tac.
  - unfold generate_shift; cbv zeta; commute_tac.
  - unfold generate_binary_op; cbv zeta; destruct r; commute_tac.
  - unfold generate_var_decl; destruct val; commute_tac.
  - unfold generate_load; destruct src; commute_tac.
  - unfold generate_set; destruct src; commute_tac.
  - unfold generate_move; destruct src; commute_tac.
  - unfold generate_print, load_value_to_r15; destruct v; commute_tac.
  - unfold generate_input; commute_tac.
  - unfold generate_halt; commute_tac.
  - unfold generate_call; commute_tac.
  - unfold generate_return; destruct val; commute_tac.
  - unfold generate_condition, load_operand; destruct c as [l1 o r1]; cbn [cond_left cond_right];
      destruct l1, r1; commute_tac.
Qed.

Lemma setf_id : forall s, set_functions (functions s) s = s.
Proof. intros []; reflexivity. Qed.

Lemma leaf_commute : forall s fs st, is_leaf s = true ->
  generate_statement s (set_functions fs st) = set_functions fs (generate_statement s st).
Proof.
  intros s fs st H.
  destruct (commute_helpers fs st)
    as [H1 [H2 [H3 [H4 [H5 [H6 [H7 [H8 [H9 [H10 [H11 [H12 _]]]]]]]]]]]].
  destruct s; try discriminate; cbn [generate_statement]; auto.
Qed.

Lemma sim_prim : forall (p : gstate -> gstate) st st',
  (forall fs s, p (set_functions fs s) = set_functions fs (p s)) ->
  sim st st' -> sim (p st) (p st').
Proof.
  intros p st st' Hp [fs [-> F]]. exists fs. split; [apply Hp|].
  assert (E : functions (p st) = functions st).
  { rewrite <- (setf_id st) at 1. rewrite Hp. reflexivity. }
  rewrite E. exact F.
Qed.

Lemma sim_fields : forall st st', sim st st' ->
  label_counter st' = label_counter st /\ variables st' = variables st.
Proof. intros st st' [fs [-> _]]. split; reflexivity. Qed.

Lemma sim_nil : forall st, functions st = [] -> sim st st.
Proof.
  intros st E. exists []. split; [rewrite <- E; symmetry; apply setf_id|rewrite E; constructor].
Qed.

Ltac sim_chain :=
  match goal with
  | H : sim ?a ?b |- sim ?a ?b => exact H
  | IH : forall st st', sim st st' -> sim (generate_body ?l st) (generate_body ?l' st')
    |- sim (generate_body ?l ?x) (generate_body ?l' ?y) => apply IH; sim_chain
  | |- sim (generate_condition ?c ?lab ?x) (generate_condition ?c ?lab ?y) =>
      apply (sim_prim (generate_condition c lab));
      [intros; apply (commute_helpers _ _) | sim_chain]
  | |- sim (?p ?x) (?p ?y) =>
      apply (sim_prim p); [intros; reflexivity | sim_chain]
  end.

Lemma sim_generate :
  (forall s s', stmt_drop s s' ->
     forall st st', sim st st' -> sim (generate_statement s st) (generate_statement s' st')) /\
  (forall l l', body_drop l l' ->
     forall st st', sim st st' -> sim (generate_body l st) (generate_body l' st')).
Proof.
  apply drop_mutind.
  - intros s Hl st st' H. apply sim_prim; [|exact H].
    intros; apply leaf_commute; exact Hl.
  - intros n b b' Hb IH st st' [fs [-> F]]. cbn [generate_statement].
    exists (fs ++ [(n, b')]). split; [reflexivity|].
    apply Forall2_app; [exact F|]. constructor; [split; [reflexivity|exact Hb]|constructor].
  - intros v k b b' Hb IH st st' H. cbn [generate_statement]; fold generate_body.
    destruct (sim_fields _ _ H) as [Ec _]. rewrite Ec. sim_chain.
  - intros c b b' Hb IH st st' H. cbn [generate_statement]; fold generate_body.
    destruct (sim_fields _ _ H) as [Ec _]. rewrite Ec. sim_chain.
  - intros v a e k b b' Hb IH st st' H. cbn [generate_statement]; fold generate_body.
    destruct (sim_fields _ _ H) as [_ Ev]. rewrite Ev.
    destruct (in_strings v (variables st)).
    + destruct (sim_fields _ _ H) as [Ec _]. rewrite Ec. destruct (Z.eqb k 1); sim_chain.
    + assert (H1 : sim (emit_bss (v +++ " resq 1") (set_variables (variables st ++ [v]) st))
                       (emit_bss (v +++ " resq 1") (set_variables (variables st ++ [v]) st')))
        by sim_chain.
      destruct (sim_fields _ _ H1) as [Ec _]. rewrite Ec. destruct (Z.eqb k 1); sim_chain.
  - intros b b' c Hb IH st st' H. cbn [generate_statement]; fold generate_body.
    destruct (sim_fields _ _ H) as [Ec _]. rewrite Ec. sim_chain.
  - intros c tb tb' Hb IH st st' H. cbn [generate_statement]; fold generate_body.
    destruct (sim_fields _ _ H) as [Ec _]. rewrite Ec. sim_chain.
  - intros c tb tb' eb eb' Hb IH He IHe Hne st st' H. cbn [generate_statement]; fold generate_body.
    destruct (sim_fields _ _ H) as [Ec _]. rewrite Ec.
    destruct eb as [|x eb], eb' as [|y eb'].
    + sim_chain.
    + inversion He.
    + discriminate (Hne eq_refl).
    + sim_chain.
  - intros st st' H; exact H.
  - intros n l l' Hl IH st st' H. cbn [generate_body generate_statement]. apply IH; exact H.
  - intros s s' l l' Hs IHs Hl IHl st st' H. cbn [generate_body]. apply IHl, IHs, H.
Qed.

Lemma drop_count :
  (forall s s', stmt_drop s s' -> count_functions s = count_functions s') /\
  (forall l l', body_drop l l' -> count_body l = count_body l').
Proof.
  apply drop_mutind; intros; cbn [count_functions count_body]; fold count_body; try congruence.
  simpl; assumption.
Qed.

Lemma Forall2_nth : forall (A B : Type) (R : A -> B -> Prop) l l' i,
  Forall2 R l l' ->
  (nth_error l i = None /\ nth_error l' i = None) \/
  (exists a b, nth_error l i = Some a /\ nth_error l' i = Some b /\ R a b).
Proof.
  intros A B R l l' i F. revert i. induction F as [|a b l l' Hab F IH]; intros [|i]; simpl.
  - left; split; reflexivity.
  - left; split; reflexivity.
  - right. exists a, b. auto.
  - apply IH.
Qed.

Lemma sim_run : forall fuel i st st', sim st st' ->
  sim (run_functions fuel i st) (run_functions fuel i st').
Proof.
  intros fuel. induction fuel as [|fuel IH]; intros i st st' H; [exact H|].
  cbn [run_functions].
  destruct H as [fs [Est F]].
  destruct (Forall2_nth _ _ _ _ _ i F) as [[E1 E2]|[[n b] [[n' b'] [E1 [E2 [En Hb]]]]]].
  - rewrite E1, Est. cbn [functions set_functions]. rewrite E2. exists fs; auto.
  - rewrite E1, Est. cbn [functions set_functions]. rewrite E2.
    cbn [fst snd] in En, Hb. subst n'. rewrite <- Est.
    apply IH. unfold generate_function.
    apply (proj2 sim_generate _ _ Hb).
    apply (sim_prim (emit_label n)); [intros; reflexivity|].
    exists fs; auto.
Qed.

Lemma finalize_commute : forall fs st,
  _finalize_program (set_functions fs st) = set_functions fs (_finalize_program st).
Proof.
  intros fs [d b t c v np nr f]. destruct np, nr; reflexivity.
Qed.

Lemma generate_lines_drop : forall ast ast',
  body_drop (statements ast) (statements ast') -> generate_lines ast = generate_lines ast'.
Proof.
  intros ast ast' Hd. unfold generate_lines, _generate_program_body.
  rewrite (proj2 drop_count _ _ Hd).
  assert (H : sim (run_functions (count_body (statements ast')) 0
                     (generate_body (statements ast)
                        (emit_label "main_code" (_initialize_sections init_gstate))))
                  (run_functions (count_body (statements ast')) 0
                     (generate_body (statements ast')
                        (emit_label "main_code" (_initialize_sections init_gstate))))).
  { apply sim_run. apply (proj2 sim_generate _ _ Hd). apply sim_nil. reflexivity. }
  destruct H as [fs [-> _]]. rewrite finalize_commute. reflexivity.
Qed.

(** C10 (counterexample): an [If] whose else body is a single [Label]
    generates [jmp endif_0], [else_0:] and [endif_0:]; the same [If] with the
    [Label] removed has an empty else body and generates only [else_0:]. *)
Lemma C10_else_label_kept :
  generate_lines (MkProgram [If (MkCondition (VStr "R1") ">" (VInt 0)) [] (Some [Label "x"])]) =
    ["section .text"; "    global _start"; ""; "_start:"; "    jmp main_code"; "main_code:";
     "    mov r10, rax"; "    mov r11, 0"; "    cmp r10, r11"; "    jle else_0";
     "    jmp endif_0"; "else_0:"; "endif_0:"; "    mov rax, 60"; "    mov rdi, 0"; "    syscall"] /\
  generate_lines (MkProgram [If (MkCondition (VStr "R1") ">" (VInt 0)) [] (Some [])]) =
    ["section .text"; "    global _start"; ""; "_start:"; "    jmp main_code"; "main_code:";
     "    mov r10, rax"; "    mov r11, 0"; "    cmp r10, r11"; "    jle else_0";
     "else_0:"; "    mov rax, 60"; "    mov rdi, 0"; "    syscall"] /\
  generate (MkProgram [If (MkCondition (VStr "R1") ">" (VInt 0)) [] (Some [Label "x"])]) <>
  generate (MkProgram [If (MkCondition (VStr "R1") ">" (VInt 0)) [] (Some [])]).
Proof.
  split; [vm_compute; reflexivity|]. split; [vm_compute; reflexivity|].
  intros H. vm_compute in H. discriminate H.
Qed.

(** C10: a [Label] statement contributes nothing to the generated text.
    Removing [Label] statements from a program, at any depth (main body,
    function bodies, loop and branch bodies), leaves [generate] unchanged,
    provided no else body that had statements becomes empty
    ([body_drop]). *)
Theorem C10_labels_removable : forall ast ast',
  body_drop (statements ast) (statements ast') -> generate ast = generate ast'.
Proof.
  intros ast ast' H. unfold generate. rewrite (generate_lines_drop ast ast' H). reflexivity.
Qed.

Lemma C10_labels_removable_witness :
  body_drop [Label "start"; Nop; Function "f" [Label "again"; Return None]; Call "f"]
            [Nop; Function "f" [Return None]; Call "f"] /\
  generate (MkProgram [Label "start"; Nop; Function "f" [Label "again"; Return None]; Call "f"]) =
  generate (MkProgram [Nop; Function "f" [Return None]; Call "f"]).
Proof.
  assert (H : body_drop [Label "start"; Nop; Function "f" [Label "again"; Return None]; Call "f"]
                        [Nop; Function "f" [Return None]; Call "f"]).
  { apply bd_label. apply bd_cons; [apply sd_leaf; reflexivity|].
    apply bd_cons; [apply sd_function; apply bd_label;
                    apply bd_cons; [apply sd_leaf; reflexivity|apply bd_nil]|].
    apply bd_cons; [apply sd_leaf; reflexivity|apply bd_nil]. }
  split; [exact H|].
  exact (C10_labels_removable
           (MkProgram [Label "start"; Nop; Function "f" [Label "again"; Return None]; Call "f"])
           (MkProgram [Nop; Function "f" [Return None]; Call "f"]) H).
Defined.

(** ** Which statements set the helper flags *)






Ltac eff_cbn :=
  cbn [needs_print_int needs_read_int functions emit emit_label emit_data emit_bss append_text
       set_text set_data set_bss set_counter set_variables set_needs_print set_needs_read
       set_functions when].

Lemma eff_condition : forall c l st, eff false false [] st (generate_condition c l st).
Proof.
  intros [l1 o r1] l st. unfold eff, generate_condition, load_operand; cbn [cond_left cond_right].
  destruct l1, r1; unfold when; split_ifs; eff_cbn; rewrite ?orb_false_r, ?app_nil_r; auto.
Qed.

Lemma eff_leaf : forall s st, is_leaf s = true ->
  eff (is_print s) (is_input s) [] st (generate_statement s st).
Proof.
  intros s st H. destruct s; try discriminate; cbn [generate_statement is_print is_input];
  unfold eff, generate_unary_op, generate_shift, generate_binary_op, generate_var_decl,
    generate_load, generate_set, generate_move, generate_print, load_value_to_r15,
    generate_input, generate_halt, generate_call, generate_return, load_operand; cbv zeta;
  repeat match goal with
         | x : value |- _ => destruct x
         | x : option _ |- _ => destruct x
         end;
  unfold when; split_ifs; eff_cbn; rewrite ?orb_false_r, ?orb_true_r, ?app_nil_r; auto.
Qed.

Lemma eff_trans : forall a1 b1 q1 a2 b2 q2 s1 s2 s3,
  eff a1 b1 q1 s1 s2 -> eff a2 b2 q2 s2 s3 -> eff (a1 || a2) (b1 || b2) (q1 ++ q2) s1 s3.
Proof.
  unfold eff. intros a1 b1 q1 a2 b2 q2 s1 s2 s3 [P1 [R1 F1]] [P2 [R2 F2]].
  rewrite P2, R2, F2, P1, R1, F1, <- !orb_assoc, <- app_assoc. auto.
Qed.

Lemma eff_body_all : forall l,
  list_all@{Prop ; Set Set} stmt (fun s => forall st,
    eff (shallow is_print s) (shallow is_input s) (queued s) st (generate_statement s st)) l ->
  forall st, eff (existsb (shallow is_print) l) (existsb (shallow is_input) l) (flat_map queued l)
               st (generate_body l st).
Proof.
  intros l X. induction X as [|s IHs l X IH]; intros st; simpl.
  - unfold eff; rewrite !orb_false_r, app_nil_r; auto.
  - apply (eff_trans _ _ _ _ _ _ st (generate_statement s st)); [apply IHs | apply IH].
Qed.

Ltac eff_rw B :=
  repeat (eff_cbn;
          first [ rewrite (proj1 (B _)) | rewrite (proj1 (proj2 (B _)))
                | rewrite (proj2 (proj2 (B _)))
                | rewrite (proj1 (eff_condition _ _ _)) | rewrite (proj1 (proj2 (eff_condition _ _ _)))
                | rewrite (proj2 (proj2 (eff_condition _ _ _))) ]).

Ltac eff_close :=
  cbn [shallow queued is_print is_input orb]; rewrite ?orb_false_r, ?app_nil_r, ?app_assoc;
  repeat split; first [reflexivity | btauto].

Lemma eff_statement : forall s st,
  eff (shallow is_print s) (shallow is_input s) (queued s) st (generate_statement s st).
Proof.
  intros s. induction s using stmt_ind; intros st;
    try (apply eff_leaf; reflexivity);
    cbn [generate_statement]; fold generate_body; cbv zeta.
  - (* Function *)
    unfold eff; eff_cbn. cbn [shallow queued is_print is_input]. rewrite !orb_false_r. auto.
  - (* Loop *)
    pose proof (eff_body_all body H) as B. unfold eff. eff_rw B. eff_close.
  - (* While *)
    pose proof (eff_body_all body H) as B. unfold eff. eff_rw B. eff_close.
  - (* For *)
    pose proof (eff_body_all body H) as B. unfold eff.
    split_ifs; eff_rw B; eff_close.
  - (* Repeat *)
    pose proof (eff_body_all body H) as B. unfold eff. eff_rw B. eff_close.
  - (* If *)
    pose proof (eff_body_all then_body H) as B. unfold eff.
    destruct else_body as [eb|]; [destruct eb as [|s0 eb]|].
    + eff_rw B. eff_close.
    + match goal with Ho : option_all _ _ (Some _) |- _ => inversion Ho as [a Xe|]; subst end.
      pose proof (eff_body_all (s0 :: eb) Xe) as B'. repeat progress (eff_rw B; eff_rw B'). eff_close.
    + eff_rw B. eff_close.
Qed.

Lemma eff_body : forall l st,
  eff (existsb (shallow is_print) l) (existsb (shallow is_input) l) (flat_map queued l)
      st (generate_body l st).
Proof.
  intros l. induction l as [|s l IH]; intros st; simpl.
  - unfold eff; rewrite !orb_false_r, app_nil_r; auto.
  - apply (eff_trans _ _ _ _ _ _ st (generate_statement s st)); [apply eff_statement | apply IH].
Qed.


Lemma contains_split_all : forall p l,
  list_all@{Prop ; Set Set} stmt
    (fun s => contains p s = shallow p s || existsb (deepf p) (queued s)) l ->
  existsb (contains p) l = existsb (shallow p) l || existsb (deepf p) (flat_map queued l).
Proof.
  intros p l X. induction X as [|s Hs l X IH]; simpl; [reflexivity|].
  rewrite Hs, IH, existsb_app. btauto.
Qed.

Lemma contains_split : forall p s,
  contains p s = shallow p s || existsb (deepf p) (queued s).
Proof.
  intros p s. induction s using stmt_ind; cbn [contains shallow queued];
    rewrite ?orb_false_r; try reflexivity.
  - cbn [existsb]. unfold deepf; cbn [snd]. btauto.
  - rewrite (contains_split_all p body H). btauto.
  - rewrite (contains_split_all p body H). btauto.
  - rewrite (contains_split_all p body H). btauto.
  - rewrite (contains_split_all p body H). btauto.
  - rewrite (contains_split_all p then_body H), existsb_app.
    destruct else_body as [eb|]; [|simpl; btauto].
    match goal with Ho : option_all _ _ (Some _) |- _ => inversion Ho as [a Xe|]; subst end.
    rewrite (contains_split_all p eb Xe). btauto.
Qed.

Lemma contains_split_body : forall p l,
  existsb (contains p) l = existsb (shallow p) l || existsb (deepf p) (flat_map queued l).
Proof.
  intros p l. induction l as [|s l IH]; simpl; [reflexivity|].
  rewrite contains_split, IH, existsb_app. btauto.
Qed.


Lemma pot_app : forall a b, pot (a ++ b) = pot a + pot b.
Proof. intros a b. induction a as [|f a IH]; simpl; lia. Qed.

Lemma count_queued_all : forall l,
  list_all@{Prop ; Set Set} stmt (fun s => count_functions s = pot (queued s)) l ->
  count_body l = pot (flat_map queued l).
Proof.
  intros l X. induction X as [|s Hs l X IH]; simpl; [reflexivity|].
  rewrite pot_app, Hs, IH. reflexivity.
Qed.

Lemma count_queued : forall s, count_functions s = pot (queued s).
Proof.
  intros s. induction s using stmt_ind; cbn [count_functions queued pot]; fold count_body;
    try reflexivity.
  - cbn [snd]. lia.
  - apply count_queued_all; exact H.
  - apply count_queued_all; exact H.
  - apply count_queued_all; exact H.
  - apply count_queued_all; exact H.
  - rewrite pot_app, (count_queued_all then_body H).
    destruct else_body as [eb|]; [|simpl; lia].
    match goal with Ho : option_all _ _ (Some _) |- _ => inversion Ho as [a Xe|]; subst end.
    rewrite (count_queued_all eb Xe). reflexivity.
Qed.

Lemma count_body_pot : forall l, count_body l = pot (flat_map queued l).
Proof.
  intros l. induction l as [|s l IH]; simpl; [reflexivity|].
  rewrite pot_app, count_queued, IH. reflexivity.
Qed.

Lemma existsb_cons : forall (A : Type) (f : A -> bool) x l,
  existsb f (x :: l) = f x || existsb f l.
Proof. reflexivity. Qed.

Lemma pot_nil : forall fs, pot fs <= 0 -> fs = [].
Proof. intros [|f fs] H; [reflexivity|simpl in H; lia]. Qed.

Lemma skipn_nth : forall (A : Type) (l : list A) i x,
  nth_error l i = Some x -> skipn i l = x :: skipn (S i) l.
Proof.
  intros A l. induction l as [|y l IH]; intros [|i] x H; simpl in H |- *; try discriminate.
  - injection H as ->. reflexivity.
  - apply IH; exact H.
Qed.

Lemma run_flags : forall fuel i st, pot (skipn i (functions st)) <= fuel ->
  needs_print_int (run_functions fuel i st) =
    needs_print_int st || existsb (deepf is_print) (skipn i (functions st)) /\
  needs_read_int (run_functions fuel i st) =
    needs_read_int st || existsb (deepf is_input) (skipn i (functions st)).
Proof.
  intros fuel. induction fuel as [|fuel IH]; intros i st H.
  - rewrite (pot_nil _ H). simpl. rewrite !orb_false_r. auto.
  - cbn [run_functions]. destruct (nth_error (functions st) i) as [[n b]|] eqn:E.
    + rewrite (skipn_nth _ _ _ _ E) in H |- *.
      assert (Hi : S i <= length (functions st)).
      { apply nth_error_Some. rewrite E. discriminate. }
      set (st1 := generate_function n b st).
      destruct (eff_body b (emit_label n st)) as [P [R F]].
      fold (generate_function n b st) in P, R, F. fold st1 in P, R, F.
      assert (Hs : skipn (S i) (functions st1) = skipn (S i) (functions st) ++ flat_map queued b).
      { rewrite F. cbn [functions emit_label set_text]. rewrite skipn_app.
        replace (S i - length (functions st)) with 0 by lia. reflexivity. }
      destruct (IH (S i) st1) as [IP IR].
      { rewrite Hs, pot_app, <- count_body_pot. cbn [pot snd] in H. lia. }
      rewrite IP, IR, Hs, P, R, !existsb_app. cbn [needs_print_int needs_read_int emit_label set_text].
      rewrite !existsb_cons.
      change (deepf is_print (n, b)) with (existsb (contains is_print) b).
      change (deepf is_input (n, b)) with (existsb (contains is_input) b).
      rewrite !contains_split_body. split; btauto.
    + apply nth_error_None in E. rewrite (skipn_all2 _ E). simpl. rewrite !orb_false_r. auto.
Qed.

Lemma helper_flags : forall ast,
  needs_print_int (before_helpers ast) = existsb (contains is_print) (statements ast) /\
  needs_read_int (before_helpers ast) = existsb (contains is_input) (statements ast).
Proof.
  intros ast.
  assert (E : forall X, needs_print_int (_add_exit_code (_add_io_buffers X)) = needs_print_int X /\
                        needs_read_int (_add_exit_code (_add_io_buffers X)) = needs_read_int X).
  { intros [d b t c v np nr f]. destruct np, nr; split; reflexivity. }
  unfold before_helpers. rewrite !(proj1 (E _)), !(proj2 (E _)).
  unfold _generate_program_body.
  set (st0 := emit_label "main_code" (_initialize_sections init_gstate)).
  destruct (eff_body (statements ast) st0) as [P [R F]].
  assert (F0 : functions st0 = []) by reflexivity.
  rewrite F0 in F. simpl in F.
  destruct (run_flags (count_body (statements ast)) 0 (generate_body (statements ast) st0)) as [IP IR].
  { rewrite F. cbn [skipn]. rewrite <- count_body_pot. lia. }
  rewrite IP, IR, P, R, F. simpl skipn.
  rewrite !contains_split_body. split; reflexivity.
Qed.

Lemma helper_line_count : forall ast t, In t (tl reserved) ->
  count_occ string_dec (generate_lines ast) t =
  count_occ string_dec (text_section (_initialize_sections init_gstate)) t +
  (if needs_print_int (before_helpers ast) then count_occ string_dec print_int_lines t else 0) +
  (if needs_read_int (before_helpers ast) then count_occ string_dec read_int_lines t else 0).
Proof.
  intros ast t Ht. rewrite generate_lines_split.
  destruct (extends_before_helpers false ast ltac:(discriminate))
    as [[d [Ed Fd]] [[b [Eb Fb]] [[x [Ex Fx]] _]]].
  rewrite Ed, Eb, Ex.
  cbn [_initialize_sections init_gstate set_data set_bss set_text emit data_section bss_section
       text_section app].
  destruct (Nat.ltb _ _), (Nat.ltb _ _); rewrite ?count_occ_app;
  rewrite ?(count_line_ok false d t Fd Ht), ?(count_line_ok false b t Fb Ht),
    ?(count_line_ok false x t Fx Ht);
  destruct (needs_print_int _), (needs_read_int _);
  simpl in Ht; repeat destruct Ht as [<-|Ht]; try contradiction;
  vm_compute; reflexivity.
Qed.

(** C7: the [print_int] helper (the lines [print_int_lines]) occurs as a
    block of consecutive lines of the generated program iff a [Print]
    statement occurs anywhere in the program tree, function bodies and
    nested bodies included; likewise [read_int] ([read_int_lines]) and
    [Input]. *)
Theorem C7_helpers_iff : forall ast,
  ((exists pre post, generate_lines ast = pre ++ print_int_lines ++ post) <->
     existsb (contains is_print) (statements ast) = true) /\
  ((exists pre post, generate_lines ast = pre ++ read_int_lines ++ post) <->
     existsb (contains is_input) (statements ast) = true).
Proof.
  intros ast. destruct (helper_flags ast) as [P R]. rewrite <- P, <- R.
  split; split.
  - intros [pre [post E]].
    destruct (needs_print_int (before_helpers ast)) eqn:N; [reflexivity|exfalso].
    pose proof (helper_line_count ast "    push rbx" ltac:(simpl; auto)) as C.
    assert (Hin : In "    push rbx" (generate_lines ast)).
    { rewrite E. apply in_or_app; right. apply in_or_app; left.
      apply (count_occ_In string_dec). vm_compute. lia. }
    apply (count_occ_In string_dec) in Hin. rewrite C, N in Hin.
    destruct (needs_read_int (before_helpers ast)); vm_compute in Hin; lia.
  - intros N. rewrite generate_lines_split. cbv zeta. rewrite N.
    match goal with
    | |- exists pre post, ?a ++ ?b ++ ?c ++ print_int_lines ++ ?d = _ => exists (a ++ b ++ c), d
    end.
    rewrite <- !app_assoc. reflexivity.
  - intros [pre [post E]].
    destruct (needs_read_int (before_helpers ast)) eqn:N; [reflexivity|exfalso].
    pose proof (helper_line_count ast "    movzx r14, byte [r12]" ltac:(simpl; auto)) as C.
    assert (Hin : In "    movzx r14, byte [r12]" (generate_lines ast)).
    { rewrite E. apply in_or_app; right. apply in_or_app; left.
      apply (count_occ_In string_dec). vm_compute. lia. }
    apply (count_occ_In string_dec) in Hin. rewrite C, N in Hin.
    destruct (needs_print_int (before_helpers ast)); vm_compute in Hin; lia.
  - intros N. rewrite generate_lines_split. cbv zeta. rewrite N.
    match goal with
    | |- exists pre post, ?a ++ ?b ++ ?c ++ ?p ++ read_int_lines = _ => exists (a ++ b ++ c ++ p), []
    end.
    rewrite <- !app_assoc, app_nil_r. reflexivity.
Qed.

(** * Further properties *)

(** ** Positions and lines of the lexer *)

Lemma count_nl_app : forall a b, count_nl (a +++ b) = count_nl a + count_nl b.
Proof. intros a b; induction a as [|c a IH]; simpl; [reflexivity|]. rewrite IH; lia. Qed.

Lemma str_app_assoc : forall a b c, (a +++ b) +++ c = a +++ (b +++ c).
Proof. intros a b c; induction a as [|x a IH]; simpl; [reflexivity|]. rewrite IH; reflexivity. Qed.

Lemma moved_refl : forall st, moved st st "".
Proof. intros st; split; simpl; [reflexivity|lia]. Qed.

Lemma moved_trans : forall st1 st2 st3 a b,
  moved st1 st2 a -> moved st2 st3 b -> moved st1 st3 (a +++ b).
Proof.
  intros st1 st2 st3 a b [R1 L1] [R2 L2]. split.
  - rewrite R1, R2, str_app_assoc. reflexivity.
  - rewrite L2, L1, count_nl_app. lia.
Qed.

Lemma advance_moved : forall st c s,
  rest st = String c s -> moved st (advance st) (String c "").
Proof.
  intros [r ln co] c s H; simpl in H; subst r. unfold advance, step_pos, moved; simpl.
  destruct (Ascii.eqb c "010"%char); simpl; split; reflexivity || lia.
Qed.

Lemma scan_while_moved : forall p s ln co taken st',
  scan_while p s ln co = (taken, st') ->
  moved (LexSt s ln co) st' taken /\ all_chars p taken = true.
Proof.
  intros p s. induction s as [|c s IH]; intros ln co taken st' H; simpl in H.
  - injection H as <- <-. split; [apply moved_refl|reflexivity].
  - destruct (p c) eqn:Hp.
    + destruct (step_pos c ln co) as [ln' co'] eqn:Hs.
      destruct (scan_while p s ln' co') as [t st2] eqn:E. injection H as <- <-.
      destruct (IH _ _ _ _ E) as [[R L] A]. split; [|simpl; rewrite Hp, A; reflexivity].
      split; simpl in *; [rewrite R; reflexivity|].
      unfold step_pos in Hs. destruct (Ascii.eqb c "010"%char); injection Hs as <- <-; lia.
    + injection H as <- <-. split; [apply moved_refl|reflexivity].
Qed.

Lemma scan_moved : forall p st taken st',
  scan p st = (taken, st') -> moved st st' taken /\ all_chars p taken = true.
Proof. intros p [r ln co] taken st' H. exact (scan_while_moved p r ln co taken st' H). Qed.

Lemma count_nl_none : forall p s,
  all_chars p s = true -> p "010"%char = false -> count_nl s = 0.
Proof.
  intros p s; induction s as [|c s IH]; simpl; [reflexivity|].
  intros H Hn. apply andb_prop in H as [Hc H].
  destruct (Ascii.eqb_spec c "010"%char) as [->|]; [congruence|]. simpl; auto.
Qed.

Lemma scan_while_stop : forall p s ln co taken st',
  scan_while p s ln co = (taken, st') -> starts_without p (rest st').
Proof.
  intros p s. induction s as [|c s IH]; intros ln co taken st' H; simpl in H.
  - injection H as _ <-. exact Logic.I.
  - destruct (p c) eqn:Hp.
    + destruct (step_pos c ln co) as [ln' co'].
      destruct (scan_while p s ln' co') as [t st2] eqn:E. injection H as _ <-.
      exact (IH _ _ _ _ E).
    + injection H as _ <-. exact Hp.
Qed.

Lemma skip_whitespace_moved : forall st,
  exists ws, moved st (skip_whitespace st) ws /\ count_nl ws = 0 /\
    starts_without (fun c => isspace c && negb (Ascii.eqb c "010"%char))
      (rest (skip_whitespace st)).
Proof.
  intros st. unfold skip_whitespace.
  destruct (scan _ st) as [ws st'] eqn:E. simpl.
  destruct (scan_moved _ _ _ _ E) as [M A]. exists ws. split; [exact M|split].
  - eapply count_nl_none; [exact A|reflexivity].
  - destruct st; exact (scan_while_stop _ _ _ _ _ _ E).
Qed.

Lemma read_number_shape : forall st,
  read_number st =
  let '(sign, st) :=
    match current_char st with
    | Some c => if Ascii.eqb c "-"%char then ("-", advance st) else ("", st)
    | None => ("", st)
    end in
  match current_char st with
  | Some c =>
    if Ascii.eqb c "0"%char then
      match peek_char st with
      | None => Raise TypeError
      | Some p =>
          if char_in p "xX" then
            let (ds, st') := scan is_hex_char (advance (advance st)) in
            let num_str := sign +++ ds in
            match num_str with
            | EmptyString => Ok (0%Z, st')
            | _ => let* v := py_int 16 num_str in Ok (v, st')
            end
          else if char_in p "bB" then
            let (ds, st') := scan is_bin_char (advance (advance st)) in
            let num_str := sign +++ ds in
            match num_str with
            | EmptyString => Ok (0%Z, st')
            | _ => let* v := py_int 2 num_str in Ok (v, st')
            end
          else
            let (ds, st') := scan isdigit st in
            let* v := py_int 10 (sign +++ ds) in Ok (v, st')
      end
    else
      let (ds, st') := scan isdigit st in
      let* v := py_int 10 (sign +++ ds) in Ok (v, st')
  | None =>
      let (ds, st') := scan isdigit st in
      let* v := py_int 10 (sign +++ ds) in Ok (v, st')
  end.
Proof.
  intros [[|c s] ln co]; [reflexivity|].
  all_ascii c; try reflexivity.
  destruct s as [|c2 s]; [reflexivity|]. all_ascii c2; reflexivity.
Qed.

(** A move over characters none of which is a newline. *)

Lemma moved_nonl_trans : forall st1 st2 st3 a b,
  moved st1 st2 a -> count_nl a = 0 -> moved st2 st3 b -> count_nl b = 0 ->
  moved st1 st3 (a +++ b) /\ count_nl (a +++ b) = 0.
Proof.
  intros st1 st2 st3 a b M1 N1 M2 N2. split; [eapply moved_trans; eauto|].
  rewrite count_nl_app; lia.
Qed.

Lemma py_int_error : forall base s e, py_int base s = Raise e -> e = ValueError.
Proof.
  intros base s e H. unfold py_int in H.
  destruct (match s with String "-"%char ds => (true, ds) | _ => (false, s) end) as [neg ds].
  destruct ds; [congruence|]. destruct (digits_value _ _ _); congruence.
Qed.

Lemma scan_nonl : forall p st ds st',
  p "010"%char = false -> scan p st = (ds, st') ->
  moved st st' ds /\ count_nl ds = 0.
Proof.
  intros p st ds st' Hp E. destruct (scan_moved _ _ _ _ E) as [M A].
  split; [exact M|]. eapply count_nl_none; eauto.
Qed.

Lemma advance_nonl : forall st c s,
  rest st = String c s -> Ascii.eqb c "010"%char = false ->
  moved st (advance st) (String c "") /\ count_nl (String c "") = 0.
Proof.
  intros st c s R Hc. split; [exact (advance_moved _ _ _ R)|]. simpl. rewrite Hc. reflexivity.
Qed.

Lemma char_in_nonl : forall p s, char_in p s = true -> all_chars (fun c => negb (Ascii.eqb c "010"%char)) s = true ->
  Ascii.eqb p "010"%char = false.
Proof.
  intros p s. induction s as [|c s IH]; simpl; [discriminate|].
  unfold char_in; simpl. intros H A. apply andb_prop in A as [Ac A].
  apply orb_prop in H as [H|H].
  - apply Ascii.eqb_eq in H; subst c. destruct (Ascii.eqb p "010"%char); [discriminate|reflexivity].
  - apply IH; [exact H|exact A].
Qed.

Lemma scan_digits_post : forall sign base p st,
  p "010"%char = false ->
  rn_post sign st (let (ds, st') := scan p st in let* v := py_int base (sign +++ ds) in Ok (v, st')).
Proof.
  intros sign base p st Hp. destruct (scan p st) as [ds st'] eqn:E.
  destruct (py_int base (sign +++ ds)) as [v|e] eqn:Hi; simpl.
  - destruct (scan_nonl _ _ _ _ Hp E) as [M N]. exists ds. split; [exact M|split; [exact N|]].
    intros ->. destruct ds; [discriminate|congruence].
  - left. exact (py_int_error _ _ _ Hi).
Qed.

Lemma rn_tail : forall sign st,
  rn_post sign st
  (match current_char st with
  | Some c =>
    if Ascii.eqb c "0"%char then
      match peek_char st with
      | None => Raise TypeError
      | Some p =>
          if char_in p "xX" then
            let (ds, st') := scan is_hex_char (advance (advance st)) in
            let num_str := sign +++ ds in
            match num_str with
            | EmptyString => Ok (0%Z, st')
            | _ => let* v := py_int 16 num_str in Ok (v, st')
            end
          else if char_in p "bB" then
            let (ds, st') := scan is_bin_char (advance (advance st)) in
            let num_str := sign +++ ds in
            match num_str with
            | EmptyString => Ok (0%Z, st')
            | _ => let* v := py_int 2 num_str in Ok (v, st')
            end
          else
            let (ds, st') := scan isdigit st in
            let* v := py_int 10 (sign +++ ds) in Ok (v, st')
      end
    else
      let (ds, st') := scan isdigit st in
      let* v := py_int 10 (sign +++ ds) in Ok (v, st')
  | None =>
      let (ds, st') := scan isdigit st in
      let* v := py_int 10 (sign +++ ds) in Ok (v, st')
  end).
Proof.
  intros sign st.
  destruct (current_char st) as [c|] eqn:Hc; [|apply scan_digits_post; reflexivity].
  destruct (Ascii.eqb c "0"%char) eqn:H0; [|apply scan_digits_post; reflexivity].
  destruct (peek_char st) as [p|] eqn:Hp; [|right; reflexivity].
  assert (Rst : exists s, rest st = String c (String p s)).
  { unfold current_char, peek_char in *.
    destruct (rest st) as [|c1 [|p1 s]]; try discriminate.
    injection Hc as ->; injection Hp as ->. exists s; reflexivity. }
  destruct Rst as [s Rst].
  apply Ascii.eqb_eq in H0; subst c.
  assert (Hpre : forall X, (X = true -> Ascii.eqb p "010"%char = false) ->
    forall q base, q "010"%char = false -> X = true ->
    rn_post sign st
      (let (ds, st') := scan q (advance (advance st)) in
       match sign +++ ds with
       | EmptyString => Ok (0%Z, st')
       | _ => let* v := py_int base (sign +++ ds) in Ok (v, st')
       end)).
  { intros X HX q base Hq HXt. specialize (HX HXt).
    destruct (advance_nonl st "0" (String p s) Rst eq_refl) as [M1 N1].
    assert (R1 : rest (advance st) = String p s).
    { destruct st as [r ln co]; simpl in Rst; subst r. unfold advance; simpl.
      destruct (step_pos "0" ln co); reflexivity. }
    destruct (advance_nonl (advance st) p s R1 HX) as [M2 N2].
    destruct (moved_nonl_trans _ _ _ _ _ M1 N1 M2 N2) as [M12 N12].
    destruct (scan q (advance (advance st))) as [ds st'] eqn:E.
    destruct (scan_nonl _ _ _ _ Hq E) as [M3 N3].
    destruct (moved_nonl_trans _ _ _ _ _ M12 N12 M3 N3) as [M N].
    destruct (sign +++ ds) eqn:Es.
    - exists ((String "0" "" +++ String p "") +++ ds). split; [exact M|split; [exact N|discriminate]].
    - destruct (py_int base (String a s0)) as [v|e] eqn:Hi; simpl.
      + exists ((String "0" "" +++ String p "") +++ ds). split; [exact M|split; [exact N|discriminate]].
      + left. exact (py_int_error _ _ _ Hi). }
  destruct (char_in p "xX") eqn:HX.
  { apply (Hpre (char_in p "xX")); [|reflexivity|exact HX].
    intros H; apply (char_in_nonl p "xX"); [exact H|reflexivity]. }
  destruct (char_in p "bB") eqn:HB.
  { apply (Hpre (char_in p "bB")); [|reflexivity|exact HB].
    intros H; apply (char_in_nonl p "bB"); [exact H|reflexivity]. }
  apply scan_digits_post; reflexivity.
Qed.

Lemma read_number_post : forall st,
  match read_number st with
  | Ok (_, st') => exists c, moved st st' c /\ count_nl c = 0 /\ c <> ""
  | Raise e => e = ValueError \/ e = TypeError
  end.
Proof.
  intros st. rewrite read_number_shape.
  destruct (current_char st) as [c|] eqn:Hc.
  - destruct (Ascii.eqb c "-"%char) eqn:Hm.
    + cbn beta iota. pose proof (rn_tail "-" (advance st)) as T. unfold rn_post in T.
      assert (Ra : exists s, rest st = String c s).
      { unfold current_char in Hc. destruct (rest st) as [|c1 s]; [discriminate|].
        injection Hc as ->. exists s; reflexivity. }
      destruct Ra as [s Ra].
      destruct (advance_nonl st c s Ra) as [M1 N1].
      { apply Ascii.eqb_eq in Hm; subst c; reflexivity. }
      match goal with |- match ?r with Ok _ => _ | Raise _ => _ end =>
        destruct r as [[n st']|e] end; [|exact T].
      destruct T as [c2 [M2 [N2 _]]].
      destruct (moved_nonl_trans _ _ _ _ _ M1 N1 M2 N2) as [M N].
      exists (String c "" +++ c2). split; [exact M|split; [exact N|discriminate]].
    + cbn beta iota. pose proof (rn_tail "" st) as T. unfold rn_post in T.
      rewrite Hc in T |- *.
      match goal with |- match ?r with Ok _ => _ | Raise _ => _ end =>
        destruct r as [[n st']|e] end; [|exact T].
      destruct T as [c2 [M2 [N2 Ne]]]. exists c2. auto.
  - cbn beta iota. pose proof (rn_tail "" st) as T. unfold rn_post in T.
    rewrite Hc in T |- *.
    match goal with |- match ?r with Ok _ => _ | Raise _ => _ end =>
      destruct r as [[n st']|e] end; [|exact T].
    destruct T as [c2 [M2 [N2 Ne]]]. exists c2. auto.
Qed.

Lemma step_fin : forall st st0 st' ws x ts,
  moved st st0 ws -> count_nl ws = 0 -> moved st0 st' x -> x <> "" ->
  nl_tokens ts = count_nl x ->
  Forall (fun t => line st0 <= tline t <= line st' /\ ttype t <> EOF) ts ->
  length ts <= 1 ->
  step_post st (Ok (Some (ts, st'))).
Proof.
  intros st st0 st' ws x ts M0 N0 M X Nl F Ln. exists (ws +++ x).
  split; [eapply moved_trans; eauto|].
  split; [destruct ws; [exact X|discriminate]|].
  split; [rewrite count_nl_app, N0; exact Nl|]. split; [exact Ln|].
  destruct M0 as [_ L0]. rewrite N0 in L0.
  eapply Forall_impl; [|exact F]. simpl. intros t [H1 H2]. split; [lia|exact H2].
Qed.

Lemma scan_first : forall p st c s ds st',
  rest st = String c s -> p c = true -> scan p st = (ds, st') -> ds <> "".
Proof.
  intros p [r ln co] c s ds st' R Hp E. simpl in R; subst r. unfold scan in E; simpl in E.
  rewrite Hp in E. destruct (step_pos c ln co) as [a b].
  destruct (scan_while p s a b) as [t st2]. injection E as <- _. discriminate.
Qed.

Lemma colon_match : forall o,
  match o with Some ":"%char => true | _ => false end = true -> o = Some ":"%char.
Proof. intros [c|]; [|discriminate]. all_ascii c; try discriminate; reflexivity. Qed.

Lemma semicolon_match : forall {A} (o : option ascii) (x y : A),
  o = Some ";"%char -> match o with Some ";"%char => x | _ => y end = x.
Proof. intros A o x y ->. reflexivity. Qed.

Lemma keyword_not_eof : forall k ty, dict_get k KEYWORD_DICT = Some ty -> ty <> EOF.
Proof.
  intros k ty H ->. apply dict_get_in in H. simpl in H.
  repeat destruct H as [H|H]; try discriminate; contradiction.
Qed.

Lemma current_rest : forall st c, current_char st = Some c -> exists s, rest st = String c s.
Proof.
  intros st c H. unfold current_char in H. destruct (rest st) as [|c1 s]; [discriminate|].
  injection H as ->. exists s; reflexivity.
Qed.

Lemma moved_line : forall st st' c, moved st st' c -> count_nl c = 0 -> line st' = line st.
Proof. intros st st' c [_ L] N. lia. Qed.

Lemma tokenize_step_post : forall st, step_post st (tokenize_step st).
Proof.
  intros st. unfold tokenize_step, _tokenize_operators.
  destruct (skip_whitespace_moved st) as [ws [Mw [Nw _]]].
  destruct (current_char (skip_whitespace st)) as [c|] eqn:Hc.
  2:{ simpl. destruct Mw as [R _]. unfold current_char in Hc.
      destruct (rest (skip_whitespace st)); [|discriminate].
      rewrite R, count_nl_app, Nw. reflexivity. }
  destruct (current_rest _ _ Hc) as [s Rs].
  set (st0 := skip_whitespace st) in *.
  destruct (Ascii.eqb c ";"%char) eqn:E1.
  { apply Ascii.eqb_eq in E1; subst c.
    unfold skip_comment. rewrite (semicolon_match _ _ _ Hc).
    destruct (scan _ st0) as [ds st'] eqn:E.
    destruct (scan_nonl _ _ _ _ eq_refl E) as [M N].
    (eapply step_fin; [idtac .. | simpl; lia]); [exact Mw|exact Nw|exact M| |simpl; symmetry; exact N|constructor].
    exact (scan_first _ _ _ _ _ _ Rs eq_refl E). }
  destruct (Ascii.eqb c ","%char) eqn:E2.
  { apply Ascii.eqb_eq in E2; subst c.
    destruct (advance_nonl st0 _ _ Rs eq_refl) as [M N].
    (eapply step_fin; [idtac .. | simpl; lia]); [exact Mw|exact Nw|exact M|discriminate|reflexivity|].
    constructor; [|constructor]. simpl. rewrite (moved_line _ _ _ M N). split; [lia|discriminate]. }
  destruct (Ascii.eqb c "010"%char) eqn:E3.
  { apply Ascii.eqb_eq in E3; subst c.
    pose proof (advance_moved _ _ _ Rs) as M.
    (eapply step_fin; [idtac .. | simpl; lia]); [exact Mw|exact Nw|exact M|discriminate|reflexivity|].
    constructor; [|constructor]. simpl. destruct M as [_ L]. simpl in L. split; [lia|discriminate]. }
  destruct (isdigit c || _) eqn:E4.
  { pose proof (read_number_post st0) as P.
    destruct (read_number st0) as [[num st']|e]; simpl; [|exact P].
    destruct P as [x [M [N X]]].
    (eapply step_fin; [idtac .. | simpl; lia]); [exact Mw|exact Nw|exact M|exact X|simpl; symmetry; exact N|].
    constructor; [|constructor]. simpl. rewrite (moved_line _ _ _ M N). split; [lia|discriminate]. }
  destruct (isalpha c || Ascii.eqb c "_"%char) eqn:E5.
  2:{ destruct (advance_nonl st0 _ _ Rs E3) as [M N].
      (eapply step_fin; [idtac .. | simpl; lia]); [exact Mw|exact Nw|exact M|discriminate|simpl; symmetry; exact N|constructor]. }
  unfold read_identifier.
  destruct (scan _ st0) as [ident st1] eqn:E.
  destruct (scan_nonl _ _ _ _ eq_refl E) as [M N].
  assert (X : ident <> "").
  { eapply scan_first; [exact Rs| |exact E]. cbn beta. unfold isalnum.
    apply orb_prop in E5 as [A|A]; rewrite A; [reflexivity|].
    rewrite !orb_true_r. reflexivity. }
  pose proof (moved_line _ _ _ M N) as L1.
  destruct (match current_char st1 with Some ":"%char => true | _ => false end) eqn:E6.
  { apply colon_match in E6. destruct (current_rest _ _ E6) as [s1 R1].
    destruct (advance_nonl st1 _ _ R1 eq_refl) as [M2 N2].
    destruct (moved_nonl_trans _ _ _ _ _ M N M2 N2) as [M3 N3].
    (eapply step_fin; [idtac .. | simpl; lia]); [exact Mw|exact Nw|exact M3| |rewrite N3; reflexivity|].
    - destruct ident; [congruence|discriminate].
    - constructor; [|constructor]. simpl. rewrite L1, (moved_line _ _ _ M2 N2). split; [lia|discriminate]. }
  assert (Fin : forall ty, ty <> EOF -> ty <> NEWLINE ->
    step_post st (Ok (Some ([mk ty (TVStr ident) st1], st1)))).
  { intros ty H1 H2. (eapply step_fin; [idtac .. | simpl; lia]); [exact Mw|exact Nw|exact M|exact X| |].
    - rewrite N. unfold nl_tokens; simpl. destruct (TokenType_eq_dec ty NEWLINE); [congruence|reflexivity].
    - constructor; [|constructor]. simpl. rewrite L1. split; [lia|exact H1]. }
  destruct (in_strings ident REGISTER_NAMES); [apply Fin; discriminate|].
  destruct (dict_get (upper ident) KEYWORD_DICT) as [ty|] eqn:Hd; [|apply Fin; discriminate].
  apply Fin; [exact (keyword_not_eof _ _ Hd)|].
  intros ->. apply dict_get_in in Hd. simpl in Hd.
  repeat destruct Hd as [Hd|Hd]; try discriminate; contradiction.
Qed.

Lemma sorted_from_mono : forall l lo lo', lo' <= lo -> sorted_from lo l = true -> sorted_from lo' l = true.
Proof.
  intros [|x l] lo lo' Hle H; simpl in *; [reflexivity|].
  apply andb_prop in H as [H1 H2]. apply Nat.leb_le in H1.
  rewrite H2, andb_true_r. apply Nat.leb_le. lia.
Qed.

Lemma sorted_from_app : forall a b lo m,
  sorted_from lo a = true -> Forall (fun x => x <= m) a -> lo <= m ->
  sorted_from m b = true -> sorted_from lo (a ++ b) = true.
Proof.
  intros a. induction a as [|x a IH]; intros b lo m Ha Fa Hlo Hb; simpl in *.
  - exact (sorted_from_mono b m lo Hlo Hb).
  - apply andb_prop in Ha as [H1 H2]. rewrite H1. simpl.
    inversion Fa; subst. eapply IH; eauto.
Qed.

Lemma sorted_from_short : forall (l : list nat) lo,
  length l <= 1 -> Forall (fun x => lo <= x) l -> sorted_from lo l = true.
Proof.
  intros [|x [|y l]] lo Hl F; simpl in *; try reflexivity; [|lia].
  inversion F; subst. apply andb_true_intro; split; [apply Nat.leb_le; assumption|reflexivity].
Qed.

Lemma string_length_app : forall a b, String.length (a +++ b) = String.length a + String.length b.
Proof. intros a b; induction a; simpl; [reflexivity|]. rewrite IHa; reflexivity. Qed.

Lemma nl_tokens_app : forall a b, nl_tokens (a ++ b) = nl_tokens a + nl_tokens b.
Proof. intros a b. unfold nl_tokens, token_types. rewrite map_app, count_occ_app. reflexivity. Qed.

Lemma tokenize_loop_post : forall fuel st acc,
  String.length (rest st) < fuel -> loop_post st acc (tokenize_loop fuel st acc).
Proof.
  induction fuel as [|fuel IH]; intros st acc Hf; [lia|].
  simpl. destruct (rest st) as [|c s] eqn:R.
  { exists []. rewrite R. simpl. rewrite app_nil_r. repeat split; [lia|constructor]. }
  pose proof (tokenize_step_post st) as P.
  destruct (tokenize_step st) as [[[ts1 st1]|]|e]; simpl; [|exists []; simpl in P|exact P].
  2:{ rewrite app_nil_r, P. repeat split; [lia|constructor]. }
  destruct P as [x [[Rx Lx] [X [Nx [Len F1]]]]].
  assert (Hlt : String.length (rest st1) < fuel).
  { rewrite R in Rx. assert (E := f_equal String.length Rx). rewrite string_length_app in E.
    destruct x; [congruence|]. simpl in Hf, E. lia. }
  specialize (IH st1 (acc ++ ts1) Hlt). unfold loop_post in IH.
  destruct (tokenize_loop fuel st1 (acc ++ ts1)) as [[toks stf]|e]; [|exact IH].
  destruct IH as [ts2 [-> [L2 [N2 [S2 F2]]]]].
  exists (ts1 ++ ts2). rewrite app_assoc. split; [reflexivity|].
  rewrite Rx, count_nl_app. split; [lia|]. split.
  { rewrite nl_tokens_app, Nx, N2. reflexivity. }
  split.
  - rewrite map_app. apply (sorted_from_app _ _ _ (line st1)).
    + apply sorted_from_short; [rewrite length_map; exact Len|].
      apply Forall_map. eapply Forall_impl; [|exact F1]. intros t [[A _] _]; exact A.
    + apply Forall_map. eapply Forall_impl; [|exact F1]. intros t [[_ A] _]; exact A.
    + lia.
    + exact S2.
  - apply Forall_app; split.
    + eapply Forall_impl; [|exact F1]. intros t [[A B] C]. split; [split; lia|exact C].
    + eapply Forall_impl; [|exact F2]. intros t [[A B] C]. split; [split; lia|exact C].
Qed.

Lemma tokenize_post : forall src,
  match tokenize src with
  | Ok toks =>
      exists ts t, toks = ts ++ [t] /\ ttype t = EOF /\ tline t = S (count_nl src) /\
        nl_tokens ts = count_nl src /\ sorted_from 1 (map tline toks) = true /\
        Forall (fun t => ttype t <> EOF) ts /\
        Forall (fun t => 1 <= tline t <= S (count_nl src)) toks
  | Raise e => e = ValueError \/ e = TypeError
  end.
Proof.
  intros src. unfold tokenize.
  pose proof (tokenize_loop_post (S (String.length src)) (LexSt src 1 1) [] ltac:(simpl; lia)) as P.
  destruct (tokenize_loop _ _ _) as [[toks stf]|e]; simpl; [|exact P].
  destruct P as [ts [-> [L [N [S F]]]]]. simpl in *.
  exists ts, (mk EOF TVNone stf). split; [reflexivity|]. split; [reflexivity|].
  split; [unfold mk; simpl; lia|]. split; [exact N|]. split.
  - rewrite map_app. apply (sorted_from_app _ _ _ (line stf)); [exact S| | |].
    + apply Forall_map. eapply Forall_impl; [|exact F]. intros t [[_ A] _]; exact A.
    + lia.
    + simpl. rewrite Nat.leb_refl. reflexivity.
  - split.
    + eapply Forall_impl; [|exact F]. intros t [_ A]; exact A.
    + apply Forall_app; split.
      * eapply Forall_impl; [|exact F]. intros t [A _]. lia.
      * constructor; [unfold mk; simpl; lia|constructor].
Qed.

(** X1: when [tokenize] raises, the exception is a [ValueError] (from
    [int(...)] on a malformed number) or a [TypeError] (from [None in "xX"]
    when a [0] ends the input); never anything else. *)
Theorem tokenize_error_kinds : forall src e, tokenize src = Raise e -> e = ValueError \/ e = TypeError.
Proof. intros src e H. pose proof (tokenize_post src) as T. rewrite H in T. exact T. Qed.

Lemma tokenize_error_kinds_witness : tokenize "-0x" = Raise ValueError /\ (ValueError = ValueError \/ ValueError = TypeError).
Proof. split; [vm_compute; reflexivity|]. apply (tokenize_error_kinds "-0x" ValueError). vm_compute. reflexivity. Defined.

(** X2: a successful [tokenize] ends with exactly one [EOF] token, the last
    one, on the line after the last newline of the source. *)
Theorem tokenize_eof_last : forall src toks, tokenize src = Ok toks ->
  exists ts t, toks = ts ++ [t] /\ ttype t = EOF /\ tline t = S (count_nl src) /\
    Forall (fun t => ttype t <> EOF) ts.
Proof.
  intros src toks H. pose proof (tokenize_post src) as T. rewrite H in T.
  destruct T as [ts [t [E [Ty [Ln [_ [_ [F _]]]]]]]]. exists ts, t. auto.
Qed.

Lemma tokenize_eof_last_witness : exists toks, tokenize lex_src = Ok toks /\
  exists ts t, toks = ts ++ [t] /\ ttype t = EOF /\ tline t = S (count_nl lex_src) /\
    Forall (fun t => ttype t <> EOF) ts.
Proof.
  assert (E1 : tokenize lex_src = Ok (match tokenize lex_src with Ok t => t | Raise _ => [] end))
    by (vm_compute; reflexivity).
  set (toks := match tokenize lex_src with Ok t => t | Raise _ => [] end) in E1.
  exists toks. split; [exact E1|]. exact (tokenize_eof_last lex_src toks E1).
Defined.

(** X3: a successful [tokenize] emits one [NEWLINE] token per newline
    character of the source, comments included. *)
Theorem tokenize_newline_count : forall src toks, tokenize src = Ok toks ->
  nl_tokens toks = count_nl src.
Proof.
  intros src toks H. pose proof (tokenize_post src) as T. rewrite H in T.
  destruct T as [ts [t [-> [Ty [_ [N _]]]]]].
  rewrite nl_tokens_app, N. unfold nl_tokens, token_types. simpl. rewrite Ty. simpl. lia.
Qed.

Lemma tokenize_newline_count_witness : exists toks, tokenize lex_src = Ok toks /\
  nl_tokens toks = count_nl lex_src.
Proof.
  assert (E1 : tokenize lex_src = Ok (match tokenize lex_src with Ok t => t | Raise _ => [] end))
    by (vm_compute; reflexivity).
  set (toks := match tokenize lex_src with Ok t => t | Raise _ => [] end) in E1.
  exists toks. split; [exact E1|]. exact (tokenize_newline_count lex_src toks E1).
Defined.

(** X4: the line numbers of the tokens of a successful [tokenize] start at 1,
    never decrease, and never exceed 1 + the number of newlines. *)
Theorem tokenize_lines_ordered : forall src toks, tokenize src = Ok toks ->
  sorted_from 1 (map tline toks) = true /\
  Forall (fun t => 1 <= tline t <= S (count_nl src)) toks.
Proof.
  intros src toks H. pose proof (tokenize_post src) as T. rewrite H in T.
  destruct T as [ts [t [E [_ [_ [_ [S [_ F]]]]]]]]. auto.
Qed.

Lemma tokenize_lines_ordered_witness : exists toks, tokenize lex_src = Ok toks /\
  sorted_from 1 (map tline toks) = true /\
  Forall (fun t => 1 <= tline t <= S (count_nl lex_src)) toks.
Proof.
  assert (E1 : tokenize lex_src = Ok (match tokenize lex_src with Ok t => t | Raise _ => [] end))
    by (vm_compute; reflexivity).
  set (toks := match tokenize lex_src with Ok t => t | Raise _ => [] end) in E1.
  exists toks. split; [exact E1|]. exact (tokenize_lines_ordered lex_src toks E1).
Defined.

(** ** The parser's cursor *)

Lemma suffix_refl : forall ts, suffix ts ts.
Proof. intros ts; exists []; reflexivity. Qed.

Lemma suffix_trans : forall a b c, suffix a b -> suffix b c -> suffix a c.
Proof. intros a b c [p ->] [q ->]. exists (q ++ p). apply app_assoc. Qed.

Lemma suffix_tl : forall ts, suffix (tl ts) ts.
Proof. intros [|t ts]; [exists []|exists [t]]; reflexivity. Qed.

Lemma suffix_length : forall a b, suffix a b -> length a <= length b.
Proof. intros a b [p ->]. rewrite length_app. lia. Qed.

Lemma err_in_suffix : forall lt a b e, suffix a b -> err_in lt a e -> err_in lt b e.
Proof.
  intros lt a b e [p ->] [t [Hin ->]]. exists t. split; [|reflexivity].
  rewrite <- app_assoc. apply in_or_app. right. exact Hin.
Qed.

Lemma within_weaken : forall A lt a b (r : outcome (A * list token)),
  suffix a b -> within lt a r -> within lt b r.
Proof.
  intros A lt a b [[x ts']|e] S W; simpl in *.
  - eapply suffix_trans; eassumption.
  - eapply err_in_suffix; eassumption.
Qed.

Lemma within_bind : forall A B lt ts (m : outcome (A * list token))
  (k : A * list token -> outcome (B * list token)),
  within lt ts m -> (forall a ts', suffix ts' ts -> within lt ts' (k (a, ts'))) ->
  within lt ts (bind m k).
Proof.
  intros A B lt ts [[a ts']|e] k W K; simpl in *; [|exact W].
  eapply within_weaken; [exact W|apply K; exact W].
Qed.

Lemma within_ok : forall A lt ts ts' (a : A), suffix ts' ts -> within lt ts (Ok (a, ts')).
Proof. intros; assumption. Qed.

Lemma current_in : forall lt ts, In (current_token lt ts) (ts ++ [lt]).
Proof. intros lt [|t ts]; simpl; auto. Qed.

Lemma within_cur_err : forall A lt ts ts', suffix ts' ts ->
  within lt ts (Raise (A := A * list token) (SyntaxError (tline (current_token lt ts')))).
Proof.
  intros A lt ts ts' S. simpl. eapply err_in_suffix; [exact S|].
  exists (current_token lt ts'). split; [apply current_in|reflexivity].
Qed.

Lemma skip_newlines_suffix : forall lt ts, suffix (skip_newlines lt ts) ts.
Proof.
  intros lt ts. induction ts as [|t ts IH]; simpl.
  - destruct (TokenType_beq (ttype lt) NEWLINE); apply suffix_refl.
  - destruct (TokenType_beq (ttype t) NEWLINE).
    + eapply suffix_trans; [exact IH|]. exists [t]; reflexivity.
    + apply suffix_refl.
Qed.

Lemma suffix_skip_trans : forall lt a b, suffix a b -> suffix (skip_newlines lt a) b.
Proof. intros. eapply suffix_trans; [apply skip_newlines_suffix|eassumption]. Qed.

Lemma suffix_padvance_trans : forall a b, suffix a b -> suffix (padvance a) b.
Proof. intros. eapply suffix_trans; [apply suffix_tl|eassumption]. Qed.

Create HintDb suff.
#[local] Hint Resolve suffix_refl suffix_skip_trans suffix_padvance_trans : suff.
#[local] Hint Extern 3 (suffix _ _) => eapply suffix_trans; [eassumption|] : suff.

Lemma expect_within : forall lt k ts, within lt ts (expect lt k ts).
Proof.
  intros lt k ts. unfold expect. destruct (TokenType_beq _ _).
  - apply suffix_tl.
  - apply within_cur_err, suffix_refl.
Qed.

Lemma take_value_within : forall lt ks ts, within lt ts (take_value lt ks ts).
Proof.
  intros lt ks ts. unfold take_value. destruct (in_types _ _).
  - apply suffix_tl.
  - apply within_cur_err, suffix_refl.
Qed.

Lemma take_str_within : forall lt k ts, within lt ts (take_str lt k ts).
Proof.
  intros. unfold take_str. apply within_bind; [apply expect_within|]. intros a ts' _. apply suffix_refl.
Qed.

Lemma take_int_within : forall lt k ts, within lt ts (take_int lt k ts).
Proof.
  intros. unfold take_int. apply within_bind; [apply expect_within|]. intros a ts' _. apply suffix_refl.
Qed.

Lemma parse_condition_within : forall lt ts, within lt ts (parse_condition lt ts).
Proof.
  intros. unfold parse_condition. apply within_bind; [apply take_value_within|]. intros a ts' _. cbn beta iota.
  destruct (in_types _ _).
  - eapply within_weaken; [apply suffix_tl|]. apply within_bind; [apply take_value_within|].
    intros; apply suffix_refl.
  - apply within_cur_err, suffix_refl.
Qed.

Ltac wsolve :=
  repeat match goal with
  | |- within _ _ (bind _ _) => apply within_bind; [wsolve|intros ? ? ?; cbn beta iota]
  | |- within _ ?ts (expect _ _ ?ts) => apply expect_within
  | |- within _ ?ts (take_value _ _ ?ts) => apply take_value_within
  | |- within _ ?ts (take_str _ _ ?ts) => apply take_str_within
  | |- within _ ?ts (take_int _ _ ?ts) => apply take_int_within
  | |- within _ ?ts (parse_condition _ ?ts) => apply parse_condition_within
  | |- within _ ?ts (Ok _) => apply within_ok; solve [eauto 6 with suff]
  | |- within _ ?ts (Raise (SyntaxError (tline (current_token _ _)))) =>
        apply within_cur_err; solve [eauto 6 with suff]
  | |- within _ ?ts (if ?b then _ else _) => destruct b
  | H : forall stops ts', suffix ts' _ -> within _ ts' (?blk stops ts') |- within _ ?ts (?blk _ ?ts) =>
        apply H; solve [eauto 10 with suff]
  | |- within _ ?ts (?f (padvance ?ts)) =>
        apply (within_weaken _ _ (padvance ts)); [apply suffix_tl|]
  | |- within _ ?ts (?f (skip_newlines ?l ?ts)) =>
        apply (within_weaken _ _ (skip_newlines l ts)); [apply skip_newlines_suffix|]
  | |- within _ ?ts (?f (skip_newlines ?l (padvance ?ts))) =>
        apply (within_weaken _ _ (skip_newlines l (padvance ts)));
          [eapply suffix_trans; [apply skip_newlines_suffix|apply suffix_tl]|]
  end.

Lemma expect_head : forall lt k t r, ttype t = k -> expect lt k (t :: r) = Ok (t, r).
Proof.
  intros lt k t r H. unfold expect. simpl. rewrite H.
  destruct (TokenType_beq k k) eqn:E; [reflexivity|].
  rewrite (internal_TokenType_dec_lb k k eq_refl) in E. discriminate.
Qed.

Ltac head_expect H := unfold bind at 1; rewrite (expect_head _ _ _ _ H); cbn beta iota.

Lemma parse_simple_within : forall lt t r,
  (ttype t = VAR -> within lt r (parse_var_decl lt (t :: r))) /\
  (ttype t = LOAD -> within lt r (parse_load lt (t :: r))) /\
  (ttype t = SET -> within lt r (parse_set lt (t :: r))) /\
  (ttype t = MOVE -> within lt r (parse_move lt (t :: r))) /\
  (ttype t = NOT -> within lt r (parse_not lt (t :: r))) /\
  (ttype t = CMP -> within lt r (parse_compare lt (t :: r))) /\
  (ttype t = LABEL -> within lt r (parse_label lt (t :: r))) /\
  (ttype t = CALL -> within lt r (parse_call lt (t :: r))) /\
  (ttype t = RET -> within lt r (parse_return lt (t :: r))) /\
  (ttype t = PUSH -> within lt r (parse_push lt (t :: r))) /\
  (ttype t = POP -> within lt r (parse_pop lt (t :: r))) /\
  (ttype t = PRINT -> within lt r (parse_print lt (t :: r))) /\
  (ttype t = INPUT -> within lt r (parse_input lt (t :: r))) /\
  within lt r (parse_binary_op lt (t :: r)) /\
  within lt r (parse_unary_op lt (t :: r)) /\
  within lt r (parse_shift lt (t :: r)) /\
  within lt r (parse_jump lt (t :: r)).
Proof.
  intros lt t r.
  repeat split; try intros H;
  [ unfold parse_var_decl | unfold parse_load | unfold parse_set | unfold parse_move
  | unfold parse_not | unfold parse_compare | unfold parse_label | unfold parse_call
  | unfold parse_return | unfold parse_push | unfold parse_pop | unfold parse_print
  | unfold parse_input | unfold parse_binary_op | unfold parse_unary_op
  | unfold parse_shift | unfold parse_jump ];
  try (unfold take_str at 1; head_expect H);
  try head_expect H; cbv zeta; simpl padvance; unfold cur_type; wsolve;
  simpl; apply suffix_refl.
Qed.

Lemma parse_nested_within : forall lt (block : block_parser) t r,
  (forall stops ts', suffix ts' r -> within lt ts' (block stops ts')) ->
  (ttype t = FUNC -> within lt r (parse_function lt block (t :: r))) /\
  (ttype t = LOOP -> within lt r (parse_loop lt block (t :: r))) /\
  (ttype t = WHILE -> within lt r (parse_while lt block (t :: r))) /\
  (ttype t = FOR -> within lt r (parse_for lt block (t :: r))) /\
  (ttype t = REPEAT -> within lt r (parse_repeat lt block (t :: r))) /\
  (ttype t = IF -> within lt r (parse_if lt block (t :: r))).
Proof.
  intros lt block t r HB.
  repeat split; intros H;
  [ unfold parse_function | unfold parse_loop | unfold parse_while | unfold parse_for
  | unfold parse_repeat | unfold parse_if ];
  head_expect H; unfold cur_type; wsolve.
Qed.

Lemma suffix_head_in : forall t r ts, suffix (t :: r) ts -> In t ts.
Proof. intros t r ts [p ->]. apply in_or_app. right. left. reflexivity. Qed.

Lemma some_stmt_within1 : forall lt ts t r m,
  suffix (t :: r) ts -> within lt r m -> within1 lt ts (some_stmt m).
Proof.
  intros lt ts t r [[s ts']|e] S W; simpl in *.
  - split.
    + eapply suffix_trans; [exact W|]. eapply suffix_trans; [|exact S]. apply (suffix_tl (t :: r)).
    + apply suffix_length in W. apply suffix_length in S. simpl in S. lia.
  - eapply err_in_suffix; [|exact W]. eapply suffix_trans; [|exact S]. apply (suffix_tl (t :: r)).
Qed.

Lemma parse_fuel : forall lt, ttype lt = EOF -> forall f,
  (forall ts, 2 * length ts + 1 <= f -> within1 lt ts (parse_statement lt f ts)) /\
  (forall stops ts, 2 * length ts + 2 <= f -> within lt ts (parse_block lt f stops ts)).
Proof.
  intros lt Hlt f. induction f as [|f [IHs IHb]].
  { split; intros; lia. }
  split.
  - intros ts Hf. simpl.
    pose proof (skip_newlines_suffix lt ts) as Sk.
    destruct (skip_newlines lt ts) as [|t r] eqn:E.
    + simpl. rewrite Hlt. simpl. exists lt. split; [apply in_or_app; right; left; reflexivity|reflexivity].
    + assert (Lr : length r < length ts) by (apply suffix_length in Sk; simpl in Sk; lia).
      assert (HB : forall stops ts', suffix ts' r -> within lt ts' (parse_block lt f stops ts')).
      { intros stops ts' S'. apply IHb. apply suffix_length in S'. lia. }
      destruct (parse_simple_within lt t r) as
        (Hvar & Hload & Hset & Hmove & Hnot & Hcmp & Hlabel & Hcall & Hret & Hpush & Hpop
         & Hprint & Hinput & Hbin & Hun & Hshift & Hjump).
      destruct (parse_nested_within lt (parse_block lt f) t r HB) as
        (Hfunc & Hloop & Hwhile & Hfor & Hrepeat & Hif).
      simpl current_token. destruct (ttype t) eqn:Ht;
        try (eapply some_stmt_within1; [exact Sk|]; solve [auto]);
        try (simpl; split; [eapply suffix_trans; [apply (suffix_tl (t :: r))|exact Sk]|exact Lr]);
        (simpl; exists t; split; [apply in_or_app; left; eapply suffix_head_in; exact Sk|reflexivity]).
  - intros stops ts Hf. simpl.
    destruct (in_types _ _); [apply suffix_refl|].
    specialize (IHs ts ltac:(lia)).
    destruct (parse_statement lt f ts) as [[o ts']|e]; simpl in *; [|exact IHs].
    destruct IHs as [S1 L1].
    specialize (IHb stops (skip_newlines lt ts')).
    pose proof (skip_newlines_suffix lt ts') as S2.
    assert (W := IHb ltac:(apply suffix_length in S2; lia)).
    destruct (parse_block lt f stops (skip_newlines lt ts')) as [[body ts'']|e]; simpl in *.
    + eapply suffix_trans; [exact W|]. eapply suffix_trans; eassumption.
    + eapply err_in_suffix; [|exact W]. eapply suffix_trans; eassumption.
Qed.

(** ** What the parser builds from lexed source *)

Ltac single_ok :=
  apply Forall_cons; [|apply Forall_nil];
  split; [simpl; tauto
         |let Hin := fresh in intros Hin; simpl in Hin; repeat (destruct Hin as [Hin|Hin]; [discriminate|]); contradiction].

Lemma tokenize_step_ok : forall st r,
  tokenize_step st = Ok (Some r) -> Forall tok_ok (fst r).
Proof.
  intros st [ts st'] H. unfold tokenize_step in H.
  destruct (current_char (skip_whitespace st)) as [c|] eqn:Hc; [|discriminate].
  repeat match type of H with
  | context [if ?b then _ else _] => destruct b
  end;
  try (injection H as <- <-; simpl; first [apply Forall_nil | single_ok]).
  all: try (destruct (read_number _) as [[num st2]|e]; simpl in H;
            [injection H as <- <-; single_ok | discriminate]).
  all: destruct (read_identifier _) as [ident st2]; cbn beta iota zeta in H;
    destruct (dict_get (upper ident) KEYWORD_DICT) as [ty|] eqn:Hd;
    repeat match type of H with
    | context [if ?b then _ else _] => destruct b
    end;
    injection H as <- <-; try single_ok.
  all: apply Forall_cons; [|apply Forall_nil]; simpl; split; [|intros _; exact Hd].
  all: do 7 right; exact (dict_get_in _ _ _ Hd).
Qed.

Lemma tokenize_loop_ok : forall fuel st acc toks st',
  Forall tok_ok acc -> tokenize_loop fuel st acc = Ok (toks, st') -> Forall tok_ok toks.
Proof.
  induction fuel as [|fuel IH]; intros st acc toks st' Hacc H; simpl in H;
    destruct (rest st); try (injection H as <- _; exact Hacc); try discriminate.
  destruct (tokenize_step st) as [[[ts st2]|]|e] eqn:Hs; simpl in H; try discriminate.
  - eapply IH; [|exact H]. apply Forall_app; split; [exact Hacc|].
    apply (tokenize_step_ok _ _ Hs).
  - injection H as <- _. exact Hacc.
Qed.

Lemma tokenize_ok : forall src toks, tokenize src = Ok toks -> Forall tok_ok toks.
Proof.
  intros src toks H. unfold tokenize in H.
  destruct (tokenize_loop _ _ _) as [[ts st]|e] eqn:Hl; simpl in H; [|discriminate].
  injection H as <-. apply Forall_app; split.
  - eapply tokenize_loop_ok; [constructor|exact Hl].
  - single_ok.
Qed.

Lemma dict_get_key : forall k d ty, dict_get k d = Some ty -> In (k, ty) d.
Proof.
  intros k d ty. induction d as [|[k' v] d IH]; simpl; [discriminate|].
  destruct (String.eqb k k') eqn:E; [intros Hs; injection Hs as <-; left; apply String.eqb_eq in E; subst; reflexivity|].
  intros H. right. apply IH; exact H.
Qed.

Lemma no_comparison : forall k, In k lexer_kinds -> in_types k [EQ; NEQ; GT; LT; GTE; LTE] = false.
Proof.
  intros k H; destruct k; try reflexivity; exfalso; simpl in H; intuition discriminate.
Qed.

Lemma suffix_forall : forall (P : token -> Prop) a b, suffix a b -> Forall P b -> Forall P a.
Proof. intros P a b [p ->] F. apply Forall_app in F. tauto. Qed.

Lemma cur_kind : forall lt ts, ttype lt = EOF -> Forall tok_ok ts ->
  In (ttype (current_token lt ts)) lexer_kinds.
Proof.
  intros lt [|t ts] H F; simpl.
  - rewrite H. simpl. tauto.
  - inversion F; subst. apply H2.
Qed.

Lemma parse_condition_fails : forall lt ts c ts', ttype lt = EOF -> Forall tok_ok ts ->
  parse_condition lt ts <> Ok (c, ts').
Proof.
  intros lt ts c ts' Hlt F H. unfold parse_condition in H.
  pose proof (take_value_within lt [REGISTER; IDENTIFIER; NUMBER] ts) as W.
  destruct (take_value _ _ _) as [[l ts1]|e]; cbn [bind] in H; simpl in W; [|discriminate].
  rewrite (no_comparison _ (cur_kind lt ts1 Hlt (suffix_forall _ _ _ W F))) in H. discriminate.
Qed.

Ltac unbind H :=
  repeat match type of H with
  | context [bind ?m _] => let E := fresh "E" in
      destruct m as [[? ?]|?] eqn:E; cbn [bind] in H; try discriminate H
  | context [if ?b then _ else _] => let E := fresh "E" in
      destruct b eqn:E; try discriminate H
  end.

Lemma nodup_snd_key : forall (d : list (string * TokenType)) a b ty,
  NoDup (map snd d) -> In (a, ty) d -> In (b, ty) d -> a = b.
Proof.
  intros d a b ty. induction d as [|[k v] d IH]; simpl; [tauto|].
  intros N Ha Hb. inversion N as [|x y Nv Nd]; subst.
  destruct Ha as [Ha|Ha], Hb as [Hb|Hb].
  - injection Ha as -> ->. injection Hb as ->. reflexivity.
  - injection Ha as -> ->. exfalso. apply Nv. exact (in_map snd _ _ Hb).
  - injection Hb as -> ->. exfalso. apply Nv. exact (in_map snd _ _ Ha).
  - exact (IH Nd Ha Hb).
Qed.

Lemma keyword_types_nodup : NoDup (map snd KEYWORD_DICT).
Proof. simpl. repeat constructor; simpl; intuition discriminate. Qed.

Lemma keyword_spelled : forall t k,
  tok_ok t -> In (k, ttype t) KEYWORD_DICT -> upper (as_str (tvalue t)) = k.
Proof.
  intros t k [_ K] Hk. specialize (K (in_map snd _ _ Hk)).
  apply dict_get_key in K.
  exact (nodup_snd_key _ _ _ _ keyword_types_nodup K Hk).
Qed.

Lemma some_stmt_inv : forall (m : outcome (stmt * list token)) s ts',
  some_stmt m = Ok (Some s, ts') -> m = Ok (s, ts').
Proof. intros [[s0 l]|e] s ts' H; simpl in H; [injection H as -> ->; reflexivity|discriminate]. Qed.

Lemma in_types_In : forall k l, In k l -> in_types k l = true.
Proof.
  intros k l H. apply existsb_exists. exists k. split; [exact H|].
  apply internal_TokenType_dec_lb. reflexivity.
Qed.

Lemma not_lexed : forall t, tok_ok t ->
  in_types (ttype t) [CMP; JMP; JE; JNE; JG; JL; JGE; JLE; LOOP; WHILE; FOR; REPEAT; PUSH; POP]
  = false.
Proof.
  intros t [K _]. apply in_types_In in K. destruct (ttype t); try reflexivity; discriminate K.
Qed.

Lemma parse_src : forall lt, ttype lt = EOF -> forall f,
  (forall ts s ts', 2 * length ts + 1 <= f -> Forall tok_ok ts ->
     parse_statement lt f ts = Ok (Some s, ts') -> from_source s = true) /\
  (forall stops ts body ts', 2 * length ts + 2 <= f -> Forall tok_ok ts ->
     parse_block lt f stops ts = Ok (body, ts') -> forallb from_source body = true).
Proof.
  intros lt Hlt f. induction f as [|f [IHs IHb]]; [split; intros; lia|].
  split.
  - intros ts s ts' Hf F H. cbn [parse_statement] in H.
    pose proof (skip_newlines_suffix lt ts) as Sk.
    destruct (skip_newlines lt ts) as [|t r] eqn:Es.
    + cbn [current_token] in H. rewrite Hlt in H. discriminate.
    + pose proof (suffix_forall _ _ _ Sk F) as Ftr. inversion Ftr as [|x y Tt Fr]; subst.
      assert (Lr : length r < length ts) by (apply suffix_length in Sk; simpl in Sk; lia).
      cbn [current_token] in H.
      pose proof (not_lexed t Tt) as NL.
      destruct (ttype t) eqn:Ht;
        try (rewrite ?Ht in NL; simpl in NL; discriminate NL);
        try discriminate H;
        try (injection H as <- <-; reflexivity).
      (* IF: the condition never parses *)
      all: try match goal with Ht : ttype _ = IF |- _ =>
            exfalso; unfold some_stmt, parse_if in H;
            rewrite (expect_head _ _ _ _ Ht) in H; cbn [bind] in H;
            destruct (parse_condition lt r) as [[c ts2]|e] eqn:Ec; cbn [bind] in H; [|discriminate H];
            exact (parse_condition_fails lt r c ts2 Hlt Fr Ec) end.
      all: try match goal with Ht : ttype _ = FUNC |- _ =>
            unfold some_stmt, parse_function in H;
            rewrite (expect_head _ _ _ _ Ht) in H; cbn [bind] in H;
            let W := fresh "W" in let W2 := fresh "W2" in let Eb := fresh "Eb" in
            pose proof (take_str_within lt IDENTIFIER r) as W;
            destruct (take_str lt IDENTIFIER r) as [[name ts2]|e]; cbn [bind] in H; [|discriminate H];
            simpl in W; pose proof (skip_newlines_suffix lt ts2) as W2;
            destruct (parse_block lt f [ENDFUNC] (skip_newlines lt ts2)) as [[body ts3]|e] eqn:Eb;
              cbn [bind] in H; [|discriminate H];
            destruct (expect lt ENDFUNC ts3) as [[? ?]|e]; cbn [bind] in H; [|discriminate H];
            injection H as <- <-; cbn [from_source];
            eapply IHb; [|eapply suffix_forall; [exact W2|eapply suffix_forall; [exact W|exact Fr]]|exact Eb];
            apply suffix_length in W; apply suffix_length in W2; lia end.
      all: apply some_stmt_inv in H;
           unfold parse_var_decl, parse_load, parse_set, parse_move, parse_binary_op,
             parse_unary_op, parse_not, parse_shift, parse_label, parse_call, parse_return,
             parse_print, parse_input in H;
           unbind H; injection H as <- <-; cbn [from_source current_token]; try reflexivity.
      all: first [ rewrite (keyword_spelled t "ADD" Tt) by (rewrite Ht; simpl; tauto)
                 | rewrite (keyword_spelled t "SUB" Tt) by (rewrite Ht; simpl; tauto)
                 | rewrite (keyword_spelled t "MUL" Tt) by (rewrite Ht; simpl; tauto)
                 | rewrite (keyword_spelled t "DIV" Tt) by (rewrite Ht; simpl; tauto)
                 | rewrite (keyword_spelled t "AND" Tt) by (rewrite Ht; simpl; tauto)
                 | rewrite (keyword_spelled t "OR" Tt) by (rewrite Ht; simpl; tauto)
                 | rewrite (keyword_spelled t "XOR" Tt) by (rewrite Ht; simpl; tauto)
                 | rewrite (keyword_spelled t "INC" Tt) by (rewrite Ht; simpl; tauto)
                 | rewrite (keyword_spelled t "DEC" Tt) by (rewrite Ht; simpl; tauto)
                 | rewrite (keyword_spelled t "SHL" Tt) by (rewrite Ht; simpl; tauto)
                 | rewrite (keyword_spelled t "SHR" Tt) by (rewrite Ht; simpl; tauto) ];
           reflexivity.
  - intros stops ts body ts' Hf F H. cbn [parse_block] in H.
    destruct (in_types _ _); [injection H as <- _; reflexivity|].
    destruct (parse_fuel lt Hlt f) as [PS _].
    specialize (PS ts ltac:(lia)).
    destruct (parse_statement lt f ts) as [[o ts1]|e] eqn:E1; cbn [bind] in H; [|discriminate H].
    destruct PS as [S1 L1]. pose proof (skip_newlines_suffix lt ts1) as S2.
    destruct (parse_block lt f stops (skip_newlines lt ts1)) as [[body' ts2]|e] eqn:E2;
      cbn [bind] in H; [|discriminate H].
    injection H as <- _.
    assert (B : forallb from_source body' = true).
    { eapply IHb; [|eapply suffix_forall; [exact S2|eapply suffix_forall; [exact S1|exact F]]|exact E2].
      apply suffix_length in S2. lia. }
    destruct o as [s|]; simpl; [|exact B].
    rewrite (IHs ts s ts1 ltac:(lia) F E1). exact B.
Qed.

(** X7: every top-level statement [parse] builds from lexed source is of a
    kind [from_source] admits: no [Compare], [Jump], [Loop], [While], [For],
    [Repeat], [If], [Push] or [Pop] node, and arithmetic only with the
    operator names the lexer's keywords produce. *)
Theorem parsed_source_statements : forall src toks p,
  tokenize src = Ok toks -> parse toks = Ok p -> forallb from_source (statements p) = true.
Proof.
  intros src toks p Ht Hp.
  pose proof (tokenize_post src) as T. rewrite Ht in T.
  destruct T as [ts [t [Et [Eof _]]]].
  assert (Hl : ttype (last_token toks) = EOF) by (unfold last_token; rewrite Et, last_last; exact Eof).
  destruct (parse_src _ Hl (2 * length toks + 2)) as [_ PB].
  unfold parse in Hp.
  destruct (parse_block _ _ _ _) as [[ss ts']|e] eqn:E; cbn [bind] in Hp; [|discriminate Hp].
  injection Hp as <-. simpl.
  exact (PB [EOF] toks ss ts' (le_n _) (tokenize_ok src toks Ht) E).
Qed.

Lemma parsed_source_statements_witness :
  exists toks p, tokenize fn_src = Ok toks /\ parse toks = Ok p /\
    forallb from_source (statements p) = true.
Proof.
  assert (E1 : tokenize fn_src = Ok (match tokenize fn_src with Ok t => t | Raise _ => [] end))
    by (vm_compute; reflexivity).
  set (toks := match tokenize fn_src with Ok t => t | Raise _ => [] end) in E1.
  assert (E2 : parse toks = Ok (match parse toks with Ok p => p | Raise _ => MkProgram [] end))
    by (vm_compute; reflexivity).
  set (p := match parse toks with Ok p => p | Raise _ => MkProgram [] end) in E2.
  exists toks, p. split; [exact E1|]. split; [exact E2|].
  exact (parsed_source_statements fn_src toks p E1 E2).
Defined.

(** ** Generator layout and lowering *)

Lemma generate_body_app : forall l1 l2 st,
  generate_body (l1 ++ l2) st = generate_body l2 (generate_body l1 st).
Proof. intros l1. induction l1 as [|s l1 IH]; intros l2 st; simpl; [reflexivity|apply IH]. Qed.

Lemma count_body_app : forall l1 l2, count_body (l1 ++ l2) = count_body l1 + count_body l2.
Proof. intros l1. induction l1 as [|s l1 IH]; intros l2; simpl; [reflexivity|rewrite IH; lia]. Qed.

Lemma text_exit : forall st,
  text_section (_add_exit_code (_add_io_buffers st)) = text_section st ++ exit_lines.
Proof.
  intros [d b t c v np nr fs]. unfold _add_exit_code, _add_io_buffers, when, exit_lines.
  destruct np, nr; simpl; rewrite <- !app_assoc; reflexivity.
Qed.

Lemma fn_ok_false : forall fs, Forall (fn_ok false) fs.
Proof. intros fs. induction fs; constructor; [intros H; discriminate H|assumption]. Qed.

Lemma text_grows : forall st st', extends false st st' ->
  exists d, text_section st' = text_section st ++ d.
Proof. intros st st' [_ [_ [[d [E _]] _]]]. exists d. exact E. Qed.

Lemma main_no_functions : forall m st, count_body m = 0 ->
  functions (generate_body m st) = functions st.
Proof.
  intros m st H. destruct (eff_body m st) as [_ [_ E]]. rewrite E.
  rewrite count_body_pot in H. rewrite (pot_nil _ (Nat.eq_le_incl _ _ H)), app_nil_r. reflexivity.
Qed.

Lemma count_body_function : forall name body,
  count_body [Function name body] = S (count_body body).
Proof. intros. simpl. rewrite Nat.add_0_r. reflexivity. Qed.

(** X8: the code of a function is placed after the main code and before
    the exit sequence: appending [FUNC name ... ENDFUNC] to a main body
    without functions inserts [name:] and its body between the main
    code's lines and the exit code, so main falls through into it. *)
Theorem function_after_main : forall m name body,
  count_body m = 0 ->
  exists T B,
    text_section (before_helpers (MkProgram m)) = T ++ exit_lines /\
    text_section (before_helpers (MkProgram (m ++ [Function name body])))
      = T ++ [name +++ ":"] ++ B ++ exit_lines.
Proof.
  intros m name body Hm.
  set (st0 := emit_label "main_code" (_initialize_sections init_gstate)).
  set (stm := generate_body m st0).
  assert (Fm : functions stm = []) by (unfold stm; rewrite main_no_functions by exact Hm; reflexivity).
  set (stf := set_functions [(name, body)] stm).
  destruct (text_grows (emit_label name stf)
             (run_functions (count_body body) 1 (generate_function name body stf))) as [B EB].
  { apply (extends_trans false _ (generate_function name body stf)).
    - unfold generate_function. apply extends_body. discriminate.
    - apply extends_run. apply fn_ok_false. }
  exists (text_section stm), B. split.
  - unfold before_helpers. rewrite text_exit. unfold _generate_program_body. cbn [statements].
    rewrite Hm. fold st0. fold stm. reflexivity.
  - unfold before_helpers. rewrite text_exit. unfold _generate_program_body. cbn [statements].
    rewrite count_body_app, Hm, count_body_function, Nat.add_0_l. fold st0.
    rewrite generate_body_app. fold stm. simpl generate_body.
    replace (set_functions (functions stm ++ [(name, body)]) stm) with stf
      by (unfold stf; rewrite Fm; reflexivity).
    cbn [run_functions]. replace (nth_error (functions stf) 0) with (Some (name, body)) by reflexivity.
    cbv iota beta. rewrite EB. unfold emit_label. cbn [text_section set_text].
    replace (text_section stf) with (text_section stm) by reflexivity.
    rewrite <- !app_assoc. reflexivity.
Qed.

Lemma function_after_main_witness :
  count_body [Load "R1" (VInt 1)] = 0 /\
  exists T B,
    text_section (before_helpers (MkProgram [Load "R1" (VInt 1)])) = T ++ exit_lines /\
    text_section (before_helpers (MkProgram ([Load "R1" (VInt 1)] ++ [Function "f" [Return None]])))
      = T ++ ["f" +++ ":"] ++ B ++ exit_lines.
Proof.
  split; [reflexivity|]. apply function_after_main. reflexivity.
Defined.

(** X9: [NOT dest, src] with a register [src] is lowered like [MOVE dest,
    src]: no [not] instruction, only a [mov] when the registers differ. *)
Theorem not_is_move : forall dest src right_ st, is_register src = true ->
  generate_statement (BinaryOp "NOT" dest src right_) st =
  if String.eqb (get_register dest) (get_register src) then st
  else generate_move dest (VStr src) st.
Proof.
  intros dest src right_ st Hr. cbn [generate_statement]. unfold generate_binary_op.
  cbn -[when get_register right_operand_of emit]. unfold generate_move. rewrite Hr.
  unfold when. destruct (String.eqb (get_register dest) (get_register src)); reflexivity.
Qed.

Lemma not_is_move_witness : is_register "R2" = true /\
  generate_statement (BinaryOp "NOT" "R1" "R2" (VInt 0)) init_gstate =
  if String.eqb (get_register "R1") (get_register "R2") then init_gstate
  else generate_move "R1" (VStr "R2") init_gstate.
Proof. split; [reflexivity|]. apply (not_is_move "R1" "R2" (VInt 0) init_gstate). reflexivity. Defined.

(** X10: declaring the same variable twice emits its definition line twice
    (in [.data] with values, in [.bss] without), while [variables] records
    the name once. *)
Theorem var_decl_twice : forall name st,
  (forall v1 v2,
     data_section (generate_body [VarDecl name (Some v1); VarDecl name (Some v2)] st) =
     data_section st ++ ["    " +++ name +++ " dq " +++ show_Z v1;
                         "    " +++ name +++ " dq " +++ show_Z v2]) /\
  bss_section (generate_body [VarDecl name None; VarDecl name None] st) =
  bss_section st ++ ["    " +++ name +++ " resq 1"; "    " +++ name +++ " resq 1"] /\
  (forall v1 v2,
     variables (generate_body [VarDecl name v1; VarDecl name v2] st) =
     if in_strings name (variables st) then variables st else variables st ++ [name]).
Proof.
  intros name st. unfold in_strings.
  assert (Hin : forall l, existsb (String.eqb name) (l ++ [name]) = true).
  { intros l. apply existsb_exists. exists name. split; [apply in_or_app; right; left; reflexivity|apply String.eqb_refl]. }
  repeat split; intros; simpl; unfold generate_var_decl, in_strings;
    destruct (existsb (String.eqb name) (variables st)) eqn:E; simpl;
    try rewrite E; try rewrite Hin; simpl; rewrite <- ?app_assoc; try reflexivity.
  all: destruct v1, v2; simpl; rewrite ?E, ?Hin; reflexivity.
Qed.

(** X12: a [For] loop declares its variable in [.bss] only when it is not yet
    in [variables]: two loops over a fresh variable emit one [resq] line, a
    [VarDecl] before the loop suppresses it, but a [VarDecl] after the loop
    still emits its own line, so the symbol is then defined twice. *)
Theorem for_declares_once : forall v a b s a' b' s' val st,
  in_strings v (variables st) = false ->
  bss_section (generate_body [For v a b s []; For v a' b' s' []] st) =
    bss_section st ++ ["    " +++ v +++ " resq 1"] /\
  bss_section (generate_body [For v a b s []; VarDecl v None] st) =
    bss_section st ++ ["    " +++ v +++ " resq 1"; "    " +++ v +++ " resq 1"] /\
  data_section (generate_body [For v a b s []; VarDecl v (Some val)] st) =
    data_section st ++ ["    " +++ v +++ " dq " +++ show_Z val] /\
  bss_section (generate_body [VarDecl v (Some val); For v a b s []] st) = bss_section st.
Proof.
  intros v a b s a' b' s' val st H.
  assert (Hin : forall l, in_strings v (l ++ [v]) = true).
  { intros l. unfold in_strings. apply existsb_exists. exists v.
    split; [apply in_or_app; right; left; reflexivity|apply String.eqb_refl]. }
  cbn [generate_body generate_statement]. cbv zeta. rewrite H.
  destruct (s =? 1)%Z, (s' =? 1)%Z; unfold generate_var_decl;
  cbn [variables bss_section data_section text_section label_counter emit emit_label emit_bss
       emit_data set_variables set_counter set_text set_bss set_data];
  rewrite ?H, ?Hin; cbn [variables bss_section data_section text_section label_counter emit emit_label emit_bss
       emit_data set_variables set_counter set_text set_bss set_data];
  rewrite ?Hin; cbn [bss_section set_data emit_data];
  rewrite <- ?app_assoc; repeat split; reflexivity.
Qed.

Lemma for_declares_once_witness : in_strings "x" [] = false /\
  bss_section (generate_body [For "x" 1 3 1 []; For "x" 0 2 2 []] init_gstate) =
    bss_section init_gstate ++ ["    " +++ "x" +++ " resq 1"] /\
  bss_section (generate_body [For "x" 1 3 1 []; VarDecl "x" None] init_gstate) =
    bss_section init_gstate ++ ["    " +++ "x" +++ " resq 1"; "    " +++ "x" +++ " resq 1"] /\
  data_section (generate_body [For "x" 1 3 1 []; VarDecl "x" (Some 5%Z)] init_gstate) =
    data_section init_gstate ++ ["    " +++ "x" +++ " dq " +++ show_Z 5] /\
  bss_section (generate_body [VarDecl "x" (Some 5%Z); For "x" 1 3 1 []] init_gstate) =
    bss_section init_gstate.
Proof.
  split; [reflexivity|].
  apply (for_declares_once "x" 1 3 1 0 2 2 5 init_gstate). reflexivity.
Defined.

(** ** Control-flow labels *)

Lemma to_uint_not_nil : forall n, Nat.to_uint n <> Decimal.Nil.
Proof.
  intros n E. pose proof (DecimalNat.Unsigned.of_to n) as H. rewrite E in H. simpl in H.
  subst n. discriminate E.
Qed.

Lemma show_nat_inj : forall n m, show_nat n = show_nat m -> n = m.
Proof.
  intros n m E. unfold show_nat in E.
  pose proof (DecimalString.NilZero.usu _ (to_uint_not_nil n)) as Hn.
  pose proof (DecimalString.NilZero.usu _ (to_uint_not_nil m)) as Hm.
  rewrite E, Hm in Hn. injection Hn as Hn. apply DecimalNat.Unsigned.to_uint_inj. congruence.
Qed.

Lemma append_inj_l : forall p a b, p +++ a = p +++ b -> a = b.
Proof. induction p as [|c p IH]; intros a b E; simpl in E; [exact E|]. injection E as E. auto. Qed.

Lemma lab_inj : forall p q k m, In p ctl_prefixes -> In q ctl_prefixes ->
  lab p k = lab q m -> p = q /\ k = m.
Proof.
  intros p q k m Hp Hq E. unfold lab in E. apply append_colon_inj in E.
  assert (p = q).
  { simpl in Hp, Hq.
    repeat (destruct Hp as [<-|Hp]; [|]); try contradiction;
    repeat (destruct Hq as [<-|Hq]; [|]); try contradiction;
    try reflexivity; simpl in E; discriminate E. }
  subst q. split; [reflexivity|]. apply show_nat_inj. eapply append_inj_l; exact E.
Qed.

Lemma adds_refl : forall st, adds [] st st.
Proof. intros st. split; [reflexivity|]. exists []. rewrite app_nil_r. split; reflexivity. Qed.

Lemma adds_trans : forall l1 l2 st st1 st2, adds l1 st st1 -> adds l2 st1 st2 -> adds (l1 ++ l2) st st2.
Proof.
  intros l1 l2 st st1 st2 [C1 [d1 [T1 L1]]] [C2 [d2 [T2 L2]]]. split; [congruence|].
  exists (d1 ++ d2). rewrite T2, T1, app_assoc. split; [reflexivity|].
  unfold label_lines in *. rewrite filter_app. congruence.
Qed.

Lemma adds_text : forall st t d, label_lines d = [] ->
  text_section t = text_section st ++ d -> label_counter t = label_counter st -> adds [] st t.
Proof. intros st t d H E C. split; [exact C|]. exists d. auto. Qed.

Lemma adds_same : forall st t,
  text_section t = text_section st -> label_counter t = label_counter st -> adds [] st t.
Proof. intros st t E C. apply (adds_text st t []); [reflexivity|rewrite app_nil_r|]; assumption. Qed.

Lemma adds_emit : forall i st, adds [] st (emit i st).
Proof. intros i st. split; [reflexivity|]. exists ["    " +++ i]. split; reflexivity. Qed.

Lemma adds_nop : forall st, adds [] st (append_text "    nop" st).
Proof. intros st. split; [reflexivity|]. exists ["    nop"]. split; reflexivity. Qed.

Lemma adds_label : forall p n st, In p ctl_prefixes ->
  adds [lab p n] st (emit_label (p +++ show_nat n) st).
Proof.
  intros p n st Hp. split; [reflexivity|]. exists [lab p n]. split; [reflexivity|].
  unfold label_lines, is_label_line. simpl.
  simpl in Hp; repeat (destruct Hp as [<-|Hp]; [reflexivity|]); contradiction.
Qed.

Lemma adds_eq : forall l l' st st', adds l st st' -> l = l' -> adds l' st st'.
Proof. intros l l' st st' H <-. exact H. Qed.

Lemma adds_load_operand : forall r v st, adds [] st (load_operand r v st).
Proof.
  intros r [s|z] st; unfold load_operand; [destruct (is_register s)|]; apply adds_emit.
Qed.

Lemma adds_condition : forall c l st, adds [] st (generate_condition c l st).
Proof.
  intros c l st. unfold generate_condition. cbv zeta.
  assert (H0 : adds [] st (emit "cmp r10, r11"
                 (load_operand "r11" (cond_right c) (load_operand "r10" (cond_left c) st)))).
  { eapply adds_eq; [eapply adds_trans; [apply adds_load_operand|];
      eapply adds_trans; [apply adds_load_operand|apply adds_emit] | reflexivity]. }
  split_ifs; try exact H0; (eapply adds_eq; [eapply adds_trans; [exact H0|apply adds_emit]|reflexivity]).
Qed.

Ltac adds_chain :=
  match goal with
  | |- adds _ ?st ?st => apply adds_refl
  | |- adds _ ?st (emit ?i ?x) => eapply (adds_trans _ _ st x); [adds_chain | apply adds_emit]
  | |- adds _ ?st (append_text "    nop" ?x) => eapply (adds_trans _ _ st x); [adds_chain | apply adds_nop]
  | |- adds _ ?st (emit_label (?p +++ show_nat ?n) ?x) =>
      eapply (adds_trans _ _ st x); [adds_chain | apply adds_label; simpl; tauto]
  | |- adds _ ?st (emit_data _ ?x) =>
      eapply (adds_trans _ _ st x); [adds_chain | apply adds_same; reflexivity]
  | |- adds _ ?st (emit_bss _ ?x) =>
      eapply (adds_trans _ _ st x); [adds_chain | apply adds_same; reflexivity]
  | |- adds _ ?st (set_variables _ ?x) =>
      eapply (adds_trans _ _ st x); [adds_chain | apply adds_same; reflexivity]
  | |- adds _ ?st (set_needs_print _ ?x) =>
      eapply (adds_trans _ _ st x); [adds_chain | apply adds_same; reflexivity]
  | |- adds _ ?st (set_needs_read _ ?x) =>
      eapply (adds_trans _ _ st x); [adds_chain | apply adds_same; reflexivity]
  | |- adds _ ?st (load_operand ?r ?v ?x) =>
      eapply (adds_trans _ _ st x); [adds_chain | apply adds_load_operand]
  | |- adds _ ?st (generate_condition ?c ?l ?x) =>
      eapply (adds_trans _ _ st x); [adds_chain | apply adds_condition]
  | |- adds _ ?st (when ?b ?f ?x) => destruct b; unfold when at 1; adds_chain
  | |- adds _ ?st (if ?b then _ else _) => destruct b; adds_chain
  end.

Ltac adds_solve := cbv zeta; eapply adds_eq; [adds_chain | reflexivity].

Lemma adds_leaf : forall s st, is_leaf s = true -> adds [] st (generate_statement s st).
Proof.
  intros s st H. destruct s; try discriminate H; cbn [generate_statement].
  - unfold generate_var_decl; destruct val; split_ifs; adds_solve.
  - unfold generate_load; destruct src; split_ifs; adds_solve.
  - unfold generate_set; destruct src; adds_solve.
  - unfold generate_move; destruct src; split_ifs; adds_solve.
  - unfold generate_binary_op; cbv zeta; destruct right_; split_ifs; adds_solve.
  - unfold generate_unary_op; split_ifs; adds_solve.
  - unfold generate_shift; cbv zeta; split_ifs; adds_solve.
  - apply adds_refl.
  - apply adds_refl.
  - apply adds_refl.
  - unfold generate_call; adds_solve.
  - unfold generate_return; destruct val; split_ifs; adds_solve.
  - apply adds_refl.
  - apply adds_refl.
  - unfold generate_print, load_value_to_r15; destruct val; split_ifs; adds_solve.
  - unfold generate_input; split_ifs; adds_solve.
  - unfold generate_halt; adds_solve.
  - adds_solve.
Qed.

Lemma ctl_label_weaken : forall lo hi lo' hi' x, lo' <= lo -> hi <= hi' ->
  ctl_label lo hi x -> ctl_label lo' hi' x.
Proof. intros lo hi lo' hi' x H1 H2 (p & k & Hp & E & R). exists p, k. repeat split; auto; lia. Qed.

Lemma Forall_ctl_weaken : forall lo hi lo' hi' l, lo' <= lo -> hi <= hi' ->
  Forall (ctl_label lo hi) l -> Forall (ctl_label lo' hi') l.
Proof.
  intros lo hi lo' hi' l H1 H2 F. eapply Forall_impl; [|exact F].
  intros x. apply ctl_label_weaken; assumption.
Qed.

Lemma ctl_disjoint : forall lo1 hi1 lo2 hi2 L1 L2, hi1 <= lo2 ->
  Forall (ctl_label lo1 hi1) L1 -> Forall (ctl_label lo2 hi2) L2 ->
  forall x, In x L1 -> ~ In x L2.
Proof.
  intros lo1 hi1 lo2 hi2 L1 L2 H F1 F2 x I1 I2.
  rewrite Forall_forall in F1, F2.
  destruct (F1 x I1) as (p & k & Hp & E & R). destruct (F2 x I2) as (q & m & Hq & E' & R').
  rewrite E in E'. apply lab_inj in E' as [_ Ekm]; [lia|assumption|assumption].
Qed.

Lemma NoDup_ranges : forall lo1 hi1 lo2 hi2 L1 L2, hi1 <= lo2 ->
  NoDup L1 -> NoDup L2 -> Forall (ctl_label lo1 hi1) L1 -> Forall (ctl_label lo2 hi2) L2 ->
  NoDup (L1 ++ L2).
Proof.
  intros lo1 hi1 lo2 hi2 L1 L2 H N1 N2 F1 F2. apply NoDup_app; [assumption|assumption|].
  eapply ctl_disjoint; eassumption.
Qed.

Lemma fresh_refl : forall st, fresh_labels st st.
Proof.
  intros st. split; [lia|]. exists []. rewrite app_nil_r. repeat split; constructor.
Qed.

Lemma fresh_of_adds : forall st st', adds [] st st' -> fresh_labels st st'.
Proof.
  intros st st' [C [d [T L]]]. split; [lia|]. exists d. rewrite L. repeat split; [exact T|constructor..].
Qed.

Lemma fresh_trans : forall st st1 st2,
  fresh_labels st st1 -> fresh_labels st1 st2 -> fresh_labels st st2.
Proof.
  intros st st1 st2 [C1 [d1 [T1 [N1 F1]]]] [C2 [d2 [T2 [N2 F2]]]]. split; [lia|].
  exists (d1 ++ d2). rewrite T2, T1, app_assoc. split; [reflexivity|].
  unfold label_lines in *. rewrite filter_app. split.
  - eapply NoDup_ranges; [|exact N1|exact N2|exact F1|exact F2]. lia.
  - apply Forall_app. split; [eapply Forall_ctl_weaken; [| |exact F1] | eapply Forall_ctl_weaken; [| |exact F2]]; lia.
Qed.

Lemma own_ctl : forall n l, Forall (own n) l -> Forall (ctl_label n (S n)) l.
Proof.
  intros n l F. eapply Forall_impl; [|exact F]. intros x [p [Hp E]]. exists p, n. repeat split; auto.
Qed.

Lemma perm5 : forall (a l1 b l2 c : list string),
  Permutation (a ++ l1 ++ b ++ l2 ++ c) ((a ++ b ++ c) ++ (l1 ++ l2)).
Proof.
  intros a l1 b l2 c. rewrite <- app_assoc. apply Permutation_app_head.
  etransitivity; [apply Permutation_app_comm|]. rewrite <- !app_assoc. apply Permutation_app_head.
  etransitivity; [apply Permutation_app_comm|]. rewrite <- app_assoc. reflexivity.
Qed.

Lemma fresh_wrap : forall st0 st1 st2 st3 st4 st5 a b c,
  adds a (set_counter (S (label_counter st0)) st0) st1 -> fresh_labels st1 st2 ->
  adds b st2 st3 -> fresh_labels st3 st4 -> adds c st4 st5 ->
  NoDup (a ++ b ++ c) -> Forall (own (label_counter st0)) (a ++ b ++ c) ->
  fresh_labels st0 st5.
Proof.
  intros st0 st1 st2 st3 st4 st5 a b c [Ca [da [Ta La]]] [C1 [d1 [T1 [N1 F1]]]]
    [Cb [db [Tb Lb]]] [C2 [d2 [T2 [N2 F2]]]] [Cc [dc [Tc Lc]]] N F.
  simpl in Ca, Ta. split; [lia|].
  exists (da ++ d1 ++ db ++ d2 ++ dc).
  rewrite Tc, T2, Tb, T1, Ta, <- !app_assoc. split; [reflexivity|].
  unfold label_lines in *. rewrite !filter_app, La, Lb, Lc.
  apply own_ctl in F.
  assert (P : Permutation (a ++ filter is_label_line d1 ++ b ++ filter is_label_line d2 ++ c)
                          ((a ++ b ++ c) ++ (filter is_label_line d1 ++ filter is_label_line d2))).
  { apply perm5. }
  split.
  - apply (Permutation_NoDup (Permutation_sym P)).
    apply (NoDup_ranges (label_counter st0) (S (label_counter st0)) (S (label_counter st0)) (label_counter st4)); [lia|exact N| |exact F|].
    + eapply NoDup_ranges; [|exact N1|exact N2|exact F1|exact F2]. lia.
    + apply Forall_app. split; [eapply Forall_ctl_weaken; [| |exact F1] | eapply Forall_ctl_weaken; [| |exact F2]]; lia.
  - apply (Permutation_Forall (Permutation_sym P)). apply Forall_app. split.
    + eapply Forall_ctl_weaken; [| |exact F]; lia.
    + apply Forall_app. split; [eapply Forall_ctl_weaken; [| |exact F1] | eapply Forall_ctl_weaken; [| |exact F2]]; lia.
Qed.

Lemma fresh_body_all : forall l,
  list_all@{Prop ; Set Set} stmt (fun s => forall st, fresh_labels st (generate_statement s st)) l ->
  forall st, fresh_labels st (generate_body l st).
Proof.
  intros l X. induction X as [|s IHs l X IH]; intros st; simpl.
  - apply fresh_refl.
  - eapply fresh_trans; [apply IHs|apply IH].
Qed.

Ltac own_nodup :=
  cbn [app];
  repeat (constructor;
    [let Hx := fresh "Hx" in intros Hx;
     repeat (destruct Hx as [Hx|Hx];
             [apply lab_inj in Hx; [destruct Hx as [Hx _]; discriminate Hx|simpl; tauto|simpl; tauto]|]);
     exact Hx|]);
  constructor.

Ltac own_all :=
  apply Forall_forall; let x := fresh "x" in let Hx := fresh "Hx" in intros x Hx; cbn [app In] in Hx;
  repeat (destruct Hx as [<-|Hx]; [eexists; split; [|reflexivity]; simpl; tauto|]); contradiction.

Ltac wrap1 Hb :=
  match goal with |- fresh_labels ?st0 ?st5 =>
    match st5 with context [generate_body ?bd ?x] =>
      eapply (fresh_wrap st0 x (generate_body bd x) (generate_body bd x) (generate_body bd x) st5 _ [] _);
      [adds_solve | apply Hb | apply adds_refl | apply fresh_refl | adds_solve | own_nodup | own_all]
    end end.

Lemma fresh_statement : forall s st, fresh_labels st (generate_statement s st).
Proof.
  intros s. induction s using stmt_ind; intros st;
    try (apply fresh_of_adds, adds_leaf; reflexivity);
    cbn [generate_statement]; fold generate_body; cbv zeta.
  - apply fresh_of_adds, adds_same; reflexivity.
  - pose proof (fresh_body_all body H) as Hb. wrap1 Hb.
  - pose proof (fresh_body_all body H) as Hb. wrap1 Hb.
  - pose proof (fresh_body_all body H) as Hb.
    set (st0 := if in_strings var (variables st) then st else _).
    apply (fresh_trans st st0).
    + apply fresh_of_adds. subst st0. destruct (in_strings var (variables st)); [apply adds_refl|adds_solve].
    + clearbody st0. destruct (Z.eqb step 1); wrap1 Hb.
  - pose proof (fresh_body_all body H) as Hb. wrap1 Hb.
  - pose proof (fresh_body_all then_body H) as Hb.
    destruct else_body as [eb|]; [destruct eb as [|s0 eb]|]; try wrap1 Hb.
    match goal with Ho : option_all _ _ (Some _) |- _ => inversion Ho as [a Xe|]; subst end.
    pose proof (fresh_body_all (s0 :: eb) Xe) as He.
    match goal with |- fresh_labels ?st0 ?st5 =>
      match st5 with context [generate_body (s0 :: eb) ?x2] =>
      match x2 with context [generate_body then_body ?x1] =>
        eapply (fresh_wrap st0 x1 (generate_body then_body x1) x2 (generate_body (s0 :: eb) x2) st5 _ _ _);
        [adds_solve | apply Hb | adds_solve | apply He | adds_solve | own_nodup | own_all]
      end end end.
Qed.

(** X11: the labels a statement list defines are control-flow labels
    [prefix_k:] with [k] taken from the label counter's new range, each
    defined once; every other added text line is indented. *)
Theorem control_labels_fresh : forall l st, fresh_labels st (generate_body l st).
Proof.
  intros l. induction l as [|s l IH]; intros st; simpl; [apply fresh_refl|].
  eapply fresh_trans; [apply fresh_statement|apply IH].
Qed.
